(** * ddiff: the line-level diff engine of [main.go]

    A shallow embedding of the sequence differ ([computeDiff]) and of the
    hunk assembler ([createHunksFromEdits], [createSingleHunk]) together
    with the renderer glue around them ([generateUnifiedDiff],
    [printDiff], [compareFiles]).

    Conventions of the embedding.
    - A Go [int] is a [Z].  Indices into a slice and the entries of the
      LCS table lie between 0 and the length of a slice, which the Go
      runtime keeps below 2^63, so their arithmetic is exact.  Arithmetic
      in which the user-supplied [context] or the fields of an arbitrary
      [Edit] take part is wrapped to 64 bits ([int_add], [int_sub],
      [int_mul]), as Go does on the usual 64-bit targets.
    - A Go [string] is a Rocq [string] (a sequence of bytes); a slice is
      a list.
    - A computation is a value of [res]: it returns ([Ok]), panics on an
      index out of range ([Panic]), or exhausts the iteration budget that
      the embedding hands to a [for cond { ... }] loop ([OutOfFuel]). *)

From Stdlib Require Import Ascii.
From stdpp Require Import base numbers list strings pretty.

Open Scope Z_scope.

(** ** Results of Go computations *)

Inductive res (A : Type) : Type :=
| Ok (a : A)
| Panic
| OutOfFuel.
Arguments Ok {A} a.
Arguments Panic {A}.
Arguments OutOfFuel {A}.

Global Instance res_ret : MRet res := @Ok.
Global Instance res_bind : MBind res := λ A B f m,
  match m with
  | Ok a => f a
  | Panic => Panic
  | OutOfFuel => OutOfFuel
  end.

(** [len(s)] *)
Definition len {A} (l : list A) : Z := Z.of_nat (length l).

(** [s[i]]: panics outside [0 <= i < len(s)]. *)
Definition index {A} (l : list A) (i : Z) : res A :=
  if decide (0 ≤ i) then
    match l !! Z.to_nat i with
    | Some x => Ok x
    | None => Panic
    end
  else Panic.

(** [s[i] = v] *)
Definition store {A} (l : list A) (i : Z) (v : A) : res (list A) :=
  if decide (0 ≤ i < len l) then Ok (<[Z.to_nat i := v]> l) else Panic.

(** [s[a:b]] for [0 <= a <= b <= len(s)] *)
Definition slice {A} (l : list A) (a b : Z) : list A :=
  take (Z.to_nat (b - a)) (drop (Z.to_nat a) l).

(** [for cond { body }] with an iteration budget. *)
Fixpoint while {St} (fuel : nat) (cond : St → res bool) (body : St → res St)
    (s : St) : res St :=
  match fuel with
  | O => OutOfFuel
  | S fuel' =>
      c ← cond s;
      if c : bool then s' ← body s; while fuel' cond body s' else Ok s
  end.

(** [for _, x := range xs { body }]; over the indices [seqZ a (b - a)]
    this is [for i := a; i < b; i++ { body }]. *)
Fixpoint for_each {A St} (xs : list A) (body : A → St → res St) (s : St) : res St :=
  match xs with
  | [] => Ok s
  | x :: xs' => s' ← body x s; for_each xs' body s'
  end.

(** ** 64-bit integers *)

Definition int_min : Z := -9223372036854775808.
Definition int_max : Z := 9223372036854775807.

Definition wrap (z : Z) : Z :=
  (z + 9223372036854775808) `mod` 18446744073709551616 - 9223372036854775808.

Definition int_add (a b : Z) : Z := wrap (a + b).
Definition int_sub (a b : Z) : Z := wrap (a - b).
Definition int_mul (a b : Z) : Z := wrap (a * b).

(** [func max(a, b int) int] and [func min(a, b int) int] *)
Definition max (a b : Z) : Z := if decide (a > b) then a else b.
Definition min (a b : Z) : Z := if decide (a < b) then a else b.

(** ** The sequence differ *)

Record Edit : Type := mkEdit {
  Typ : string;   (* the field [Type]: "equal", "delete", "insert" *)
  Start1 : Z;
  End1 : Z;
  Start2 : Z;
  End2 : Z
}.

(** [dp := make([][]int, n+1)], every row [make([]int, m+1)]. *)
Definition make_table (n m : Z) : list (list Z) :=
  replicate (Z.to_nat (n + 1)) (replicate (Z.to_nat (m + 1)) 0).

(** [dp[i][j]] *)
Definition get2 (dp : list (list Z)) (i j : Z) : res Z :=
  row ← index dp i; index row j.

(** [dp[i][j] = v] *)
Definition set2 (dp : list (list Z)) (i j v : Z) : res (list (list Z)) :=
  row ← index dp i; row' ← store row j v; store dp i row'.

(** The body of the two nested loops that fill the table. *)
Definition fill_cell (lines1 lines2 : list string) (i j : Z)
    (dp : list (list Z)) : res (list (list Z)) :=
  a ← index lines1 (i - 1);
  b ← index lines2 (j - 1);
  if decide (a = b) then
    d ← get2 dp (i - 1) (j - 1);
    set2 dp i j (d + 1)
  else
    u ← get2 dp (i - 1) j;
    l ← get2 dp i (j - 1);
    set2 dp i j (max u l).

Definition fill_row (lines1 lines2 : list string) (i : Z)
    (dp : list (list Z)) : res (list (list Z)) :=
  for_each (seqZ 1 (len lines2)) (fill_cell lines1 lines2 i) dp.

Definition fill_table (lines1 lines2 : list string) : res (list (list Z)) :=
  for_each (seqZ 1 (len lines1)) (fill_row lines1 lines2)
    (make_table (len lines1) (len lines2)).

(** [i > 0 && j > 0 && lines1[i-1] == lines2[j-1]] *)
Definition equal_cond (lines1 lines2 : list string) (i j : Z) : res bool :=
  if decide (i > 0) then
    if decide (j > 0) then
      a ← index lines1 (i - 1);
      b ← index lines2 (j - 1);
      Ok (bool_decide (a = b))
    else Ok false
  else Ok false.

(** [i > 0 && (j == 0 || dp[i-1][j] >= dp[i][j-1])] *)
Definition delete_cond (dp : list (list Z)) (i j : Z) : res bool :=
  if decide (i > 0) then
    if decide (j = 0) then Ok true
    else
      u ← get2 dp (i - 1) j;
      l ← get2 dp i (j - 1);
      Ok (bool_decide (u >= l))
  else Ok false.

(** [j > 0 && (i == 0 || dp[i-1][j] < dp[i][j-1])] *)
Definition insert_cond (dp : list (list Z)) (i j : Z) : res bool :=
  if decide (j > 0) then
    if decide (i = 0) then Ok true
    else
      u ← get2 dp (i - 1) j;
      l ← get2 dp i (j - 1);
      Ok (bool_decide (u < l))
  else Ok false.

(** The three inner loops of the backtracking.  Each iteration lowers a
    positive index by one, so [i] (or [j]) iterations and one last test
    of the condition are enough. *)
Definition equal_run (lines1 lines2 : list string) (i j : Z) : res (Z * Z) :=
  while (S (Z.to_nat i))
    (λ '(i, j), equal_cond lines1 lines2 i j)
    (λ '(i, j), Ok (i - 1, j - 1))
    (i, j).

Definition delete_run (dp : list (list Z)) (i j : Z) : res Z :=
  while (S (Z.to_nat i))
    (λ i, delete_cond dp i j)
    (λ i, Ok (i - 1))
    i.

Definition insert_run (dp : list (list Z)) (i j : Z) : res Z :=
  while (S (Z.to_nat j))
    (λ j, insert_cond dp i j)
    (λ j, Ok (j - 1))
    j.

(** One iteration of [for i > 0 || j > 0 { ... }]; the state is
    [(i, j, edits)] and an operation is prepended to [edits]. *)
Definition backtrack_step (lines1 lines2 : list string) (dp : list (list Z))
    (st : Z * Z * list Edit) : res (Z * Z * list Edit) :=
  let '(i, j, edits) := st in
  c ← equal_cond lines1 lines2 i j;
  if c : bool then
    let start1 := i - 1 in
    let start2 := j - 1 in
    '(i', j') ← equal_run lines1 lines2 i j;
    Ok (i', j', mkEdit "equal" i' (start1 + 1) j' (start2 + 1) :: edits)
  else
    c ← delete_cond dp i j;
    if c : bool then
      let start1 := i - 1 in
      i' ← delete_run dp i j;
      Ok (i', j, mkEdit "delete" i' (start1 + 1) j j :: edits)
    else
      let start2 := j - 1 in
      j' ← insert_run dp i j;
      Ok (i, j', mkEdit "insert" i i j' (start2 + 1) :: edits).

Definition backtrack_cond (st : Z * Z * list Edit) : res bool :=
  let '(i, j, _) := st in Ok (bool_decide (i > 0 ∨ j > 0)).

(** [func computeDiff(lines1, lines2 []string) []Edit].  Every iteration
    of the outer loop lowers [i + j], so [n + m] iterations suffice. *)
Definition computeDiff (lines1 lines2 : list string) : res (list Edit) :=
  let n := len lines1 in
  let m := len lines2 in
  dp ← fill_table lines1 lines2;
  '(_, _, edits) ← while (S (Z.to_nat (n + m))) backtrack_cond
                      (backtrack_step lines1 lines2 dp) (n, m, []);
  Ok edits.

(** ** The hunk assembler *)

(** [for i := from; i < to; i++ { hunk = append(hunk, prefix+lines[i]) }] *)
Definition emit_lines (prefix : string) (lines : list string) (from to : Z)
    (hunk : list string) : res (list string) :=
  for_each (seqZ from (to - from))
    (λ i hunk, s ← index lines i; Ok (hunk ++ [prefix +:+ s])) hunk.

(** The [switch edit.Type] inside [for _, edit := range edits]; a type
    other than the three named ones emits nothing. *)
Definition emit_edit (lines1 lines2 : list string) (edit : Edit)
    (hunk : list string) : res (list string) :=
  if decide (Typ edit = "equal") then
    emit_lines " " lines1 (Start1 edit) (End1 edit) hunk
  else if decide (Typ edit = "delete") then
    emit_lines "-" lines1 (Start1 edit) (End1 edit) hunk
  else if decide (Typ edit = "insert") then
    emit_lines "+" lines2 (Start2 edit) (End2 edit) hunk
  else Ok hunk.

(** [fmt.Sprintf("@@ -%d,%d +%d,%d @@", s1, l1, s2, l2)] *)
Definition hunk_header (s1 l1 s2 l2 : Z) : string :=
  "@@ -" +:+ pretty s1 +:+ "," +:+ pretty l1 +:+
  " +" +:+ pretty s2 +:+ "," +:+ pretty l2 +:+ " @@".

(** [func createSingleHunk(lines1, lines2 []string, edits []Edit, context int) []string] *)
Definition createSingleHunk (lines1 lines2 : list string) (edits : list Edit)
    (context : Z) : res (list string) :=
  if decide (len edits = 0) then Ok []
  else
    first ← index edits 0;
    last ← index edits (len edits - 1);
    let start1 := Start1 first in
    let end1 := End1 last in
    let start2 := Start2 first in
    let end2 := End2 last in
    let contextStart1 := max 0 (int_sub start1 context) in
    let contextEnd1 := min (len lines1) (int_add end1 context) in
    let contextStart2 := max 0 (int_sub start2 context) in
    let contextEnd2 := min (len lines2) (int_add end2 context) in
    let hunk :=
      [hunk_header (int_add contextStart1 1) (int_sub contextEnd1 contextStart1)
                   (int_add contextStart2 1) (int_sub contextEnd2 contextStart2)] in
    hunk ← emit_lines " " lines1 contextStart1 start1 hunk;
    hunk ← for_each edits (emit_edit lines1 lines2) hunk;
    emit_lines " " lines1 end1 contextEnd1 hunk.

(** [i < len(edits) && edits[i].Type == "equal"] *)
Definition skip_cond (edits : list Edit) (i : Z) : res bool :=
  if decide (i < len edits) then
    e ← index edits i;
    Ok (bool_decide (Typ e = "equal"))
  else Ok false.

(** [i < len(edits) && (edits[i].Type != "equal" ||
     (edits[i].End1-edits[i].Start1) < context*2)] *)
Definition absorb_cond (edits : list Edit) (context : Z) (i : Z) : res bool :=
  if decide (i < len edits) then
    e ← index edits i;
    if decide (Typ e ≠ "equal") then Ok true
    else Ok (bool_decide (int_sub (End1 e) (Start1 e) < int_mul context 2))
  else Ok false.

(** The loop [for i < len(edits) { ... }] of [createHunksFromEdits], with
    its [break]; the state is [(i, hunks)].  The two inner loops only
    raise [i], up to [len(edits)]. *)
Fixpoint hunks_loop (fuel : nat) (lines1 lines2 : list string)
    (edits : list Edit) (context : Z) (i : Z) (hunks : list (list string))
    : res (list (list string)) :=
  match fuel with
  | O => OutOfFuel
  | S fuel' =>
      if decide (i < len edits) then
        i ← while (S (length edits)) (skip_cond edits) (λ i, Ok (i + 1)) i;
        if decide (i >= len edits) then Ok hunks
        else
          let hunkStart := i in
          i ← while (S (length edits)) (absorb_cond edits context)
                (λ i, Ok (i + 1)) i;
          hunk ← createSingleHunk lines1 lines2 (slice edits hunkStart i) context;
          hunks_loop fuel' lines1 lines2 edits context i
            (if decide (len hunk > 0) then hunks ++ [hunk] else hunks)
      else Ok hunks
  end.

(** [func createHunksFromEdits(lines1, lines2 []string, edits []Edit, context int) [][]string].
    Every iteration that does not [break] raises [i], so [len(edits)]
    iterations suffice. *)
Definition createHunksFromEdits (lines1 lines2 : list string)
    (edits : list Edit) (context : Z) : res (list (list string)) :=
  hunks_loop (S (length edits)) lines1 lines2 edits context 0 [].

(** [func generateHunks(lines1, lines2 []string, context int) [][]string] *)
Definition generateHunks (lines1 lines2 : list string) (context : Z)
    : res (list (list string)) :=
  edits ← computeDiff lines1 lines2;
  createHunksFromEdits lines1 lines2 edits context.

(** ** The renderer around the core *)

Record Config : Type := mkConfig {
  showColors : bool;
  showContext : Z;
  recursive : bool;
  showBinary : bool;
  ignoreSpace : bool;
  showStats : bool
}.

(** [func generateUnifiedDiff(file1, file2 string, lines1, lines2 []string, config Config) []string] *)
Definition generateUnifiedDiff (file1 file2 : string)
    (lines1 lines2 : list string) (config : Config) : res (list string) :=
  let result := [] in
  let result := result ++ ["--- " +:+ file1] in
  let result := result ++ ["+++ " +:+ file2] in
  hunks ← generateHunks lines1 lines2 (showContext config);
  Ok (foldl (λ result hunk, result ++ hunk) result hunks).

(** The bytes written to standard output are collected in a string. *)
Definition newline : string := String "010"%char "".
Definition esc : string := String "027"%char "".

(** [func printColor(config Config, color, text string)] *)
Definition printColor (config : Config) (color text : string) : string :=
  if negb (showColors config) then text
  else
    let colorCode :=
      if decide (color = "red") then esc +:+ "[31m"
      else if decide (color = "green") then esc +:+ "[32m"
      else if decide (color = "yellow") then esc +:+ "[33m"
      else if decide (color = "blue") then esc +:+ "[34m"
      else if decide (color = "cyan") then esc +:+ "[36m"
      else if decide (color = "white") then esc +:+ "[37m"
      else "" in
    if decide (colorCode ≠ "") then colorCode +:+ text +:+ esc +:+ "[0m"
    else text.

(** The body of the loop of [printDiff] for one line. *)
Definition printLine (config : Config) (line : string) : string :=
  match line with
  | EmptyString => newline
  | String c _ =>
      if decide (c = "-"%char) then
        if String.prefix "---" line then printColor config "white" (line +:+ newline)
        else printColor config "red" (line +:+ newline)
      else if decide (c = "+"%char) then
        if String.prefix "+++" line then printColor config "white" (line +:+ newline)
        else printColor config "green" (line +:+ newline)
      else if decide (c = "@"%char) then printColor config "cyan" (line +:+ newline)
      else line +:+ newline
  end.

(** [func printDiff(diff []string, config Config)] *)
Definition printDiff (diff : list string) (config : Config) : string :=
  foldl (λ out line, out +:+ printLine config line) "" diff.

(** [func isBinary(lines []string) bool].  Ranging over a Go string
    yields its runes; a rune is 0 exactly where the string has a zero
    byte. *)
Fixpoint has_zero_rune (line : string) : bool :=
  match line with
  | EmptyString => false
  | String r line' => if decide (r = "000"%char) then true else has_zero_rune line'
  end.

Fixpoint isBinary (lines : list string) : bool :=
  match lines with
  | [] => false
  | line :: lines' => if has_zero_rune line then true else isBinary lines'
  end.

(** [func compareFiles(file1, file2 string, config Config) error].  The
    file system is a function from a path to the lines [readFileLines]
    returns, [None] when it returns an error.  The result is the text
    written to standard output and the file whose reading failed, if
    any. *)
Definition compareFiles (readFileLines : string → option (list string))
    (file1 file2 : string) (config : Config) : res (string * option string) :=
  match readFileLines file1 with
  | None => Ok ("", Some file1)
  | Some content1 =>
      match readFileLines file2 with
      | None => Ok ("", Some file2)
      | Some content2 =>
          if isBinary content1 || isBinary content2 then
            if showBinary config then
              Ok ("Binary files " +:+ file1 +:+ " and " +:+ file2 +:+ " differ"
                  +:+ newline, None)
            else Ok ("", None)
          else
            diff ← generateUnifiedDiff file1 file2 content1 content2 config;
            if decide (len diff > 0) then Ok (printDiff diff config, None)
            else Ok ("", None)
      end
  end.

(** * Properties of the run-time model *)

Lemma ret_bind {A B} (a : A) (f : A → res B) : Ok a ≫= f = f a.
Proof. done. Qed.

Lemma bind_Ok {A B} (m : res A) (f : A → res B) b :
  m ≫= f = Ok b ↔ ∃ a, m = Ok a ∧ f a = Ok b.
Proof.
  destruct m as [a| |]; simpl; split; try done.
  - intros Hf. by exists a.
  - by intros (a' & [= <-] & Hf).
  - by intros (a' & ? & _).
  - by intros (a' & ? & _).
Qed.

Lemma len_nonneg {A} (l : list A) : 0 ≤ len l.
Proof. unfold len. lia. Qed.

Lemma len_app {A} (l k : list A) : len (l ++ k) = len l + len k.
Proof. unfold len. rewrite length_app. lia. Qed.

Lemma len_cons {A} (x : A) (l : list A) : len (x :: l) = 1 + len l.
Proof. unfold len. simpl. lia. Qed.

Lemma index_Ok {A} (l : list A) i x :
  index l i = Ok x ↔ 0 ≤ i ∧ l !! Z.to_nat i = Some x.
Proof.
  unfold index. case_decide; [|split; [done|tauto]].
  destruct (l !! Z.to_nat i) as [y|]; split; try done.
  - by intros [= ->].
  - by intros [_ [= ->]].
  - by intros [_ ?].
Qed.

Lemma index_in_range {A} (l : list A) i :
  0 ≤ i < len l → ∃ x, index l i = Ok x ∧ l !! Z.to_nat i = Some x.
Proof.
  intros Hi. destruct (lookup_lt_is_Some_2 l (Z.to_nat i)) as [x Hx].
  { unfold len in Hi. lia. }
  exists x. split; [|done]. apply index_Ok. split; [lia|done].
Qed.

Lemma index_range {A} (l : list A) i x : index l i = Ok x → 0 ≤ i < len l.
Proof.
  intros [Hi Hx]%index_Ok. apply lookup_lt_Some in Hx. unfold len. lia.
Qed.

Lemma wrap_id z : int_min ≤ z ≤ int_max → wrap z = z.
Proof.
  unfold int_min, int_max, wrap. intros Hz.
  rewrite Z.mod_small; lia.
Qed.

Lemma wrap_range z : int_min ≤ wrap z ≤ int_max.
Proof.
  unfold int_min, int_max, wrap.
  pose proof (Z.mod_pos_bound (z + 9223372036854775808) 18446744073709551616).
  lia.
Qed.

Lemma max_is_Zmax a b : max a b = Z.max a b.
Proof. unfold max. case_decide; lia. Qed.

Lemma min_is_Zmin a b : min a b = Z.min a b.
Proof. unfold min. case_decide; lia. Qed.

(** A loop that keeps an invariant and lowers a measure returns, with
    the invariant and the negated condition, once the budget exceeds the
    measure. *)
Lemma while_total {St} (Inv : St → Prop) (μ : St → nat) cond body :
  (∀ s, Inv s → ∃ c, cond s = Ok c ∧
     (c = true → ∃ s', body s = Ok s' ∧ Inv s' ∧ (μ s' < μ s)%nat)) →
  ∀ fuel s, Inv s → (μ s < fuel)%nat →
    ∃ s', while fuel cond body s = Ok s' ∧ Inv s' ∧ cond s' = Ok false.
Proof.
  intros Hstep fuel. induction fuel as [|fuel IH]; intros s Hs Hfuel; [lia|].
  destruct (Hstep s Hs) as (c & Hc & Hbody). simpl. rewrite Hc. simpl.
  destruct c.
  - destruct Hbody as (s' & -> & Hs' & Hlt); [done|]. simpl.
    apply IH; [done|lia].
  - by exists s.
Qed.

(** The budget is not observable: a loop that returns with some budget
    returns the same state with any larger one. *)
Lemma while_fuel_mono {St} cond body (fuel fuel' : nat) (s s' : St) :
  while fuel cond body s = Ok s' → (fuel ≤ fuel')%nat →
  while fuel' cond body s = Ok s'.
Proof.
  revert fuel' s. induction fuel as [|fuel IH]; intros fuel' s; [done|].
  intros Hrun Hle. destruct fuel' as [|fuel']; [lia|].
  simpl in *. destruct (cond s) as [c| |]; simpl in *; try done.
  destruct c; [|done].
  destruct (body s) as [s1| |]; simpl in *; try done.
  apply IH; [done|lia].
Qed.

Lemma while_false {St} cond body (fuel : nat) (s : St) :
  cond s = Ok false → while (S fuel) cond body s = Ok s.
Proof. intros H. simpl. by rewrite H. Qed.

Lemma while_true {St} cond body (fuel : nat) (s s' : St) :
  cond s = Ok true → body s = Ok s' →
  while (S fuel) cond body s = while fuel cond body s'.
Proof. intros H1 H2. simpl. by rewrite H1; simpl; rewrite H2. Qed.

Global Arguments while : simpl never.

Lemma for_each_seqZ {St} (P : Z → St → Prop) (body : Z → St → res St) a n s :
  0 ≤ n → P a s →
  (∀ i s, a ≤ i < a + n → P i s → ∃ s', body i s = Ok s' ∧ P (i + 1) s') →
  ∃ s', for_each (seqZ a n) body s = Ok s' ∧ P (a + n) s'.
Proof.
  intros Hn. rewrite <-(Z2Nat.id n) by done.
  generalize (Z.to_nat n) as k. clear n Hn.
  intros k. revert a s. induction k as [|k IH]; intros a s Hs Hbody.
  - exists s. rewrite seqZ_nil by lia. split; [done|].
    by replace (a + Z.of_nat 0) with a by lia.
  - rewrite seqZ_cons by lia. simpl.
    destruct (Hbody a s) as (s1 & -> & Hs1); [lia|done|]. simpl.
    replace (Z.pred (Z.of_nat (S k))) with (Z.of_nat k) by lia.
    destruct (IH (Z.succ a) s1) as (s2 & Hrun & Hs2).
    + by replace (Z.succ a) with (a + 1) by lia.
    + intros i s' Hi. apply Hbody. lia.
    + exists s2. split; [done|].
      by replace (a + Z.of_nat (S k)) with (Z.succ a + Z.of_nat k) by lia.
Qed.

(** ** The table of the differ *)

(** The longest-common-subsequence length, as the glossary defines it:
    [L] is the length of a longest sequence that is a subsequence of
    both [xs] and [ys]. *)
Definition lcs_length (xs ys : list string) (L : Z) : Prop :=
  (∃ s, s `sublist_of` xs ∧ s `sublist_of` ys ∧ len s = L) ∧
  (∀ s, s `sublist_of` xs → s `sublist_of` ys → len s ≤ L).

Lemma lcs_length_unique xs ys L L' :
  lcs_length xs ys L → lcs_length xs ys L' → L = L'.
Proof.
  intros [(s & ? & ? & <-) Hmax] [(s' & ? & ? & <-) Hmax'].
  apply Z.le_antisymm; auto.
Qed.

Lemma lcs_length_nil_l ys : lcs_length [] ys 0.
Proof.
  split.
  - exists []. split_and!; [done|apply sublist_nil_l|done].
  - intros s ->%sublist_nil_r _. done.
Qed.

Lemma lcs_length_nil_r xs : lcs_length xs [] 0.
Proof.
  split.
  - exists []. split_and!; [apply sublist_nil_l|done|done].
  - intros s _ ->%sublist_nil_r. done.
Qed.

Lemma sublist_snoc_inv {A} (s l : list A) (x : A) :
  s `sublist_of` l ++ [x] →
  s `sublist_of` l ∨ ∃ s', s = s' ++ [x] ∧ s' `sublist_of` l.
Proof.
  intros (s1 & s2 & -> & Hs1 & Hs2)%sublist_app_r.
  apply sublist_cons_r in Hs2 as [->%sublist_nil_r|(s2' & -> & ->%sublist_nil_r)].
  - left. by rewrite app_nil_r.
  - right. by exists s1.
Qed.

Lemma lcs_length_snoc_eq xs ys x L :
  lcs_length xs ys L → lcs_length (xs ++ [x]) (ys ++ [x]) (L + 1).
Proof.
  intros [(s & Hx & Hy & <-) Hmax]. split.
  - exists (s ++ [x]). split_and!.
    + by apply sublist_app.
    + by apply sublist_app.
    + rewrite len_app. done.
  - intros t [Hx'|(t1 & -> & Hx')]%sublist_snoc_inv
             [Hy'|(t2 & Ht & Hy')]%sublist_snoc_inv.
    + specialize (Hmax t Hx' Hy'). lia.
    + specialize (Hmax t2). subst t. rewrite len_app.
      assert (t2 `sublist_of` xs).
      { etrans; [|exact Hx']. by apply sublist_inserts_r. }
      specialize (Hmax H Hy'). unfold len at 2. simpl. lia.
    + rewrite len_app. assert (t1 `sublist_of` ys).
      { etrans; [|exact Hy']. by apply sublist_inserts_r. }
      specialize (Hmax t1 Hx' H). unfold len at 2. simpl. lia.
    + apply app_inj_tail in Ht as [<- _]. rewrite len_app.
      specialize (Hmax t1 Hx' Hy'). unfold len at 2. simpl. lia.
Qed.

Lemma lcs_length_snoc_ne xs ys x y L1 L2 :
  x ≠ y →
  lcs_length xs (ys ++ [y]) L1 →
  lcs_length (xs ++ [x]) ys L2 →
  lcs_length (xs ++ [x]) (ys ++ [y]) (Z.max L1 L2).
Proof.
  intros Hxy [(s1 & Hs1x & Hs1y & <-) Hmax1] [(s2 & Hs2x & Hs2y & <-) Hmax2].
  split.
  - destruct (decide (len s1 ≤ len s2)).
    + exists s2. split_and!; [done| |lia]. by apply sublist_inserts_r.
    + exists s1. split_and!; [|done|lia]. by apply sublist_inserts_r.
  - intros t Hx Hy.
    destruct (sublist_snoc_inv _ _ _ Hx) as [Hx'|(t1 & -> & Hx')].
    { specialize (Hmax1 t Hx' Hy). lia. }
    destruct (sublist_snoc_inv _ _ _ Hy) as [Hy'|(t2 & Ht & Hy')].
    { specialize (Hmax2 _ Hx Hy'). lia. }
    apply app_inj_tail in Ht as [_ ?]. done.
Qed.

Lemma index_insert {A} (l : list A) i i' v :
  0 ≤ i < len l →
  index (<[Z.to_nat i := v]> l) i' = if decide (i' = i) then Ok v else index l i'.
Proof.
  intros Hi. case_decide as Heq.
  - subst i'. apply index_Ok. split; [lia|].
    apply list_lookup_insert_eq. unfold len in Hi. lia.
  - unfold index. case_decide; [|done].
    rewrite list_lookup_insert_ne; [done|lia].
Qed.

Lemma get2_make_table n m i j :
  0 ≤ i ≤ n → 0 ≤ j ≤ m → get2 (make_table n m) i j = Ok 0.
Proof.
  intros Hi Hj. unfold get2, make_table.
  assert (index (replicate (Z.to_nat (n + 1)) (replicate (Z.to_nat (m + 1)) 0)) i
          = Ok (replicate (Z.to_nat (m + 1)) 0)) as ->.
  { apply index_Ok. split; [lia|]. apply lookup_replicate_2. lia. }
  simpl. apply index_Ok. split; [lia|]. apply lookup_replicate_2. lia.
Qed.

(** Writing an existing cell succeeds and changes that cell only. *)
Lemma set2_spec dp i j v v0 :
  get2 dp i j = Ok v0 →
  ∃ dp', set2 dp i j v = Ok dp' ∧
    ∀ i' j', get2 dp' i' j' =
      if decide (i' = i ∧ j' = j) then Ok v else get2 dp i' j'.
Proof.
  intros (row & Hrow & Hcell)%bind_Ok.
  pose proof (index_range _ _ _ Hrow) as Hi.
  pose proof (index_range _ _ _ Hcell) as Hj.
  exists (<[Z.to_nat i := <[Z.to_nat j := v]> row]> dp). split.
  - unfold set2, store. rewrite Hrow. simpl.
    rewrite decide_True by done. simpl. by rewrite decide_True.
  - intros i' j'. unfold get2. rewrite index_insert by done.
    destruct (decide (i' = i)) as [->|Hne].
    + simpl. rewrite index_insert by done. rewrite Hrow. simpl.
      destruct (decide (j' = j)) as [->|Hne'].
      * by rewrite decide_True.
      * rewrite decide_False; [done|tauto].
    + rewrite decide_False; [done|tauto].
Qed.

Section table.
Variables lines1 lines2 : list string.

(** The cell [(i', j')] has been given its final value when the loops
    are about to fill the cell [(i, j)]: row 0 and column 0 keep the
    zero of [make], the rows above [i] are complete and so is row [i]
    to the left of [j]. *)
Definition filled (i j i' j' : Z) : Prop :=
  i' = 0 ∨ j' = 0 ∨ i' < i ∨ (i' = i ∧ j' < j).

Definition table_inv (i j : Z) (dp : list (list Z)) : Prop :=
  ∀ i' j', 0 ≤ i' ≤ len lines1 → 0 ≤ j' ≤ len lines2 →
    ∃ v, get2 dp i' j' = Ok v ∧
      (filled i j i' j' →
         lcs_length (take (Z.to_nat i') lines1) (take (Z.to_nat j') lines2) v).

Lemma table_inv_init :
  table_inv 1 1 (make_table (len lines1) (len lines2)).
Proof.
  intros i' j' Hi Hj. exists 0. split; [by apply get2_make_table|].
  intros [->|[->|[?|[? ?]]]].
  - apply lcs_length_nil_l.
  - apply lcs_length_nil_r.
  - replace i' with 0 by lia. apply lcs_length_nil_l.
  - replace j' with 0 by lia. apply lcs_length_nil_r.
Qed.

Lemma take_snoc (l : list string) (i : Z) x :
  0 < i → l !! Z.to_nat (i - 1) = Some x →
  take (Z.to_nat i) l = take (Z.to_nat (i - 1)) l ++ [x].
Proof.
  intros Hi Hx. replace (Z.to_nat i) with (S (Z.to_nat (i - 1))) by lia.
  by apply take_S_r.
Qed.

Lemma fill_cell_spec i j dp :
  1 ≤ i ≤ len lines1 → 1 ≤ j ≤ len lines2 →
  table_inv i j dp →
  ∃ dp', fill_cell lines1 lines2 i j dp = Ok dp' ∧ table_inv i (j + 1) dp'.
Proof.
  intros Hi Hj Hinv. unfold fill_cell.
  destruct (index_in_range lines1 (i - 1)) as (a & -> & Ha); [lia|].
  destruct (index_in_range lines2 (j - 1)) as (b & -> & Hb); [lia|].
  simpl.
  destruct (Hinv i j) as (v0 & Hv0 & _); [lia..|].
  assert (∀ v, lcs_length (take (Z.to_nat i) lines1) (take (Z.to_nat j) lines2) v →
    ∃ dp', set2 dp i j v = Ok dp' ∧ table_inv i (j + 1) dp') as Hset.
  { intros v Hv. destruct (set2_spec dp i j v v0 Hv0) as (dp' & -> & Hget).
    exists dp'. split; [done|]. intros i' j' Hi' Hj'. rewrite Hget.
    case_decide as Heq.
    - destruct Heq as [-> ->]. by exists v.
    - destruct (Hinv i' j') as (w & Hw & Hlcs); [done..|].
      exists w. split; [done|]. intros Hf. apply Hlcs.
      unfold filled in *. lia. }
  case_decide as Hab.
  - subst b.
    destruct (Hinv (i - 1) (j - 1)) as (d & -> & Hd); [lia..|]. simpl.
    apply Hset. rewrite (take_snoc lines1 i a), (take_snoc lines2 j a) by (done || lia).
    apply lcs_length_snoc_eq, Hd. unfold filled. lia.
  - destruct (Hinv (i - 1) j) as (u & -> & Hu); [lia..|]. simpl.
    destruct (Hinv i (j - 1)) as (l & -> & Hl); [lia..|]. simpl.
    apply Hset. rewrite max_is_Zmax.
    rewrite (take_snoc lines1 i a), (take_snoc lines2 j b) by (done || lia).
    apply lcs_length_snoc_ne; [done|..].
    + rewrite <-(take_snoc lines2 j b) by (done || lia).
      apply Hu. unfold filled. lia.
    + rewrite <-(take_snoc lines1 i a) by (done || lia).
      apply Hl. unfold filled. lia.
Qed.

Lemma fill_row_spec i dp :
  1 ≤ i ≤ len lines1 → table_inv i 1 dp →
  ∃ dp', fill_row lines1 lines2 i dp = Ok dp' ∧ table_inv (i + 1) 1 dp'.
Proof.
  intros Hi Hinv. unfold fill_row.
  destruct (for_each_seqZ (table_inv i) (fill_cell lines1 lines2 i)
              1 (len lines2) dp) as (dp' & Hrun & Hinv').
  - apply len_nonneg.
  - done.
  - intros j dp1 Hj. apply fill_cell_spec; [done|lia].
  - exists dp'. split; [done|]. intros i' j' Hi' Hj'.
    destruct (Hinv' i' j') as (v & Hv & Hlcs); [done..|].
    exists v. split; [done|]. intros Hf. apply Hlcs. unfold filled in *. lia.
Qed.

(** The filled table holds, at [(i, j)], the LCS length of the first
    [i] lines of [lines1] and the first [j] lines of [lines2]. *)
Definition lcs_table (dp : list (list Z)) : Prop :=
  ∀ i j, 0 ≤ i ≤ len lines1 → 0 ≤ j ≤ len lines2 →
    ∃ v, get2 dp i j = Ok v ∧
      lcs_length (take (Z.to_nat i) lines1) (take (Z.to_nat j) lines2) v.

Lemma fill_table_spec :
  ∃ dp, fill_table lines1 lines2 = Ok dp ∧ lcs_table dp.
Proof.
  unfold fill_table.
  destruct (for_each_seqZ (λ i, table_inv i 1) (fill_row lines1 lines2)
              1 (len lines1) (make_table (len lines1) (len lines2)))
    as (dp & Hrun & Hinv).
  - apply len_nonneg.
  - apply table_inv_init.
  - intros i dp1 Hi. apply fill_row_spec. lia.
  - exists dp. split; [done|]. intros i j Hi Hj.
    destruct (Hinv i j) as (v & Hv & Hlcs); [done..|].
    exists v. split; [done|]. apply Hlcs. unfold filled. lia.
Qed.
End table.

(** ** The backtracking *)

Section backtrack.
Variables lines1 lines2 : list string.

(** What the data model asks of one operation. *)
Definition edit_ok (e : Edit) : Prop :=
  (Typ e = "equal" ∧ Start1 e < End1 e ∧
     End1 e - Start1 e = End2 e - Start2 e ∧
     ∀ k, 0 ≤ k < End1 e - Start1 e →
       lines1 !! Z.to_nat (Start1 e + k) = lines2 !! Z.to_nat (Start2 e + k)) ∨
  (Typ e = "delete" ∧ Start1 e < End1 e ∧ End2 e = Start2 e) ∨
  (Typ e = "insert" ∧ End1 e = Start1 e ∧ Start2 e < End2 e).

(** [tiles i j edits]: the operations are well formed, each starts
    where its predecessor ends, the first starts at [(i, j)] and the
    last ends at [(len lines1, len lines2)]. *)
Inductive tiles : Z → Z → list Edit → Prop :=
| tiles_nil : tiles (len lines1) (len lines2) []
| tiles_cons e es :
    edit_ok e → tiles (End1 e) (End2 e) es →
    tiles (Start1 e) (Start2 e) (e :: es).

Lemma edit_ok_le e :
  edit_ok e → Start1 e ≤ End1 e ∧ Start2 e ≤ End2 e ∧
              Start1 e + Start2 e < End1 e + End2 e.
Proof. intros [H|[H|H]]; lia. Qed.

Lemma tiles_le i j edits : tiles i j edits → i ≤ len lines1 ∧ j ≤ len lines2.
Proof.
  induction 1 as [|e es He _ IH]; [lia|].
  apply edit_ok_le in He. lia.
Qed.

Variable dp : list (list Z).
Hypothesis dp_total :
  ∀ i j, 0 ≤ i ≤ len lines1 → 0 ≤ j ≤ len lines2 → ∃ v, get2 dp i j = Ok v.

Lemma equal_cond_spec i j :
  0 ≤ i ≤ len lines1 → 0 ≤ j ≤ len lines2 →
  ∃ c, equal_cond lines1 lines2 i j = Ok c ∧
    (c = true ↔ 0 < i ∧ 0 < j ∧
       lines1 !! Z.to_nat (i - 1) = lines2 !! Z.to_nat (j - 1)).
Proof.
  intros Hi Hj. unfold equal_cond.
  case_decide; [|exists false; split; [done|split; [done|lia]]].
  case_decide; [|exists false; split; [done|split; [done|lia]]].
  destruct (index_in_range lines1 (i - 1)) as (a & -> & Ha); [lia|].
  destruct (index_in_range lines2 (j - 1)) as (b & -> & Hb); [lia|].
  simpl. eexists. split; [done|]. rewrite Ha, Hb, bool_decide_eq_true.
  split; [intros ->; split_and!; (done || lia)|]. by intros (_ & _ & [= ->]).
Qed.

Lemma delete_cond_spec i j :
  0 ≤ i ≤ len lines1 → 0 ≤ j ≤ len lines2 →
  ∃ c, delete_cond dp i j = Ok c ∧
    (c = true ↔ 0 < i ∧
       (j = 0 ∨ ∃ u l, get2 dp (i - 1) j = Ok u ∧ get2 dp i (j - 1) = Ok l ∧ l ≤ u)).
Proof.
  intros Hi Hj. unfold delete_cond.
  case_decide; [|exists false; split; [done|split; [done|lia]]].
  case_decide as Hj0.
  { exists true. split; [done|]. split; [|done]. intros _. split; [lia|by left]. }
  destruct (dp_total (i - 1) j) as (u & Hu); [lia..|].
  destruct (dp_total i (j - 1)) as (l & Hl); [lia..|].
  rewrite Hu, Hl. simpl. eexists. split; [done|].
  rewrite bool_decide_eq_true. split.
  - intros ?. split; [lia|]. right. exists u, l. split_and!; (done || lia).
  - intros (_ & [?|(u' & l' & [= <-] & [= <-] & ?)]); [done|lia].
Qed.

Lemma insert_cond_spec i j :
  0 ≤ i ≤ len lines1 → 0 ≤ j ≤ len lines2 →
  ∃ c, insert_cond dp i j = Ok c ∧
    (c = true ↔ 0 < j ∧
       (i = 0 ∨ ∃ u l, get2 dp (i - 1) j = Ok u ∧ get2 dp i (j - 1) = Ok l ∧ u < l)).
Proof.
  intros Hi Hj. unfold insert_cond.
  case_decide; [|exists false; split; [done|split; [done|lia]]].
  case_decide as Hi0.
  { exists true. split; [done|]. split; [|done]. intros _. split; [lia|by left]. }
  destruct (dp_total (i - 1) j) as (u & Hu); [lia..|].
  destruct (dp_total i (j - 1)) as (l & Hl); [lia..|].
  rewrite Hu, Hl. simpl. eexists. split; [done|].
  rewrite bool_decide_eq_true. split.
  - intros ?. split; [lia|]. right. exists u, l. split_and!; (done || lia).
  - intros (_ & [?|(u' & l' & [= <-] & [= <-] & ?)]); [done|lia].
Qed.

(** Where neither a match nor a deletion applies, an insertion does. *)
Lemma insert_cond_otherwise i j :
  0 ≤ i ≤ len lines1 → 0 ≤ j ≤ len lines2 → 0 < i ∨ 0 < j →
  delete_cond dp i j = Ok false → insert_cond dp i j = Ok true.
Proof.
  intros Hi Hj Hpos Hdel.
  destruct (delete_cond_spec i j Hi Hj) as (c & Hc & Hdel').
  rewrite Hdel in Hc. injection Hc as <-.
  destruct (insert_cond_spec i j Hi Hj) as (c & -> & Hins).
  f_equal. apply Hins. clear Hins.
  destruct (decide (i = 0)) as [->|Hi0]; [split; [lia|by left]|].
  destruct (decide (j = 0)) as [->|Hj0].
  { assert (false = true); [|done]. apply Hdel'. split; [lia|by left]. }
  split; [lia|]. right.
  destruct (dp_total (i - 1) j) as (u & Hu); [lia..|].
  destruct (dp_total i (j - 1)) as (l & Hl); [lia..|].
  exists u, l. split_and!; [done..|].
  destruct (decide (u < l)); [done|].
  assert (false = true); [|done]. apply Hdel'. split; [lia|].
  right. exists u, l. split_and!; (done || lia).
Qed.

(** The run of matching lines: it ends where the match fails, has
    moved both indices by the same positive amount, and every pair of
    lines it passed is equal. *)
Lemma equal_run_spec i j :
  0 ≤ i ≤ len lines1 → 0 ≤ j ≤ len lines2 →
  equal_cond lines1 lines2 i j = Ok true →
  ∃ i' j', equal_run lines1 lines2 i j = Ok (i', j') ∧
    0 ≤ i' < i ∧ 0 ≤ j' ∧ i - i' = j - j' ∧
    equal_cond lines1 lines2 i' j' = Ok false ∧
    ∀ k, 0 ≤ k < i - i' →
      lines1 !! Z.to_nat (i' + k) = lines2 !! Z.to_nat (j' + k).
Proof.
  intros Hi Hj Hcond. unfold equal_run.
  set (Inv := λ s : Z * Z,
    0 ≤ s.1 ≤ i ∧ 0 ≤ s.2 ∧ i - s.1 = j - s.2 ∧
    ∀ k, 0 ≤ k < i - s.1 →
      lines1 !! Z.to_nat (s.1 + k) = lines2 !! Z.to_nat (s.2 + k)).
  destruct (while_total Inv (λ s, Z.to_nat s.1)
              (λ '(i, j), equal_cond lines1 lines2 i j)
              (λ '(i, j), Ok (i - 1, j - 1))) with (fuel := S (Z.to_nat i)) (s := (i, j))
    as ([i' j'] & Hrun & (Hi' & Hj' & Hd & Hsame) & Hend).
  - intros [a b] (Ha & Hb & Hab & Hsame). simpl in *.
    destruct (equal_cond_spec a b) as (c & -> & Hc); [lia..|].
    exists c. split; [done|]. intros ->.
    destruct Hc as [(? & ? & Hline) _]; [done|].
    eexists. split; [done|]. unfold Inv. simpl. split_and!; try lia.
    intros k Hk. destruct (decide (k = 0)) as [->|Hk0].
    + by rewrite !Z.add_0_r.
    + replace (a - 1 + k) with (a + (k - 1)) by lia.
      replace (b - 1 + k) with (b + (k - 1)) by lia.
      apply Hsame. lia.
  - unfold Inv. simpl. split_and!; try lia.
  - simpl. lia.
  - simpl in *. exists i', j'. split_and!; try (done || lia).
    destruct (decide (i' = i)) as [->|]; [|lia].
    replace j' with j in Hend by lia. congruence.
Qed.

Lemma delete_run_spec i j :
  0 ≤ i ≤ len lines1 → 0 ≤ j ≤ len lines2 →
  delete_cond dp i j = Ok true →
  ∃ i', delete_run dp i j = Ok i' ∧ 0 ≤ i' < i ∧
    delete_cond dp i' j = Ok false.
Proof.
  intros Hi Hj Hcond. unfold delete_run.
  destruct (while_total (λ a, 0 ≤ a ≤ i) Z.to_nat
              (λ i, delete_cond dp i j) (λ i, Ok (i - 1)))
    with (fuel := S (Z.to_nat i)) (s := i) as (i' & Hrun & Hi' & Hend).
  - intros a Ha. destruct (delete_cond_spec a j) as (c & -> & Hc); [lia..|].
    exists c. split; [done|]. intros ->.
    destruct Hc as [[? _] _]; [done|].
    eexists. split; [done|]. lia.
  - lia.
  - lia.
  - exists i'. split_and!; try (done || lia).
    destruct (decide (i' = i)) as [->|]; [congruence|lia].
Qed.

Lemma insert_run_spec i j :
  0 ≤ i ≤ len lines1 → 0 ≤ j ≤ len lines2 →
  insert_cond dp i j = Ok true →
  ∃ j', insert_run dp i j = Ok j' ∧ 0 ≤ j' < j ∧
    insert_cond dp i j' = Ok false.
Proof.
  intros Hi Hj Hcond. unfold insert_run.
  destruct (while_total (λ b, 0 ≤ b ≤ j) Z.to_nat
              (λ j, insert_cond dp i j) (λ j, Ok (j - 1)))
    with (fuel := S (Z.to_nat j)) (s := j) as (j' & Hrun & Hj' & Hend).
  - intros b Hb. destruct (insert_cond_spec i b) as (c & -> & Hc); [lia..|].
    exists c. split; [done|]. intros ->.
    destruct Hc as [[? _] _]; [done|].
    eexists. split; [done|]. lia.
  - lia.
  - lia.
  - exists j'. split_and!; try (done || lia).
    destruct (decide (j' = j)) as [->|]; [congruence|lia].
Qed.
End backtrack.

Global Arguments backtrack_step : simpl never.

Section differ.
Variables lines1 lines2 : list string.

Lemma backtrack_step_spec dp i j edits :
  (∀ i j, 0 ≤ i ≤ len lines1 → 0 ≤ j ≤ len lines2 → ∃ v, get2 dp i j = Ok v) →
  0 ≤ i → 0 ≤ j → tiles lines1 lines2 i j edits → 0 < i ∨ 0 < j →
  ∃ i' j' e,
    backtrack_step lines1 lines2 dp (i, j, edits) = Ok (i', j', e :: edits) ∧
    0 ≤ i' ∧ 0 ≤ j' ∧ i' + j' < i + j ∧
    tiles lines1 lines2 i' j' (e :: edits).
Proof.
  intros Hdp Hi Hj Htiles Hpos.
  destruct (tiles_le _ _ _ _ _ Htiles) as [Hin Hjm].
  unfold backtrack_step.
  destruct (equal_cond_spec lines1 lines2 i j) as ([] & Hc & _); [lia..| |];
    rewrite Hc; simpl.
  { destruct (equal_run_spec lines1 lines2 i j)
      as (i' & j' & -> & Hi' & Hj' & Hd & _ & Hsame); [lia..|done|]. simpl.
    eexists i', j', _. split; [done|]. split_and!; try lia.
    replace (i - 1 + 1) with i by lia. replace (j - 1 + 1) with j by lia.
    apply (tiles_cons _ _ (mkEdit "equal" i' i j' j)); [|done].
    left. simpl. split_and!; (done || lia). }
  destruct (delete_cond_spec lines1 lines2 dp Hdp i j) as ([] & Hc' & _); [lia..| |];
    rewrite Hc'; simpl.
  { destruct (delete_run_spec lines1 lines2 dp Hdp i j)
      as (i' & -> & Hi' & _); [lia..|done|]. simpl.
    eexists i', j, _. split; [done|]. split_and!; try lia.
    replace (i - 1 + 1) with i by lia.
    apply (tiles_cons _ _ (mkEdit "delete" i' i j j)); [|done].
    right; left. simpl. split_and!; (done || lia). }
  destruct (insert_run_spec lines1 lines2 dp Hdp i j)
    as (j' & -> & Hj' & _); [lia..| |].
  { apply insert_cond_otherwise with lines1 lines2; (done || lia). }
  simpl. eexists i, j', _. split; [done|]. split_and!; try lia.
  replace (j - 1 + 1) with j by lia.
  apply (tiles_cons _ _ (mkEdit "insert" i i j' j)); [|done].
  right; right. simpl. split_and!; (done || lia).
Qed.

(** [computeDiff] returns, and its operations tile both sequences
    from their first lines to their last. *)
Lemma computeDiff_spec :
  ∃ edits, computeDiff lines1 lines2 = Ok edits ∧ tiles lines1 lines2 0 0 edits.
Proof.
  unfold computeDiff.
  destruct (fill_table_spec lines1 lines2) as (dp & -> & Hdp). simpl.
  assert (∀ i j, 0 ≤ i ≤ len lines1 → 0 ≤ j ≤ len lines2 →
            ∃ v, get2 dp i j = Ok v) as Htotal.
  { intros i j Hi Hj. destruct (Hdp i j Hi Hj) as (v & Hv & _). by exists v. }
  destruct (while_total
              (λ st : Z * Z * list Edit,
                 0 ≤ st.1.1 ∧ 0 ≤ st.1.2 ∧ tiles lines1 lines2 st.1.1 st.1.2 st.2)
              (λ st, Z.to_nat (st.1.1 + st.1.2))
              backtrack_cond (backtrack_step lines1 lines2 dp))
    with (fuel := S (Z.to_nat (len lines1 + len lines2)))
         (s := (len lines1, len lines2, @nil Edit))
    as ([[i j] edits] & -> & (Hi & Hj & Htiles) & Hend).
  - intros [[i j] edits] (Hi & Hj & Htiles). simpl in *.
    eexists. split; [done|]. intros Hpos%bool_decide_eq_true.
    destruct (backtrack_step_spec dp i j edits)
      as (i' & j' & e & -> & ? & ? & ? & ?); [done..|lia|].
    eexists. split; [done|]. simpl. split_and!; (done || lia).
  - simpl. pose proof (len_nonneg lines1). pose proof (len_nonneg lines2).
    split_and!; [done..|]. constructor.
  - simpl. lia.
  - simpl in *. exists edits. split; [done|].
    injection Hend as Hend%bool_decide_eq_false.
    by replace 0 with i at 1 by lia; replace 0 with j by lia.
Qed.
End differ.

(** ** Consequences of the tiling *)

(** The lines of sequence 1 that the Equal and Delete operations cover,
    in list order, and the lines of sequence 2 that the Equal and Insert
    operations cover. *)
Definition side1 (lines1 : list string) (edits : list Edit) : list string :=
  concat (map (λ e,
    if decide (Typ e = "equal" ∨ Typ e = "delete")
    then slice lines1 (Start1 e) (End1 e) else []) edits).

Definition side2 (lines2 : list string) (edits : list Edit) : list string :=
  concat (map (λ e,
    if decide (Typ e = "equal" ∨ Typ e = "insert")
    then slice lines2 (Start2 e) (End2 e) else []) edits).

Lemma slice_drop {A} (l : list A) a b :
  0 ≤ a ≤ b → slice l a b ++ drop (Z.to_nat b) l = drop (Z.to_nat a) l.
Proof.
  intros Hab. unfold slice.
  replace (Z.to_nat b) with (Z.to_nat a + Z.to_nat (b - a))%nat by lia.
  rewrite <-drop_drop. apply take_drop.
Qed.

Lemma slice_empty {A} (l : list A) a : slice l a a = [].
Proof. unfold slice. by rewrite Z.sub_diag. Qed.

Section tiling.
Variables lines1 lines2 : list string.

Lemma edit_ok_Typ e :
  edit_ok lines1 lines2 e →
  Typ e = "equal" ∨ Typ e = "delete" ∨ Typ e = "insert".
Proof. intros [H|[H|H]]; tauto. Qed.

Lemma tiles_sides i j edits :
  tiles lines1 lines2 i j edits → 0 ≤ i → 0 ≤ j →
  side1 lines1 edits = drop (Z.to_nat i) lines1 ∧
  side2 lines2 edits = drop (Z.to_nat j) lines2.
Proof.
  unfold side1, side2.
  induction 1 as [|e es He Htiles IH]; intros Hi Hj.
  - simpl. unfold len. rewrite !Nat2Z.id, !drop_all. done.
  - pose proof (edit_ok_le _ _ _ He) as (? & ? & _).
    destruct IH as [IH1 IH2]; [lia..|]. simpl. rewrite IH1, IH2.
    destruct He as [(Ht & ? & ? & _)|[(Ht & ? & He2)|(Ht & He1 & ?)]];
      rewrite Ht; simpl.
    + split; by apply slice_drop.
    + split; [by apply slice_drop|]. by rewrite He2.
    + split; [by rewrite He1|]. by apply slice_drop.
Qed.

(** The operation at position [k] is well formed, starts at or after
    the start of the list and hands over to the rest of the list. *)
Lemma tiles_lookup i j edits k e :
  tiles lines1 lines2 i j edits → edits !! k = Some e →
  i ≤ Start1 e ∧ j ≤ Start2 e ∧ edit_ok lines1 lines2 e ∧
  tiles lines1 lines2 (Start1 e) (Start2 e) (drop k edits) ∧
  tiles lines1 lines2 (End1 e) (End2 e) (drop (S k) edits).
Proof.
  intros Htiles. revert k. induction Htiles as [|e0 es He0 Htiles IH]; intros k Hk.
  - done.
  - destruct k as [|k]; simpl in *.
    + injection Hk as <-. split_and!; try (done || lia).
      by constructor.
    + destruct (IH k Hk) as (? & ? & ? & ? & ?).
      pose proof (edit_ok_le _ _ _ He0). split_and!; (done || lia).
Qed.

Lemma tiles_head i j e es :
  tiles lines1 lines2 i j (e :: es) → Start1 e = i ∧ Start2 e = j.
Proof. by inversion 1. Qed.

Lemma tiles_consecutive i j edits k e e' :
  tiles lines1 lines2 i j edits →
  edits !! k = Some e → edits !! S k = Some e' →
  Start1 e' = End1 e ∧ Start2 e' = End2 e.
Proof.
  intros Htiles Hk Hk'.
  destruct (tiles_lookup _ _ _ _ _ Htiles Hk) as (_ & _ & _ & _ & Hrest).
  destruct (drop (S k) edits) as [|e0 es] eqn:Hdrop.
  - apply (f_equal length) in Hdrop. rewrite length_drop in Hdrop.
    apply lookup_lt_Some in Hk'. simpl in Hdrop. lia.
  - assert (e0 = e') as ->.
    { apply (f_equal (λ l, l !! 0%nat)) in Hdrop.
      rewrite lookup_drop, Nat.add_0_r, Hk' in Hdrop. by injection Hdrop. }
    by apply tiles_head in Hrest.
Qed.

Lemma tiles_later i j edits k k' e e' :
  tiles lines1 lines2 i j edits → (k < k')%nat →
  edits !! k = Some e → edits !! k' = Some e' →
  End1 e ≤ Start1 e' ∧ End2 e ≤ Start2 e'.
Proof.
  intros Htiles Hlt Hk Hk'.
  destruct (tiles_lookup _ _ _ _ _ Htiles Hk) as (_ & _ & _ & _ & Hrest).
  destruct (tiles_lookup _ _ _ (k' - S k) e' Hrest) as (? & ? & _); [|done].
  rewrite lookup_drop. by replace (S k + (k' - S k))%nat with k' by lia.
Qed.

Lemma tiles_last i j edits e :
  tiles lines1 lines2 i j edits → last edits = Some e →
  End1 e = len lines1 ∧ End2 e = len lines2.
Proof.
  induction 1 as [|e0 es He0 Htiles IH]; intros Hlast; [done|].
  destruct es as [|e1 es].
  - injection Hlast as <-. by inversion Htiles.
  - rewrite last_cons_cons in Hlast. by apply IH.
Qed.

Lemma tiles_bounds i j edits k e :
  tiles lines1 lines2 i j edits → edits !! k = Some e →
  i ≤ Start1 e ≤ End1 e ∧ End1 e ≤ len lines1 ∧
  j ≤ Start2 e ≤ End2 e ∧ End2 e ≤ len lines2.
Proof.
  intros Htiles Hk.
  destruct (tiles_lookup _ _ _ _ _ Htiles Hk) as (? & ? & He & _ & Hrest).
  apply tiles_le in Hrest. apply edit_ok_le in He. lia.
Qed.
End tiling.

(** ** The lines of one hunk *)

Lemma slice_length {A} (l : list A) a b :
  0 ≤ a → b ≤ len l → len (slice l a b) = Z.max 0 (b - a).
Proof.
  intros Ha Hb. unfold slice, len in *.
  rewrite length_take, length_drop. lia.
Qed.

Lemma emit_lines_spec prefix lines from to hunk :
  0 ≤ from → to ≤ len lines →
  emit_lines prefix lines from to hunk
  = Ok (hunk ++ ((λ s, prefix +:+ s) <$> slice lines from to)).
Proof.
  intros Hfrom Hto. unfold emit_lines, slice.
  destruct (decide (to - from ≤ 0)) as [Hle|Hgt].
  { rewrite seqZ_nil by done. replace (Z.to_nat (to - from)) with 0%nat by lia.
    simpl. by rewrite app_nil_r. }
  rewrite <-(Z2Nat.id (to - from)) at 1 by lia.
  assert (from + Z.of_nat (Z.to_nat (to - from)) ≤ len lines) as Hk by lia.
  revert Hfrom Hk. generalize (Z.to_nat (to - from)) as k. clear Hto Hgt.
  intros k. revert from hunk. induction k as [|k IH]; intros from hunk Hfrom Hk.
  - rewrite seqZ_nil by lia. simpl. by rewrite app_nil_r.
  - rewrite seqZ_cons by lia. simpl.
    destruct (index_in_range lines from) as (x & -> & Hx); [lia|]. simpl.
    replace (Z.pred (Z.of_nat (S k))) with (Z.of_nat k) by lia.
    rewrite IH by lia. f_equal.
    rewrite (drop_S _ _ _ Hx). simpl. rewrite <-app_assoc. simpl.
    by replace (Z.to_nat (Z.succ from)) with (S (Z.to_nat from)) by lia.
Qed.

(** Emitting only appends, also when it ends in a panic-free run over
    arbitrary bounds. *)
Lemma for_each_appends {A} (xs : list A) (body : A → list string → res (list string))
    hunk hunk' :
  (∀ x h h', body x h = Ok h' → ∃ added, h' = h ++ added) →
  for_each xs body hunk = Ok hunk' → ∃ added, hunk' = hunk ++ added.
Proof.
  intros Hbody. revert hunk. induction xs as [|x xs IH]; intros hunk Hrun; simpl in *.
  - injection Hrun as <-. exists []. by rewrite app_nil_r.
  - apply bind_Ok in Hrun as (h1 & Hx & Hrun).
    destruct (Hbody _ _ _ Hx) as (a1 & ->).
    destruct (IH _ Hrun) as (a2 & ->).
    exists (a1 ++ a2). by rewrite app_assoc.
Qed.

Lemma emit_lines_appends prefix lines from to hunk hunk' :
  emit_lines prefix lines from to hunk = Ok hunk' → ∃ added, hunk' = hunk ++ added.
Proof.
  apply for_each_appends. intros i h h' (s & _ & [= <-])%bind_Ok. by eexists.
Qed.

Lemma emit_edit_appends lines1 lines2 e hunk hunk' :
  emit_edit lines1 lines2 e hunk = Ok hunk' → ∃ added, hunk' = hunk ++ added.
Proof.
  unfold emit_edit. repeat case_decide; try apply emit_lines_appends.
  intros [= <-]. exists []. by rewrite app_nil_r.
Qed.

(** A hunk of a non-empty group starts with its header. *)
Lemma createSingleHunk_nonempty lines1 lines2 edits context hunk :
  edits ≠ [] → createSingleHunk lines1 lines2 edits context = Ok hunk →
  len hunk > 0.
Proof.
  intros Hne. unfold createSingleHunk. case_decide as Hlen.
  { destruct edits; [done|]. rewrite len_cons in Hlen.
    pose proof (len_nonneg edits). lia. }
  intros (first & _ & (last & _ & Hrun)%bind_Ok)%bind_Ok.
  apply bind_Ok in Hrun as (h1 & (a1 & ->)%emit_lines_appends & Hrun).
  apply bind_Ok in Hrun as (h2 & Hh2 & (a3 & ->)%emit_lines_appends).
  apply for_each_appends in Hh2 as (a2 & ->); [|apply emit_edit_appends].
  rewrite !len_app, len_cons.
  pose proof (len_nonneg a1). pose proof (len_nonneg a2).
  pose proof (len_nonneg a3). unfold len at 1. simpl. lia.
Qed.

(** The lines one operation contributes to a hunk. *)
Definition edit_lines (lines1 lines2 : list string) (e : Edit) : list string :=
  if decide (Typ e = "equal") then
    (λ s, " " +:+ s) <$> slice lines1 (Start1 e) (End1 e)
  else if decide (Typ e = "delete") then
    (λ s, "-" +:+ s) <$> slice lines1 (Start1 e) (End1 e)
  else if decide (Typ e = "insert") then
    (λ s, "+" +:+ s) <$> slice lines2 (Start2 e) (End2 e)
  else [].

(** The ranges of an operation lie inside the two sequences. *)
Definition in_range (lines1 lines2 : list string) (e : Edit) : Prop :=
  0 ≤ Start1 e ≤ End1 e ∧ End1 e ≤ len lines1 ∧
  0 ≤ Start2 e ≤ End2 e ∧ End2 e ≤ len lines2.

Lemma emit_edit_spec lines1 lines2 e hunk :
  in_range lines1 lines2 e →
  emit_edit lines1 lines2 e hunk = Ok (hunk ++ edit_lines lines1 lines2 e).
Proof.
  intros (? & ? & ? & ?). unfold emit_edit, edit_lines.
  repeat case_decide; try (apply emit_lines_spec; lia).
  by rewrite app_nil_r.
Qed.

Lemma emit_edits_spec lines1 lines2 edits hunk :
  Forall (in_range lines1 lines2) edits →
  for_each edits (emit_edit lines1 lines2) hunk
  = Ok (hunk ++ concat (edit_lines lines1 lines2 <$> edits)).
Proof.
  intros Hall. revert hunk. induction Hall as [|e es He _ IH]; intros hunk; simpl.
  - by rewrite app_nil_r.
  - rewrite emit_edit_spec by done. simpl. rewrite IH. by rewrite <-app_assoc.
Qed.

(** [createSingleHunk] on a non-empty group whose ranges lie inside the
    sequences: it cannot panic, whatever the context, and its lines are
    the header, the leading context, the lines of the operations and
    the trailing context. *)
Lemma createSingleHunk_spec lines1 lines2 first edits lst context :
  Forall (in_range lines1 lines2) (first :: edits) →
  last (first :: edits) = Some lst →
  let start1 := Start1 first in
  let end1 := End1 lst in
  let start2 := Start2 first in
  let end2 := End2 lst in
  let contextStart1 := max 0 (int_sub start1 context) in
  let contextEnd1 := min (len lines1) (int_add end1 context) in
  let contextStart2 := max 0 (int_sub start2 context) in
  let contextEnd2 := min (len lines2) (int_add end2 context) in
  createSingleHunk lines1 lines2 (first :: edits) context
  = Ok (hunk_header (int_add contextStart1 1) (int_sub contextEnd1 contextStart1)
                    (int_add contextStart2 1) (int_sub contextEnd2 contextStart2)
        :: ((λ s, " " +:+ s) <$> slice lines1 contextStart1 start1)
        ++ concat (edit_lines lines1 lines2 <$> first :: edits)
        ++ ((λ s, " " +:+ s) <$> slice lines1 end1 contextEnd1)).
Proof.
  intros Hall Hlast. cbv zeta. unfold createSingleHunk.
  rewrite decide_False; [|rewrite len_cons; pose proof (len_nonneg edits); lia].
  assert (index (first :: edits) 0 = Ok first) as ->.
  { by apply index_Ok. }
  assert (index (first :: edits) (len (first :: edits) - 1) = Ok lst) as ->.
  { apply index_Ok. split; [rewrite len_cons; pose proof (len_nonneg edits); lia|].
    unfold len. replace (Z.to_nat (Z.of_nat (length (first :: edits)) - 1))
      with (pred (length (first :: edits))) by (simpl; lia).
    by rewrite <-last_lookup. }
  rewrite !ret_bind. cbv zeta.
  assert (in_range lines1 lines2 first) as (? & ? & ? & ?).
  { by inversion Hall. }
  assert (in_range lines1 lines2 lst) as (? & ? & ? & ?).
  { rewrite Forall_forall in Hall. by apply Hall, last_Some_elem_of. }
  rewrite emit_lines_spec; [|rewrite max_is_Zmax; lia|lia].
  rewrite ret_bind, emit_edits_spec by done.
  rewrite ret_bind, emit_lines_spec; [|lia|rewrite min_is_Zmin; lia].
  f_equal. by rewrite <-!app_assoc.
Qed.

Global Arguments for_each : simpl never.
Global Arguments createSingleHunk : simpl never.

(** ** The grouping of operations into hunks *)

Definition is_equal (e : Edit) : bool := bool_decide (Typ e = "equal").

(** The test under which the grouping loop takes an operation into the
    hunk it is building: a change, or an Equal run shorter than
    [context*2] (both computed as Go does). *)
Definition absorbed (context : Z) (e : Edit) : bool :=
  bool_decide (Typ e ≠ "equal")
  || bool_decide (int_sub (End1 e) (Start1 e) < int_mul context 2).

Definition scan_cond (P : Edit → bool) (edits : list Edit) (i : Z) : res bool :=
  if decide (i < len edits) then e ← index edits i; Ok (P e) else Ok false.

Lemma skip_cond_scan edits i : skip_cond edits i = scan_cond is_equal edits i.
Proof. done. Qed.

Lemma absorb_cond_scan edits context i :
  absorb_cond edits context i = scan_cond (absorbed context) edits i.
Proof.
  unfold absorb_cond, scan_cond, absorbed. case_decide; [|done].
  destruct (index edits i) as [e| |]; simpl; [|done..].
  case_decide as Ht.
  - by rewrite (bool_decide_eq_true_2 _ Ht).
  - rewrite (bool_decide_eq_false_2 (Typ e ≠ "equal")); [done|]. by intros ?.
Qed.

(** [stops P rest]: a scan under [P] ends in front of [rest]. *)
Definition stops (P : Edit → bool) (rest : list Edit) : Prop :=
  ∀ e, head rest = Some e → P e = false.

Lemma index_middle {A} (pre rest : list A) x :
  index (pre ++ x :: rest) (len pre) = Ok x.
Proof.
  apply index_Ok. split; [apply len_nonneg|].
  unfold len. rewrite Nat2Z.id. apply list_lookup_middle. done.
Qed.

Lemma scan_run P edits pre run rest fuel :
  edits = pre ++ run ++ rest →
  Forall (λ e, P e = true) run → stops P rest → (length run < fuel)%nat →
  while fuel (scan_cond P edits) (λ i, Ok (i + 1)) (len pre)
  = Ok (len pre + len run).
Proof.
  intros -> Hrun Hstop. revert pre fuel.
  induction Hrun as [|e run He _ IH]; intros pre fuel Hfuel;
    (destruct fuel as [|fuel]; [simpl in Hfuel; lia|]).
  - rewrite while_false; [unfold len at 3; simpl; f_equal; lia|].
    unfold scan_cond. simpl. destruct rest as [|e rest].
    + rewrite app_nil_r. rewrite decide_False; [done|lia].
    + rewrite index_middle. simpl. rewrite Hstop; [|done]. by case_decide.
  - rewrite (while_true _ _ _ _ (len pre + 1)); [| |done].
    + replace (len pre + 1) with (len (pre ++ [e])) by (rewrite len_app; done).
      replace (pre ++ (e :: run) ++ rest) with ((pre ++ [e]) ++ run ++ rest)
        by (by rewrite <-app_assoc).
      rewrite IH by (simpl in Hfuel; lia).
      f_equal. unfold len. rewrite length_app. simpl. lia.
    + unfold scan_cond. simpl. rewrite index_middle. simpl. rewrite He.
      rewrite decide_True; [done|].
      rewrite len_app, len_cons. pose proof (len_nonneg (run ++ rest)). lia.
Qed.

Lemma slice_middle {A} (pre run rest : list A) :
  slice (pre ++ run ++ rest) (len pre) (len pre + len run) = run.
Proof.
  unfold slice, len. rewrite Nat2Z.id.
  replace (Z.to_nat (Z.of_nat (length pre) + Z.of_nat (length run)
                     - Z.of_nat (length pre))) with (length run) by lia.
  rewrite drop_app_length. by rewrite take_app_length.
Qed.

Lemma hunks_loop_unfold fuel lines1 lines2 edits context i hunks :
  hunks_loop (S fuel) lines1 lines2 edits context i hunks =
  if decide (i < len edits) then
    i ← while (S (length edits)) (skip_cond edits) (λ i, Ok (i + 1)) i;
    if decide (i >= len edits) then Ok hunks
    else
      let hunkStart := i in
      i ← while (S (length edits)) (absorb_cond edits context)
            (λ i, Ok (i + 1)) i;
      hunk ← createSingleHunk lines1 lines2 (slice edits hunkStart i) context;
      hunks_loop fuel lines1 lines2 edits context i
        (if decide (len hunk > 0) then hunks ++ [hunk] else hunks)
  else Ok hunks.
Proof. done. Qed.

Global Arguments hunks_loop : simpl never.

Lemma while_ext {St} (cond cond' : St → res bool) body fuel s :
  (∀ s, cond s = cond' s) → while fuel cond body s = while fuel cond' body s.
Proof.
  intros Hext. revert s. induction fuel as [|fuel IH]; intros s; [done|].
  unfold while; fold (@while St). rewrite Hext.
  destruct (cond' s) as [[]| |]; simpl; try done.
  destruct (body s); simpl; [apply IH|done..].
Qed.

Section grouping.
Variables lines1 lines2 : list string.
Variable context : Z.

(** Only Equal operations remain: the loop leaves without a hunk. *)
Lemma hunks_loop_done fuel edits pre eqs hunks :
  edits = pre ++ eqs → Forall (λ e, is_equal e = true) eqs →
  hunks_loop (S fuel) lines1 lines2 edits context (len pre) hunks = Ok hunks.
Proof.
  intros Hedits Heqs. rewrite hunks_loop_unfold. case_decide; [|done].
  rewrite (while_ext _ _ _ _ _ (skip_cond_scan edits)).
  rewrite (scan_run is_equal edits pre eqs []); try done.
  - rewrite ret_bind. rewrite decide_True; [done|].
    rewrite Hedits, len_app. lia.
  - by rewrite app_nil_r.
  - rewrite Hedits, length_app. lia.
Qed.

(** A change is found after the Equal operations [eqs]: the hunk takes
    the operations up to [rest], which is empty or starts with an
    operation the absorbing test refuses. *)
Lemma hunks_loop_group fuel edits pre eqs g gs rest hunks :
  edits = pre ++ eqs ++ (g :: gs) ++ rest →
  Forall (λ e, is_equal e = true) eqs → is_equal g = false →
  Forall (λ e, absorbed context e = true) gs → stops (absorbed context) rest →
  hunks_loop (S fuel) lines1 lines2 edits context (len pre) hunks =
  hunk ← createSingleHunk lines1 lines2 (g :: gs) context;
  hunks_loop fuel lines1 lines2 edits context
    (len (pre ++ eqs ++ g :: gs)) (hunks ++ [hunk]).
Proof.
  intros Hedits Heqs Hg Hgs Hrest. rewrite hunks_loop_unfold.
  assert (len edits = len pre + len eqs + (1 + len gs) + len rest) as Hlen.
  { rewrite Hedits, !len_app, len_cons. lia. }
  pose proof (len_nonneg pre). pose proof (len_nonneg eqs).
  pose proof (len_nonneg gs). pose proof (len_nonneg rest).
  rewrite decide_True by lia.
  rewrite (while_ext _ _ _ _ _ (skip_cond_scan edits)).
  rewrite (scan_run is_equal edits pre eqs ((g :: gs) ++ rest)); try done.
  2:{ intros e [= <-]. done. }
  2:{ rewrite Hedits, !length_app. lia. }
  rewrite ret_bind, decide_False by lia. cbv zeta.
  rewrite (while_ext _ _ _ _ _ (absorb_cond_scan edits context)).
  replace (len pre + len eqs) with (len (pre ++ eqs)) by apply len_app.
  rewrite (scan_run (absorbed context) edits (pre ++ eqs) (g :: gs) rest); try done.
  2:{ by rewrite <-app_assoc. }
  2:{ constructor; [|done]. unfold absorbed, is_equal in *.
      apply bool_decide_eq_false in Hg. by rewrite bool_decide_true. }
  2:{ rewrite Hedits, !length_app. simpl. lia. }
  rewrite ret_bind.
  replace edits with ((pre ++ eqs) ++ (g :: gs) ++ rest) at 1
    by (by rewrite Hedits, <-app_assoc).
  rewrite slice_middle.
  destruct (createSingleHunk lines1 lines2 (g :: gs) context) as [hunk| |] eqn:Hhunk;
    [|done..].
  rewrite !ret_bind. apply createSingleHunk_nonempty in Hhunk; [|done].
  rewrite decide_True by done. do 2 f_equal.
  rewrite !len_app. lia.
Qed.

(** The groups the loop forms: Equal operations are passed over, a
    group opens at a change and closes in front of the first operation
    that is not absorbed. *)
Inductive groups : list Edit → list (list Edit) → Prop :=
| groups_nil eqs :
    Forall (λ e, is_equal e = true) eqs → groups eqs []
| groups_cons eqs g gs rest gss :
    Forall (λ e, is_equal e = true) eqs → is_equal g = false →
    Forall (λ e, absorbed context e = true) gs →
    stops (absorbed context) rest →
    groups rest gss →
    groups (eqs ++ (g :: gs) ++ rest) ((g :: gs) :: gss).

(** The hunks of a list of groups, in order. *)
Fixpoint hunks_of_groups (gss : list (list Edit)) : res (list (list string)) :=
  match gss with
  | [] => Ok []
  | group :: gss' =>
      hunk ← createSingleHunk lines1 lines2 group context;
      hunks ← hunks_of_groups gss';
      Ok (hunk :: hunks)
  end.

Lemma groups_length edits gss : groups edits gss → (length gss ≤ length edits)%nat.
Proof.
  induction 1 as [|eqs g gs rest gss _ _ _ _ _ IH]; simpl; [lia|].
  rewrite length_app. simpl. rewrite length_app. lia.
Qed.

Lemma hunks_loop_groups edits suffix gss :
  groups suffix gss → ∀ pre hunks fuel,
  edits = pre ++ suffix → (length gss < fuel)%nat →
  hunks_loop fuel lines1 lines2 edits context (len pre) hunks =
  hs ← hunks_of_groups gss; Ok (hunks ++ hs).
Proof.
  induction 1 as [eqs Heqs|eqs g gs rest gss Heqs Hg Hgs Hrest _ IH];
    intros pre hunks fuel Hedits Hfuel;
    (destruct fuel as [|fuel]; [simpl in Hfuel; lia|]).
  - rewrite (hunks_loop_done _ _ pre eqs) by done. simpl. by rewrite app_nil_r.
  - rewrite (hunks_loop_group _ _ pre eqs g gs rest) by done. simpl.
    destruct (createSingleHunk lines1 lines2 (g :: gs) context) as [hunk| |];
      [|done..].
    rewrite !ret_bind. rewrite (IH (pre ++ eqs ++ g :: gs)).
    + destruct (hunks_of_groups gss) as [hs| |]; [|done..].
      rewrite !ret_bind. by rewrite <-app_assoc.
    + rewrite Hedits. by rewrite <-!app_assoc.
    + simpl in Hfuel. lia.
Qed.

Lemma createHunksFromEdits_groups edits gss :
  groups edits gss →
  createHunksFromEdits lines1 lines2 edits context = hunks_of_groups gss.
Proof.
  intros Hgroups. unfold createHunksFromEdits.
  rewrite (hunks_loop_groups edits edits gss Hgroups [] []).
  - destruct (hunks_of_groups gss); done.
  - done.
  - apply groups_length in Hgroups. lia.
Qed.

Lemma span (P : Edit → bool) (l : list Edit) :
  ∃ run rest, l = run ++ rest ∧ Forall (λ e, P e = true) run ∧ stops P rest.
Proof.
  induction l as [|e l (run & rest & -> & Hrun & Hrest)].
  - exists [], []. split_and!; [done..|]. by intros e.
  - destruct (P e) eqn:He.
    + exists (e :: run), rest. split_and!; [done|by constructor|done].
    + exists [], (e :: run ++ rest). split_and!; [done..|]. by intros e' [= <-].
Qed.

(** Every list of operations is cut into groups. *)
Lemma groups_total edits : ∃ gss, groups edits gss.
Proof.
  remember (length edits) as n eqn:Hn.
  revert edits Hn. induction (lt_wf n) as [n _ IH]; intros edits ->.
  destruct (span is_equal edits) as (eqs & r & -> & Heqs & Hr).
  destruct r as [|g r].
  { exists []. rewrite app_nil_r. by constructor. }
  destruct (span (absorbed context) r) as (gs & rest & -> & Hgs & Hrest).
  destruct (IH (length rest)) with (edits := rest) as (gss & Hgss); [|done|].
  { rewrite !length_app. simpl. rewrite length_app. lia. }
  exists ((g :: gs) :: gss).
  apply (groups_cons eqs g gs rest gss); try done. by apply Hr.
Qed.
End grouping.

(** * The claims about the sequence differ *)

(** C1. For every two line sequences [computeDiff] returns (it neither
    panics nor loops), and its result rebuilds both inputs: the
    sequence-1 ranges of the Equal and Delete operations, concatenated
    in list order, are [lines1], and the sequence-2 ranges of the Equal
    and Insert operations are [lines2]. *)
Theorem C1_computeDiff_total_and_reconstructs (lines1 lines2 : list string) :
  ∃ edits, computeDiff lines1 lines2 = Ok edits ∧
    side1 lines1 edits = lines1 ∧ side2 lines2 edits = lines2.
Proof.
  destruct (computeDiff_spec lines1 lines2) as (edits & Hrun & Htiles).
  exists edits. split; [done|].
  destruct (tiles_sides _ _ _ _ _ Htiles) as [-> ->]; done.
Qed.

(** The order the claim C5 asks for, read as it is written: along the
    list the start indices grow strictly on each side. *)
Definition starts_strictly_increasing (edits : list Edit) : Prop :=
  ∀ k e e', edits !! k = Some e → edits !! S k = Some e' →
    Start1 e < Start1 e' ∧ Start2 e < Start2 e'.

(** C5, as stated, fails: for ["b"] against ["x"] the result is an
    Insert at (0,0) followed by a Delete at (0,1), so the sequence-1
    start index does not grow. *)
Lemma C5_starts_not_strictly_increasing :
  ∃ edits, computeDiff ["b"] ["x"] = Ok edits ∧
    ¬ starts_strictly_increasing edits.
Proof.
  eexists. split; [vm_compute; reflexivity|].
  intros H. specialize (H 0%nat _ _ eq_refl eq_refl). simpl in H. lia.
Qed.

(** C5, amended. The edit list of [computeDiff] is well formed: every
    range lies inside its sequence; an Equal operation covers as many
    lines on both sides and the lines agree offset by offset; a Delete
    has an empty sequence-2 range and an Insert an empty sequence-1
    range; the first operation starts at line 0 of both sequences, every
    operation starts, on both sides, where its predecessor ends, and the
    last ends at the ends of both sequences, so the ranges of a side do
    not overlap; and along the list the start indices never decrease,
    growing strictly on sequence 1 after an Equal or Delete and on
    sequence 2 after an Equal or Insert. *)
Theorem C5_edits_well_formed (lines1 lines2 : list string) :
  ∃ edits, computeDiff lines1 lines2 = Ok edits ∧
    (∀ e, e ∈ edits →
       0 ≤ Start1 e ≤ End1 e ∧ End1 e ≤ len lines1 ∧
       0 ≤ Start2 e ≤ End2 e ∧ End2 e ≤ len lines2 ∧
       (Typ e = "equal" ∨ Typ e = "delete" ∨ Typ e = "insert") ∧
       (Typ e = "equal" →
          End1 e - Start1 e = End2 e - Start2 e ∧
          ∀ k, 0 ≤ k < End1 e - Start1 e →
            ∃ s, index lines1 (Start1 e + k) = Ok s ∧
                 index lines2 (Start2 e + k) = Ok s) ∧
       (Typ e = "delete" → End2 e = Start2 e) ∧
       (Typ e = "insert" → End1 e = Start1 e)) ∧
    (∀ e, head edits = Some e → Start1 e = 0 ∧ Start2 e = 0) ∧
    (∀ k e e', edits !! k = Some e → edits !! S k = Some e' →
       Start1 e' = End1 e ∧ Start2 e' = End2 e) ∧
    (∀ e, last edits = Some e → End1 e = len lines1 ∧ End2 e = len lines2) ∧
    (∀ k k' e e', (k < k')%nat → edits !! k = Some e → edits !! k' = Some e' →
       End1 e ≤ Start1 e' ∧ End2 e ≤ Start2 e' ∧
       Start1 e ≤ Start1 e' ∧ Start2 e ≤ Start2 e' ∧
       (Typ e ≠ "insert" → Start1 e < Start1 e') ∧
       (Typ e ≠ "delete" → Start2 e < Start2 e')).
Proof.
  destruct (computeDiff_spec lines1 lines2) as (edits & Hrun & Htiles).
  exists edits. split; [done|]. split_and!.
  - intros e [k Hk]%list_elem_of_lookup.
    pose proof (tiles_bounds lines1 lines2 0 0 edits k e Htiles Hk) as (? & ? & ? & ?).
    destruct (tiles_lookup lines1 lines2 0 0 edits k e Htiles Hk) as (_ & _ & He & _).
    split_and!; try lia.
    + by eapply edit_ok_Typ.
    + intros Ht.
      destruct He as [(_ & ? & Hlen & Hsame)|[(Ht' & _)|(Ht' & _)]]; [|congruence..].
      split; [done|]. intros d Hd.
      destruct (index_in_range lines1 (Start1 e + d)) as (s & Hs & Hs'); [lia|].
      exists s. split; [done|]. apply index_Ok. split; [lia|].
      by rewrite <-Hsame.
    + intros Ht. destruct He as [(Ht' & _)|[(_ & _ & ?)|(Ht' & _)]]; congruence.
    + intros Ht. destruct He as [(Ht' & _)|[(Ht' & _)|(_ & ? & _)]]; congruence.
  - intros e Hhd. destruct edits as [|e0 es]; [done|]. injection Hhd as ->.
    by apply tiles_head in Htiles.
  - intros k e e'. apply (tiles_consecutive lines1 lines2 0 0 edits k e e' Htiles).
  - intros e. apply (tiles_last lines1 lines2 0 0 edits e Htiles).
  - intros k k' e e' Hlt Hk Hk'.
    destruct (tiles_later lines1 lines2 0 0 edits k k' e e' Htiles Hlt Hk Hk') as [? ?].
    destruct (tiles_lookup lines1 lines2 0 0 edits k e Htiles Hk) as (_ & _ & He & _).
    destruct He as [(Ht & ?)|[(Ht & ?)|(Ht & ?)]]; rewrite Ht;
      split_and!; (done || lia).
Qed.

(** C7. The tie-break of the backtracking: at a position [(i, j)] with
    [i > 0] where no diagonal match is available (the lines [i-1] and
    [j-1] differ, or [j] is 0) and, for [j > 0], [dp[i-1][j]] equals
    [dp[i][j-1]], the iteration of the outer loop prepends a Delete that
    ends at line [i] and leaves [j] alone; the loop of the Insert branch
    does not take a step from such a position. *)
Theorem C7_tie_prefers_delete (lines1 lines2 : list string) dp i j edits :
  fill_table lines1 lines2 = Ok dp →
  0 < i ≤ len lines1 → 0 ≤ j ≤ len lines2 →
  j = 0 ∨ (lines1 !! Z.to_nat (i - 1) ≠ lines2 !! Z.to_nat (j - 1) ∧
           get2 dp (i - 1) j = get2 dp i (j - 1)) →
  (∃ i', 0 ≤ i' < i ∧
     backtrack_step lines1 lines2 dp (i, j, edits)
     = Ok (i', j, mkEdit "delete" i' i j j :: edits)) ∧
  insert_cond dp i j = Ok false.
Proof.
  intros Hfill Hi Hj Htie.
  assert (∀ i j, 0 ≤ i ≤ len lines1 → 0 ≤ j ≤ len lines2 →
            ∃ v, get2 dp i j = Ok v) as Hdp.
  { destruct (fill_table_spec lines1 lines2) as (dp' & Hfill' & Hspec).
    assert (dp' = dp) as -> by congruence.
    intros i0 j0 Hi0 Hj0. destruct (Hspec i0 j0 Hi0 Hj0) as (v & Hv & _).
    by exists v. }
  assert (equal_cond lines1 lines2 i j = Ok false) as Heq.
  { destruct (equal_cond_spec lines1 lines2 i j) as ([] & -> & Hc); [lia..| |done].
    destruct Hc as [Hc _]. destruct Hc as (_ & ? & ?); [done|].
    destruct Htie as [->|[? _]]; [lia|done]. }
  assert (delete_cond dp i j = Ok true) as Hdel.
  { destruct (delete_cond_spec lines1 lines2 dp Hdp i j) as (c & -> & Hc); [lia..|].
    f_equal. apply Hc. split; [lia|].
    destruct Htie as [->|[_ Htie]]; [by left|]. right.
    destruct (Hdp (i - 1) j) as (u & Hu); [lia..|].
    exists u, u. split_and!; [done|congruence|lia]. }
  split.
  - destruct (delete_run_spec lines1 lines2 dp Hdp i j)
      as (i' & Hrun & Hi' & _); [lia..|done|].
    exists i'. split; [done|]. unfold backtrack_step.
    rewrite Heq, ret_bind, Hdel, ret_bind, Hrun, ret_bind.
    by replace (i - 1 + 1) with i by lia.
  - destruct (insert_cond_spec lines1 lines2 dp Hdp i j) as ([] & -> & Hc);
      [lia..| |done].
    destruct Hc as [Hc _].
    destruct Hc as (? & [?|(u' & l' & Hu' & Hl' & ?)]); [done|lia|].
    destruct Htie as [->|[_ Htie]]; [lia|].
    rewrite Htie, Hl' in Hu'. injection Hu' as ->. lia.
Qed.

Lemma C7_tie_prefers_delete_witness :
  (∃ i', 0 ≤ i' < 1 ∧
     backtrack_step ["b"] ["x"] [[0; 0]; [0; 0]] (1, 1, [])
     = Ok (i', 1, [mkEdit "delete" i' 1 1 1])) ∧
  insert_cond [[0; 0]; [0; 0]] 1 1 = Ok false.
Proof.
  apply (C7_tie_prefers_delete ["b"] ["x"] [[0; 0]; [0; 0]] 1 1 []).
  - vm_compute. reflexivity.
  - unfold len. simpl. lia.
  - unfold len. simpl. lia.
  - right. split; [simpl; discriminate|vm_compute; reflexivity].
Defined.

(** A non-empty sequence against itself: the backtracking makes one
    iteration, a run of matches from the last line down to the first. *)
Lemma computeDiff_identical (lines : list string) :
  lines ≠ [] →
  computeDiff lines lines = Ok [mkEdit "equal" 0 (len lines) 0 (len lines)].
Proof.
  intros Hne.
  assert (0 < len lines) as Hpos.
  { destruct lines; [done|]. rewrite len_cons. pose proof (len_nonneg lines). lia. }
  unfold computeDiff.
  destruct (fill_table_spec lines lines) as (dp & -> & Hdp).
  rewrite ret_bind.
  rewrite (while_true backtrack_cond (backtrack_step lines lines dp) _ _
             (0, 0, [mkEdit "equal" 0 (len lines) 0 (len lines)])).
  - destruct (Z.to_nat (len lines + len lines)) as [|fuel] eqn:Hfuel; [lia|].
    by rewrite while_false.
  - unfold backtrack_cond. f_equal. apply bool_decide_eq_true. lia.
  - unfold backtrack_step.
    destruct (equal_cond_spec lines lines (len lines) (len lines))
      as (c & Hc & Hiff); [lia..|].
    assert (c = true) as -> by (apply Hiff; split_and!; (done || lia)).
    rewrite Hc, ret_bind.
    destruct (equal_run_spec lines lines (len lines) (len lines))
      as (i' & j' & -> & Hi' & Hj' & Hd & Hend & _); [lia..|done|].
    rewrite ret_bind.
    assert (j' = i') as -> by lia.
    assert (i' = 0) as ->.
    { destruct (equal_cond_spec lines lines i' i') as (c' & Hc' & Hiff'); [lia..|].
      rewrite Hend in Hc'. injection Hc' as <-.
      destruct (decide (i' = 0)); [done|].
      assert (false = true); [|done]. apply Hiff'. split_and!; (done || lia). }
    by replace (len lines - 1 + 1) with (len lines) by lia.
Qed.

(** A list of Equal operations gives no hunk. *)
Lemma createHunksFromEdits_all_equal lines1 lines2 edits context :
  Forall (λ e, Typ e = "equal") edits →
  createHunksFromEdits lines1 lines2 edits context = Ok [].
Proof.
  intros Hall.
  rewrite (createHunksFromEdits_groups lines1 lines2 context _ []); [done|].
  apply groups_nil. eapply Forall_impl; [exact Hall|].
  intros e. apply bool_decide_eq_true.
Qed.

(** C8. Identical inputs: for a non-empty sequence [computeDiff] of the
    sequence with itself is the single Equal operation over all of it,
    and on it the hunk assembler returns no hunk, for every context. *)
Theorem C8_identical_inputs (lines : list string) (context : Z) :
  lines ≠ [] →
  computeDiff lines lines = Ok [mkEdit "equal" 0 (len lines) 0 (len lines)] ∧
  createHunksFromEdits lines lines
    [mkEdit "equal" 0 (len lines) 0 (len lines)] context = Ok [] ∧
  generateHunks lines lines context = Ok [].
Proof.
  intros Hne.
  pose proof (computeDiff_identical lines Hne) as Hdiff.
  assert (createHunksFromEdits lines lines
            [mkEdit "equal" 0 (len lines) 0 (len lines)] context = Ok []) as Hhunks.
  { apply createHunksFromEdits_all_equal. by constructor. }
  split_and!; [done..|].
  unfold generateHunks. by rewrite Hdiff, ret_bind.
Qed.

Lemma C8_identical_inputs_witness :
  computeDiff ["a"; "b"] ["a"; "b"] = Ok [mkEdit "equal" 0 2 0 2] ∧
  createHunksFromEdits ["a"; "b"] ["a"; "b"] [mkEdit "equal" 0 2 0 2] 3 = Ok [] ∧
  generateHunks ["a"; "b"] ["a"; "b"] 3 = Ok [].
Proof. apply (C8_identical_inputs ["a"; "b"] 3). discriminate. Defined.

(** ** Minimality *)

(** The number of lines the Delete operations cover, and the number the
    Insert operations cover. *)
Definition deleted_lines (edits : list Edit) : Z :=
  foldr (λ e acc, if decide (Typ e = "delete") then End1 e - Start1 e + acc else acc)
    0 edits.

Definition inserted_lines (edits : list Edit) : Z :=
  foldr (λ e acc, if decide (Typ e = "insert") then End2 e - Start2 e + acc else acc)
    0 edits.

(** C2. The first half holds for all inputs: the table that
    [computeDiff] fills is the LCS table.  The second half fails at
    ["a"; "x"] against ["a"]: the LCS length is 1, so a minimal script
    deletes one line and inserts none, but the script returned deletes
    both lines of sequence 1 and inserts the line of sequence 2, because
    the loop of the Delete branch moves past the match of the first
    lines. *)
Theorem C2_table_is_lcs_but_script_not_minimal :
  (∀ lines1 lines2, ∃ dp,
     fill_table lines1 lines2 = Ok dp ∧
     ∀ i j, 0 ≤ i ≤ len lines1 → 0 ≤ j ≤ len lines2 →
       ∃ v, get2 dp i j = Ok v ∧
         lcs_length (take (Z.to_nat i) lines1) (take (Z.to_nat j) lines2) v) ∧
  lcs_length ["a"; "x"] ["a"] 1 ∧
  computeDiff ["a"; "x"] ["a"]
    = Ok [mkEdit "insert" 0 0 0 1; mkEdit "delete" 0 2 1 1] ∧
  deleted_lines [mkEdit "insert" 0 0 0 1; mkEdit "delete" 0 2 1 1] = 2 ∧
  inserted_lines [mkEdit "insert" 0 0 0 1; mkEdit "delete" 0 2 1 1] = 1.
Proof.
  split_and!.
  - intros lines1 lines2. apply fill_table_spec.
  - split.
    + exists ["a"]. split_and!; [|done..]. apply (sublist_inserts_r ["x"] ["a"] ["a"]). done.
    + intros s _ Hs%sublist_length. unfold len. simpl in Hs. lia.
  - vm_compute. reflexivity.
  - done.
  - done.
Qed.

(** * The hunk assembler never panics on the output of the differ *)

Lemma tiles_in_range lines1 lines2 i j edits :
  0 ≤ i → 0 ≤ j → tiles lines1 lines2 i j edits →
  Forall (in_range lines1 lines2) edits.
Proof.
  intros Hi Hj Htiles. apply Forall_lookup. intros k e Hk.
  pose proof (tiles_bounds lines1 lines2 i j edits k e Htiles Hk). unfold in_range. lia.
Qed.

Lemma groups_in_range lines1 lines2 context edits gss :
  groups context edits gss → Forall (in_range lines1 lines2) edits →
  Forall (Forall (in_range lines1 lines2)) gss.
Proof.
  induction 1 as [|eqs g gs rest gss _ _ _ _ _ IH]; intros Hall; [constructor|].
  apply Forall_app in Hall as [_ Hall]. apply Forall_app in Hall as [Hgroup Hrest].
  constructor; [done|by apply IH].
Qed.

Lemma groups_nonempty context edits gss :
  groups context edits gss → Forall (λ group, group ≠ []) gss.
Proof. induction 1; constructor; done. Qed.

Lemma createSingleHunk_total lines1 lines2 group context :
  group ≠ [] → Forall (in_range lines1 lines2) group →
  ∃ hunk, createSingleHunk lines1 lines2 group context = Ok hunk.
Proof.
  intros Hne Hall. destruct group as [|first edits]; [done|].
  destruct (last (first :: edits)) as [lst|] eqn:Hlast.
  - eexists. by apply createSingleHunk_spec.
  - by apply last_None in Hlast.
Qed.

Lemma hunks_of_groups_total lines1 lines2 context gss :
  Forall (λ group, group ≠ []) gss →
  Forall (Forall (in_range lines1 lines2)) gss →
  ∃ hunks, hunks_of_groups lines1 lines2 context gss = Ok hunks.
Proof.
  induction gss as [|group gss IH]; intros Hne Hall; simpl; [by eexists|].
  inversion Hne; inversion Hall; subst.
  destruct (createSingleHunk_total lines1 lines2 group context) as (hunk & ->);
    [done..|].
  destruct IH as (hunks & ->); [done..|]. by eexists.
Qed.

(** [generateHunks] returns for every pair of sequences and every
    context, also a negative one or one that overflows. *)
Lemma generateHunks_total lines1 lines2 context :
  ∃ edits gss hunks,
    computeDiff lines1 lines2 = Ok edits ∧ tiles lines1 lines2 0 0 edits ∧
    groups context edits gss ∧
    hunks_of_groups lines1 lines2 context gss = Ok hunks ∧
    generateHunks lines1 lines2 context = Ok hunks.
Proof.
  destruct (computeDiff_spec lines1 lines2) as (edits & Hdiff & Htiles).
  destruct (groups_total context edits) as (gss & Hgroups).
  destruct (hunks_of_groups_total lines1 lines2 context gss) as (hunks & Hhunks).
  - by eapply groups_nonempty.
  - eapply groups_in_range; [done|]. by apply tiles_in_range with 0 0.
  - exists edits, gss, hunks. split_and!; try done.
    unfold generateHunks. rewrite Hdiff, ret_bind.
    by rewrite (createHunksFromEdits_groups _ _ _ _ gss).
Qed.

(** * The scenarios *)

(** C3, as stated, fails: the hunk for ["a";"b";"c"] against
    ["a";"x";"c"] with context 1 does not list the deletion before the
    insertion. *)
Lemma C3_deletion_is_not_first :
  generateHunks ["a"; "b"; "c"] ["a"; "x"; "c"] 1
  ≠ Ok [["@@ -1,3 +1,3 @@"; " a"; "-b"; "+x"; " c"]].
Proof. vm_compute. discriminate. Qed.

(** C3, amended. For ["a";"b";"c"] against ["a";"x";"c"] and context 1
    there is exactly one hunk; its header is "@@ -1,3 +1,3 @@" and its
    body is " a", "+x", "-b", " c": the insertion comes before the
    deletion. *)
Theorem C3_scenario_one_change :
  generateHunks ["a"; "b"; "c"] ["a"; "x"; "c"] 1
  = Ok [["@@ -1,3 +1,3 @@"; " a"; "+x"; "-b"; " c"]].
Proof. vm_compute. reflexivity. Qed.

(** C6, as stated, fails: against an empty first sequence the header
    does not start the sequence-1 range at 0. *)
Lemma C6_header_is_not_0_0 :
  ¬ ∃ body, generateHunks [] ["a"; "b"] 3 = Ok [("@@ -0,0 +1,2 @@" :: body)].
Proof. intros [body H]. vm_compute in H. discriminate. Qed.

(** C6, amended. For the empty sequence against ["a";"b"] and every
    context from 0 up to the largest that does not overflow [2+context]
    there is exactly one hunk, its body is "+a", "+b" and its header is
    "@@ -1,0 +1,2 @@". *)
Theorem C6_scenario_empty_first (context : Z) :
  0 ≤ context ≤ int_max - 2 →
  generateHunks [] ["a"; "b"] context = Ok [["@@ -1,0 +1,2 @@"; "+a"; "+b"]].
Proof.
  intros Hctx. unfold int_max in Hctx. unfold generateHunks.
  replace (computeDiff [] ["a"; "b"]) with (Ok [mkEdit "insert" 0 0 0 2])
    by (vm_compute; reflexivity).
  rewrite ret_bind.
  rewrite (createHunksFromEdits_groups _ _ _ _ [[mkEdit "insert" 0 0 0 2]]).
  2:{ apply (groups_cons context [] (mkEdit "insert" 0 0 0 2) [] [] []); try done.
      by constructor. }
  unfold hunks_of_groups.
  rewrite (createSingleHunk_spec _ _ _ _ (mkEdit "insert" 0 0 0 2)); [| |done].
  2:{ repeat constructor; unfold len; simpl; lia. }
  rewrite !ret_bind. cbn [Start1 End1 Start2 End2].
  unfold int_sub, int_add.
  rewrite !(wrap_id (0 - context)), !(wrap_id (0 + context)),
    !(wrap_id (2 + context)) by (unfold int_min, int_max; lia).
  rewrite !max_is_Zmax, !min_is_Zmin.
  replace (Z.max 0 (0 - context)) with 0 by lia.
  replace (Z.min (len []) (0 + context)) with 0 by (unfold len; simpl; lia).
  replace (Z.min (len ["a"; "b"]) (2 + context)) with 2 by (unfold len; simpl; lia).
  vm_compute. reflexivity.
Qed.

Lemma C6_scenario_empty_first_witness :
  generateHunks [] ["a"; "b"] 3 = Ok [["@@ -1,0 +1,2 @@"; "+a"; "+b"]].
Proof. apply (C6_scenario_empty_first 3). unfold int_max. lia. Defined.

(** The bound in C6 is needed: with the largest context, [2+context]
    overflows and the sequence-2 length in the header is negative. *)
Lemma scenario_empty_first_overflow :
  generateHunks [] ["a"; "b"] int_max
  = Ok [["@@ -1,0 +1,-9223372036854775807 @@"; "+a"; "+b"]].
Proof. vm_compute. reflexivity. Qed.

(** The example of the README ("Output Format"): insertions are listed
    before the deletions they replace. *)
Lemma readme_output_format :
  generateHunks
    ["line 1"; "line 2"; "line 3"; "line 4"; "line 5"]
    ["line 1"; "modified line 2"; "line 3"; "new line 4"; "line 5"] 3
  = Ok [["@@ -1,5 +1,5 @@"; " line 1"; "+modified line 2"; "-line 2";
         " line 3"; "+new line 4"; "-line 4"; " line 5"]].
Proof. vm_compute. reflexivity. Qed.

(** * The grouping rule *)

(** Within the range of [int] the wrapped operations are the exact
    ones; in particular [context*2] is twice the context whenever that
    is representable. *)
Lemma int_mul_exact a b : int_min ≤ a * b ≤ int_max → int_mul a b = a * b.
Proof. apply wrap_id. Qed.

Lemma int_sub_exact a b : int_min ≤ a - b ≤ int_max → int_sub a b = a - b.
Proof. apply wrap_id. Qed.

Lemma int_add_exact a b : int_min ≤ a + b ≤ int_max → int_add a b = a + b.
Proof. apply wrap_id. Qed.


Lemma is_equal_true e : is_equal e = true ↔ Typ e = "equal".
Proof. apply bool_decide_eq_true. Qed.

Lemma is_equal_false e : is_equal e = false ↔ Typ e ≠ "equal".
Proof. apply bool_decide_eq_false. Qed.

Lemma absorbed_true context e :
  absorbed context e = true ↔
  Typ e ≠ "equal" ∨ int_sub (End1 e) (Start1 e) < int_mul context 2.
Proof.
  unfold absorbed. rewrite orb_true_iff, !bool_decide_eq_true. done.
Qed.

Lemma absorbed_false context e :
  absorbed context e = false ↔
  Typ e = "equal" ∧ int_mul context 2 ≤ int_sub (End1 e) (Start1 e).
Proof.
  unfold absorbed. rewrite orb_false_iff, !bool_decide_eq_false.
  split; intros [H1 H2]; (split; [|lia]).
  - by destruct (decide (Typ e = "equal")).
  - by intros ?.
Qed.

Lemma groups_prepend context eqs edits gss :
  Forall (λ e, is_equal e = true) eqs → groups context edits gss →
  groups context (eqs ++ edits) gss.
Proof.
  intros Heqs Hgroups. inversion Hgroups as [eqs' Heqs'|eqs' g gs rest gss' Heqs']; subst.
  - apply groups_nil. by apply Forall_app.
  - rewrite app_assoc. apply groups_cons; try done. by apply Forall_app.
Qed.

(** An operation that is not absorbed cuts the list: the groups before
    it and the groups from it on are formed independently. *)
Lemma groups_split context pre e post gss1 gss2 :
  absorbed context e = false →
  groups context pre gss1 → groups context (e :: post) gss2 →
  groups context (pre ++ e :: post) (gss1 ++ gss2).
Proof.
  intros He Hpre Hpost.
  induction Hpre as [eqs Heqs|eqs g gs rest gss Heqs Hg Hgs Hrest _ IH].
  - by apply groups_prepend.
  - replace ((eqs ++ (g :: gs) ++ rest) ++ e :: post)
      with (eqs ++ (g :: gs) ++ (rest ++ e :: post)) by (by rewrite <-!app_assoc).
    change (((g :: gs) :: gss) ++ gss2) with ((g :: gs) :: (gss ++ gss2)).
    apply groups_cons; try done.
    intros e'. destruct rest as [|r rest]; simpl.
    + by intros [= <-].
    + intros [= <-]. by apply Hrest.
Qed.

Lemma hunks_of_groups_app lines1 lines2 context gss1 gss2 :
  hunks_of_groups lines1 lines2 context (gss1 ++ gss2) =
  hs1 ← hunks_of_groups lines1 lines2 context gss1;
  hs2 ← hunks_of_groups lines1 lines2 context gss2;
  Ok (hs1 ++ hs2).
Proof.
  induction gss1 as [|group gss1 IH]; simpl.
  - by destruct (hunks_of_groups lines1 lines2 context gss2).
  - destruct (createSingleHunk lines1 lines2 group context); simpl; [|done..].
    rewrite IH.
    destruct (hunks_of_groups lines1 lines2 context gss1); simpl; [|done..].
    by destruct (hunks_of_groups lines1 lines2 context gss2).
Qed.

(** A list with a change gives at least one hunk. *)
Lemma createHunksFromEdits_change lines1 lines2 edits context hunks :
  (∃ c, c ∈ edits ∧ Typ c ≠ "equal") →
  createHunksFromEdits lines1 lines2 edits context = Ok hunks → hunks ≠ [].
Proof.
  intros (c & Hc & Hne). destruct (groups_total context edits) as (gss & Hgss).
  rewrite (createHunksFromEdits_groups _ _ _ _ gss Hgss).
  destruct Hgss as [eqs Heqs|eqs g gs rest gss Heqs Hg Hgs Hrest Hgss].
  - rewrite Forall_forall in Heqs. apply Heqs, is_equal_true in Hc. done.
  - simpl. intros (hunk & _ & (hs & _ & [= <-])%bind_Ok)%bind_Ok. done.
Qed.

(** An Equal run that the loop test does not absorb separates: the
    hunks of a list are the hunks of the part before such a run
    followed by the hunks of the part from it on. *)
Lemma hunks_split_at_boundary lines1 lines2 context pre e post :
  absorbed context e = false →
  createHunksFromEdits lines1 lines2 (pre ++ e :: post) context =
  hunks1 ← createHunksFromEdits lines1 lines2 pre context;
  hunks2 ← createHunksFromEdits lines1 lines2 (e :: post) context;
  Ok (hunks1 ++ hunks2).
Proof.
  intros He.
  destruct (groups_total context pre) as (gss1 & Hgss1).
  destruct (groups_total context (e :: post)) as (gss2 & Hgss2).
  rewrite (createHunksFromEdits_groups _ _ _ _ (gss1 ++ gss2)).
  - rewrite (createHunksFromEdits_groups _ _ _ _ gss1 Hgss1).
    rewrite (createHunksFromEdits_groups _ _ _ _ gss2 Hgss2).
    apply hunks_of_groups_app.
  - by apply groups_split.
Qed.

(** The first hunk of a list: it opens at the first change and holds
    the operations the loop test absorbs. *)
Lemma hunks_first_group lines1 lines2 context eqs g gs rest :
  Forall (λ e, is_equal e = true) eqs → is_equal g = false →
  Forall (λ e, absorbed context e = true) gs →
  stops (absorbed context) rest →
  createHunksFromEdits lines1 lines2 (eqs ++ (g :: gs) ++ rest) context =
  hunk ← createSingleHunk lines1 lines2 (g :: gs) context;
  hunks ← createHunksFromEdits lines1 lines2 rest context;
  Ok (hunk :: hunks).
Proof.
  intros Heqs Hg Hgs Hrest.
  destruct (groups_total context rest) as (gss & Hgss).
  rewrite (createHunksFromEdits_groups _ _ _ _ ((g :: gs) :: gss)).
  - by rewrite (createHunksFromEdits_groups _ _ _ _ gss Hgss).
  - by apply groups_cons.
Qed.

(** Where [context*2] and the run length do not overflow, the loop
    test compares the length of the run with twice the context. *)
Lemma absorbed_exact context e :
  int_min ≤ 2 * context ≤ int_max →
  int_min ≤ End1 e - Start1 e ≤ int_max →
  absorbed context e = true ↔
  Typ e ≠ "equal" ∨ End1 e - Start1 e < 2 * context.
Proof.
  intros Hctx Hlen. rewrite absorbed_true.
  rewrite int_mul_exact by lia. rewrite int_sub_exact by lia.
  replace (context * 2) with (2 * context) by lia. done.
Qed.

(** C9, as stated, fails: the code compares the run length with
    [context*2] computed in 64 bits. With context 2^62 the product wraps
    to -2^63, so the Equal run of one line between the changes of
    ["x";"a";"b"] against ["a";"c"], far shorter than twice the context,
    is not absorbed: it closes the first hunk, and there are two hunks
    where the rule of the claim gives one. *)
Lemma C9_short_run_closes_hunk :
  computeDiff ["x"; "a"; "b"] ["a"; "c"]
  = Ok [mkEdit "delete" 0 1 0 0; mkEdit "equal" 1 2 0 1;
        mkEdit "insert" 2 2 1 2; mkEdit "delete" 2 3 2 2] ∧
  End1 (mkEdit "equal" 1 2 0 1) - Start1 (mkEdit "equal" 1 2 0 1)
  < 2 * 4611686018427387904 ∧
  absorbed 4611686018427387904 (mkEdit "equal" 1 2 0 1) = false ∧
  generateHunks ["x"; "a"; "b"] ["a"; "c"] 4611686018427387904
  = Ok [["@@ -1,3 +1,2 @@"; "-x"; " a"; " b"];
        ["@@ -1,3 +1,2 @@"; " x"; " a"; "+c"; "-b"]].
Proof. split_and!; [vm_compute; reflexivity|simpl; lia|vm_compute; reflexivity..]. Qed.

(** C9, amended. The grouping rule of [createHunksFromEdits], for every
    context whose double is within the range of [int] and Equal runs
    whose length is within that range.
    (1) After the Equal operations [eqs], a hunk opens at the change
    [g], takes the operations [gs], each a change or an Equal run
    shorter than twice the context, and closes in front of [rest],
    which is empty or starts with an Equal run of length at least twice
    the context; the remaining hunks are those of [rest].
    (2) An Equal run of length at least twice the context separates:
    the hunks of a list are the hunks of the part before such a run
    followed by the hunks of the part from it on.
    (3) In particular, with context 2, changes before and after an
    Equal run of 10 lines are emitted in separate hunks: the hunk list
    is a non-empty list of hunks for the part before the run followed
    by a non-empty list of hunks for the part from the run on.
    (4) For two sequences of twelve lines that differ in the first and
    in the last line, context 2 gives two hunks. *)
Theorem C9_firm_boundary_rule :
  (∀ lines1 lines2 context eqs g gs rest,
     int_min ≤ 2 * context ≤ int_max →
     Forall (λ e, Typ e = "equal") eqs →
     Typ g ≠ "equal" →
     Forall (λ e, Typ e ≠ "equal" ∨
                  int_min ≤ End1 e - Start1 e < 2 * context) gs →
     (rest = [] ∨ ∃ e rest', rest = e :: rest' ∧ Typ e = "equal" ∧
                   2 * context ≤ End1 e - Start1 e ≤ int_max) →
     createHunksFromEdits lines1 lines2 (eqs ++ (g :: gs) ++ rest) context =
     hunk ← createSingleHunk lines1 lines2 (g :: gs) context;
     hunks ← createHunksFromEdits lines1 lines2 rest context;
     Ok (hunk :: hunks)) ∧
  (∀ lines1 lines2 context pre e post,
     int_min ≤ 2 * context ≤ int_max →
     Typ e = "equal" → 2 * context ≤ End1 e - Start1 e ≤ int_max →
     createHunksFromEdits lines1 lines2 (pre ++ e :: post) context =
     hunks1 ← createHunksFromEdits lines1 lines2 pre context;
     hunks2 ← createHunksFromEdits lines1 lines2 (e :: post) context;
     Ok (hunks1 ++ hunks2)) ∧
  (∀ lines1 lines2 pre e post hunks,
     Typ e = "equal" → End1 e - Start1 e = 10 →
     (∃ c, c ∈ pre ∧ Typ c ≠ "equal") → (∃ c, c ∈ post ∧ Typ c ≠ "equal") →
     createHunksFromEdits lines1 lines2 (pre ++ e :: post) 2 = Ok hunks →
     ∃ hunks1 hunks2,
       createHunksFromEdits lines1 lines2 pre 2 = Ok hunks1 ∧
       createHunksFromEdits lines1 lines2 (e :: post) 2 = Ok hunks2 ∧
       hunks1 ≠ [] ∧ hunks2 ≠ [] ∧ hunks = hunks1 ++ hunks2) ∧
  generateHunks
    ["x"; "1"; "2"; "3"; "4"; "5"; "6"; "7"; "8"; "9"; "10"; "y"]
    ["X"; "1"; "2"; "3"; "4"; "5"; "6"; "7"; "8"; "9"; "10"; "Y"] 2
  = Ok [["@@ -1,3 +1,3 @@"; "+X"; "-x"; " 1"; " 2"];
        ["@@ -10,3 +10,3 @@"; " 9"; " 10"; "+Y"; "-y"]].
Proof.
  assert (∀ context e,
     int_min ≤ 2 * context ≤ int_max →
     Typ e = "equal" → 2 * context ≤ End1 e - Start1 e ≤ int_max →
     absorbed context e = false) as Hfirm.
  { intros context e Hctx Ht Hlen. apply not_true_is_false.
    rewrite absorbed_exact by lia. intros [?|?]; [done|lia]. }
  split_and!.
  - intros lines1 lines2 context eqs g gs rest Hctx Heqs Hg Hgs Hrest.
    apply hunks_first_group.
    + eapply Forall_impl; [exact Heqs|]. intros e. apply is_equal_true.
    + by apply is_equal_false.
    + eapply Forall_impl; [exact Hgs|]. intros e [Ht|Hlen].
      * apply absorbed_true. by left.
      * apply absorbed_exact; [done|lia|right; lia].
    + intros e Hhd.
      destruct Hrest as [->|(e' & rest' & -> & ? & ?)]; [done|].
      injection Hhd as <-. by apply Hfirm.
  - intros lines1 lines2 context pre e post Hctx Ht Hlen.
    apply hunks_split_at_boundary. by apply Hfirm.
  - intros lines1 lines2 pre e post hunks Ht Hlen Hpre Hpost Hrun.
    rewrite hunks_split_at_boundary in Hrun.
    2:{ apply Hfirm; [|done|]; unfold int_min, int_max; lia. }
    apply bind_Ok in Hrun as (hunks1 & Hrun1 & Hrun).
    apply bind_Ok in Hrun as (hunks2 & Hrun2 & [= <-]).
    exists hunks1, hunks2. split_and!; [done..| | |done].
    + eapply createHunksFromEdits_change; [|exact Hrun1]. done.
    + eapply createHunksFromEdits_change; [|exact Hrun2].
      destruct Hpost as (c & Hc & Hne). exists c. split; [|done]. by right.
  - vm_compute. reflexivity.
Qed.

Lemma C9_firm_boundary_rule_witness :
  (createHunksFromEdits ["a"; "b"; "c"; "d"] ["a"; "c"]
     ([mkEdit "equal" 0 1 0 1] ++
      (mkEdit "delete" 1 2 1 1 :: [mkEdit "equal" 2 3 1 2; mkEdit "delete" 3 4 2 2])
      ++ []) 1 =
   hunk ← createSingleHunk ["a"; "b"; "c"; "d"] ["a"; "c"]
            (mkEdit "delete" 1 2 1 1 ::
             [mkEdit "equal" 2 3 1 2; mkEdit "delete" 3 4 2 2]) 1;
   hunks ← createHunksFromEdits ["a"; "b"; "c"; "d"] ["a"; "c"] [] 1;
   Ok (hunk :: hunks)) ∧
  (createHunksFromEdits
     ["x"; "1"; "2"; "3"; "4"; "5"; "6"; "7"; "8"; "9"; "10"; "y"]
     ["X"; "1"; "2"; "3"; "4"; "5"; "6"; "7"; "8"; "9"; "10"; "Y"]
     ([mkEdit "insert" 0 0 0 1; mkEdit "delete" 0 1 1 1] ++
      mkEdit "equal" 1 11 1 11 ::
        [mkEdit "insert" 11 11 11 12; mkEdit "delete" 11 12 12 12]) 5 =
   hunks1 ← createHunksFromEdits
              ["x"; "1"; "2"; "3"; "4"; "5"; "6"; "7"; "8"; "9"; "10"; "y"]
              ["X"; "1"; "2"; "3"; "4"; "5"; "6"; "7"; "8"; "9"; "10"; "Y"]
              [mkEdit "insert" 0 0 0 1; mkEdit "delete" 0 1 1 1] 5;
   hunks2 ← createHunksFromEdits
              ["x"; "1"; "2"; "3"; "4"; "5"; "6"; "7"; "8"; "9"; "10"; "y"]
              ["X"; "1"; "2"; "3"; "4"; "5"; "6"; "7"; "8"; "9"; "10"; "Y"]
              (mkEdit "equal" 1 11 1 11 ::
                 [mkEdit "insert" 11 11 11 12; mkEdit "delete" 11 12 12 12]) 5;
   Ok (hunks1 ++ hunks2)) ∧
  ∃ hunks1 hunks2,
    createHunksFromEdits
      ["x"; "1"; "2"; "3"; "4"; "5"; "6"; "7"; "8"; "9"; "10"; "y"]
      ["X"; "1"; "2"; "3"; "4"; "5"; "6"; "7"; "8"; "9"; "10"; "Y"]
      [mkEdit "insert" 0 0 0 1; mkEdit "delete" 0 1 1 1] 2 = Ok hunks1 ∧
    createHunksFromEdits
      ["x"; "1"; "2"; "3"; "4"; "5"; "6"; "7"; "8"; "9"; "10"; "y"]
      ["X"; "1"; "2"; "3"; "4"; "5"; "6"; "7"; "8"; "9"; "10"; "Y"]
      (mkEdit "equal" 1 11 1 11 ::
       [mkEdit "insert" 11 11 11 12; mkEdit "delete" 11 12 12 12]) 2 = Ok hunks2 ∧
    hunks1 ≠ [] ∧ hunks2 ≠ [] ∧
    [["@@ -1,3 +1,3 @@"; "+X"; "-x"; " 1"; " 2"];
     ["@@ -10,3 +10,3 @@"; " 9"; " 10"; "+Y"; "-y"]] = hunks1 ++ hunks2.
Proof.
  split_and!.
  - apply (proj1 C9_firm_boundary_rule ["a"; "b"; "c"; "d"] ["a"; "c"] 1
             [mkEdit "equal" 0 1 0 1] (mkEdit "delete" 1 2 1 1)
             [mkEdit "equal" 2 3 1 2; mkEdit "delete" 3 4 2 2] []).
    + unfold int_min, int_max. lia.
    + repeat constructor.
    + simpl. discriminate.
    + constructor; [right; unfold int_min; simpl; lia|].
      constructor; [left; simpl; discriminate|]. constructor.
    + by left.
  - apply (proj1 (proj2 C9_firm_boundary_rule)
             ["x"; "1"; "2"; "3"; "4"; "5"; "6"; "7"; "8"; "9"; "10"; "y"]
             ["X"; "1"; "2"; "3"; "4"; "5"; "6"; "7"; "8"; "9"; "10"; "Y"] 5
             [mkEdit "insert" 0 0 0 1; mkEdit "delete" 0 1 1 1]
             (mkEdit "equal" 1 11 1 11)
             [mkEdit "insert" 11 11 11 12; mkEdit "delete" 11 12 12 12]).
    + unfold int_min, int_max. lia.
    + reflexivity.
    + unfold int_max. simpl. lia.
  - apply (proj1 (proj2 (proj2 C9_firm_boundary_rule))
             ["x"; "1"; "2"; "3"; "4"; "5"; "6"; "7"; "8"; "9"; "10"; "y"]
             ["X"; "1"; "2"; "3"; "4"; "5"; "6"; "7"; "8"; "9"; "10"; "Y"]
             [mkEdit "insert" 0 0 0 1; mkEdit "delete" 0 1 1 1]
             (mkEdit "equal" 1 11 1 11)
             [mkEdit "insert" 11 11 11 12; mkEdit "delete" 11 12 12 12]).
    + reflexivity.
    + reflexivity.
    + exists (mkEdit "insert" 0 0 0 1). split; [by left|simpl; discriminate].
    + exists (mkEdit "insert" 11 11 11 12). split; [by left|simpl; discriminate].
    + vm_compute. reflexivity.
Defined.

(** * The renderer *)

Lemma foldl_append (result : list string) (hunks : list (list string)) :
  foldl (λ result hunk, result ++ hunk) result hunks = result ++ concat hunks.
Proof.
  revert result. induction hunks as [|hunk hunks IH]; intros result; simpl.
  - by rewrite app_nil_r.
  - rewrite IH. by rewrite <-app_assoc.
Qed.

Lemma generateHunks_same (lines : list string) (context : Z) :
  generateHunks lines lines context = Ok [].
Proof.
  destruct lines as [|line lines].
  - vm_compute. reflexivity.
  - unfold generateHunks. rewrite computeDiff_identical, ret_bind by done.
    apply createHunksFromEdits_all_equal. by constructor.
Qed.

(** C10. [generateUnifiedDiff] returns, for every two sequences and
    every configuration, the lines "--- file1" and "+++ file2" followed
    by the lines of the hunks, so the result is never empty; for
    identical sequences there are no hunks. Hence, once both files are
    read and neither is binary, [compareFiles] passes its test
    [len(diff) > 0] and prints the diff, which for identical files is
    the two header lines. *)
Theorem C10_file_headers_always_printed
    (file1 file2 : string) (lines1 lines2 : list string) (config : Config) :
  ∃ hunks,
    generateHunks lines1 lines2 (showContext config) = Ok hunks ∧
    generateUnifiedDiff file1 file2 lines1 lines2 config
    = Ok (("--- " +:+ file1) :: ("+++ " +:+ file2) :: concat hunks) ∧
    (lines1 = lines2 → hunks = []) ∧
    (∀ readFileLines,
       readFileLines file1 = Some lines1 → readFileLines file2 = Some lines2 →
       isBinary lines1 = false → isBinary lines2 = false →
       compareFiles readFileLines file1 file2 config
       = Ok (printDiff (("--- " +:+ file1) :: ("+++ " +:+ file2) :: concat hunks)
               config, None)) ∧
    printDiff [("--- " +:+ file1); ("+++ " +:+ file2)] config
    = printColor config "white" ("--- " +:+ file1 +:+ newline)
      +:+ printColor config "white" ("+++ " +:+ file2 +:+ newline).
Proof.
  destruct (generateHunks_total lines1 lines2 (showContext config))
    as (edits & gss & hunks & _ & _ & _ & _ & Hhunks).
  assert (generateUnifiedDiff file1 file2 lines1 lines2 config
          = Ok (("--- " +:+ file1) :: ("+++ " +:+ file2) :: concat hunks)) as Hdiff.
  { unfold generateUnifiedDiff. rewrite Hhunks, ret_bind.
    by rewrite foldl_append. }
  exists hunks. split_and!; [done..| | |].
  - intros <-. rewrite generateHunks_same in Hhunks. by injection Hhunks.
  - intros readFileLines Hread1 Hread2 Hbin1 Hbin2. unfold compareFiles.
    rewrite Hread1, Hread2, Hbin1, Hbin2. simpl. rewrite Hdiff, ret_bind.
    rewrite decide_True; [done|].
    rewrite !len_cons. pose proof (len_nonneg (concat hunks)). lia.
  - vm_compute. reflexivity.
Qed.

Lemma C10_file_headers_always_printed_witness :
  compareFiles (λ _, Some ["a"; "b"]) "f1" "f2"
    (mkConfig false 3 false false false false)
  = Ok ("--- f1" +:+ newline +:+ "+++ f2" +:+ newline, None).
Proof.
  destruct (C10_file_headers_always_printed "f1" "f2" ["a"; "b"] ["a"; "b"]
              (mkConfig false 3 false false false false))
    as (hunks & _ & _ & Hnone & Hprint & _).
  rewrite (Hprint (λ _, Some ["a"; "b"])); [|reflexivity..].
  rewrite (Hnone eq_refl). reflexivity.
Defined.

(** * The hunk header *)

(** The characters of a decimal number. *)
Definition numeric (c : ascii) : bool :=
  bool_decide (c = "-" ∨ c = "0" ∨ c = "1" ∨ c = "2" ∨ c = "3" ∨ c = "4"
               ∨ c = "5" ∨ c = "6" ∨ c = "7" ∨ c = "8" ∨ c = "9")%char.

Fixpoint all_numeric (s : string) : bool :=
  match s with
  | EmptyString => true
  | String c s' => numeric c && all_numeric s'
  end.

Lemma append_String c s t : String c s +:+ t = String c (s +:+ t).
Proof. done. Qed.

Lemma append_empty t : "" +:+ t = t.
Proof. done. Qed.

Lemma all_numeric_app s t :
  all_numeric s = true → all_numeric t = true → all_numeric (s +:+ t) = true.
Proof.
  intros Hs Ht. induction s as [|c s IH]; [done|].
  rewrite append_String. simpl in *. apply andb_true_iff in Hs as [-> Hs].
  by apply IH.
Qed.

Lemma pretty_N_char_numeric x : numeric (pretty_N_char x) = true.
Proof. unfold pretty_N_char. by repeat case_match. Qed.

Lemma pretty_N_go_numeric x s :
  all_numeric s = true → all_numeric (pretty_N_go x s) = true.
Proof.
  revert s. induction (N.lt_wf_0 x) as [x _ IH]; intros s Hs.
  assert (x = 0 ∨ 0 < x)%N as [->|Hx] by lia.
  - by rewrite pretty_N_go_0.
  - rewrite pretty_N_go_step by done. apply IH.
    + by apply N.div_lt.
    + simpl. by rewrite pretty_N_char_numeric.
Qed.

Lemma pretty_N_numeric (x : N) : all_numeric (pretty x) = true.
Proof.
  unfold pretty, pretty_N. case_decide; [done|]. by apply pretty_N_go_numeric.
Qed.

Lemma pretty_Z_numeric (z : Z) : all_numeric (pretty z) = true.
Proof.
  unfold pretty, pretty_Z. destruct z as [|p|p]; [done|..].
  - apply (pretty_N_numeric (N.pos p)).
  - apply all_numeric_app; [done|]. apply (pretty_N_numeric (N.pos p)).
Qed.

(** Two numbers followed by the same separator: the numbers and what
    follows the separator agree. *)
Lemma numeric_prefix_inj u u' c r r' :
  all_numeric u = true → all_numeric u' = true → numeric c = false →
  u +:+ String c r = u' +:+ String c r' → u = u' ∧ r = r'.
Proof.
  intros Hu Hu' Hc. revert u' Hu'.
  induction u as [|a u IH]; intros [|a' u'] Hu'; rewrite ?append_String, ?append_empty.
  - by intros [= ->].
  - intros [= <- _]. simpl in Hu'. by rewrite Hc in Hu'.
  - intros [= -> _]. simpl in Hu. by rewrite Hc in Hu.
  - intros [= <- Heq]. simpl in Hu, Hu'.
    apply andb_true_iff in Hu as [_ Hu]. apply andb_true_iff in Hu' as [_ Hu'].
    destruct (IH Hu u' Hu' Heq) as [-> ->]. done.
Qed.

(** The header determines the four numbers it shows. *)
Lemma hunk_header_inj s1 l1 s2 l2 s1' l1' s2' l2' :
  hunk_header s1 l1 s2 l2 = hunk_header s1' l1' s2' l2' →
  s1 = s1' ∧ l1 = l1' ∧ s2 = s2' ∧ l2 = l2'.
Proof.
  unfold hunk_header. rewrite !append_String, !append_empty.
  intros [= H].
  apply numeric_prefix_inj in H as [H1 H]; [|apply pretty_Z_numeric..|done].
  apply numeric_prefix_inj in H as [H2 H]; [|apply pretty_Z_numeric..|done].
  injection H as H.
  apply numeric_prefix_inj in H as [H3 H]; [|apply pretty_Z_numeric..|done].
  apply numeric_prefix_inj in H as [H4 _]; [|apply pretty_Z_numeric..|done].
  split_and!; by apply (inj pretty).
Qed.

(** ** Counting the lines of a hunk by their first character *)

Definition starts_with (c : ascii) (line : string) : bool :=
  match line with
  | EmptyString => false
  | String c' _ => bool_decide (c' = c)
  end.

Fixpoint count_lines (c : ascii) (body : list string) : Z :=
  match body with
  | [] => 0
  | line :: body' => (if starts_with c line then 1 else 0) + count_lines c body'
  end.

Lemma count_lines_app c body1 body2 :
  count_lines c (body1 ++ body2) = count_lines c body1 + count_lines c body2.
Proof. induction body1 as [|line body1 IH]; simpl; lia. Qed.

Lemma count_lines_prefixed c (p : ascii) (lines : list string) :
  count_lines c ((λ s, String p "" +:+ s) <$> lines)
  = if bool_decide (p = c) then len lines else 0.
Proof.
  induction lines as [|line lines IH].
  - simpl. by case_bool_decide.
  - rewrite fmap_cons, len_cons. simpl count_lines. rewrite IH.
    case_bool_decide; lia.
Qed.

(** The header lengths of a hunk agree with its body: the first is the
    number of context and deleted lines, the second the number of
    context and inserted lines. *)
Definition header_counts_body (hunk : list string) : Prop :=
  ∃ s1 l1 s2 l2 body,
    hunk = hunk_header s1 l1 s2 l2 :: body ∧
    l1 = count_lines " " body + count_lines "-" body ∧
    l2 = count_lines " " body + count_lines "+" body.

(** * The header lengths of the hunks of a diff *)

Section hunk_lengths.
Variables lines1 lines2 : list string.

(** [path i j edits i' j']: well-formed operations, each starting where
    its predecessor ends, lead from [(i, j)] to [(i', j')]. *)
Inductive path : Z → Z → list Edit → Z → Z → Prop :=
| path_nil i j : path i j [] i j
| path_cons e es i' j' :
    edit_ok lines1 lines2 e → path (End1 e) (End2 e) es i' j' →
    path (Start1 e) (Start2 e) (e :: es) i' j'.

Lemma tiles_app_inv i j l k :
  tiles lines1 lines2 i j (l ++ k) →
  ∃ i' j', path i j l i' j' ∧ tiles lines1 lines2 i' j' k.
Proof.
  revert i j. induction l as [|e l IH]; intros i j Htiles; simpl in *.
  - exists i, j. split; [constructor|done].
  - inversion Htiles as [|e0 es He Hrest]; subst.
    destruct (IH _ _ Hrest) as (i' & j' & Hpath & Hk).
    exists i', j'. split; [by constructor|done].
Qed.

Lemma path_le i j l i' j' : path i j l i' j' → i ≤ i' ∧ j ≤ j'.
Proof.
  induction 1 as [|e es i' j' He _ IH]; [lia|].
  apply edit_ok_le in He. lia.
Qed.

Lemma path_last i j l i' j' :
  path i j l i' j' → l ≠ [] →
  ∃ lst, last l = Some lst ∧ End1 lst = i' ∧ End2 lst = j'.
Proof.
  induction 1 as [|e es i' j' He Hpath IH]; intros Hne; [done|].
  destruct es as [|e' es].
  - inversion Hpath; subst. by exists e.
  - destruct IH as (lst & Hlast & ? & ?); [done|].
    exists lst. by rewrite last_cons_cons.
Qed.

Lemma path_head i j e es i' j' :
  path i j (e :: es) i' j' → Start1 e = i ∧ Start2 e = j.
Proof. by inversion 1. Qed.

Lemma path_in_range i j l i' j' :
  path i j l i' j' → 0 ≤ i → 0 ≤ j → i' ≤ len lines1 → j' ≤ len lines2 →
  Forall (in_range lines1 lines2) l.
Proof.
  induction 1 as [|e es i' j' He Hpath IH]; intros Hi Hj Hi' Hj'; constructor.
  - apply path_le in Hpath. apply edit_ok_le in He. unfold in_range. lia.
  - apply edit_ok_le in He. apply IH; lia.
Qed.

(** Equal operations move both indices by the same amount, at least
    the length of the first of them. *)
Lemma path_equal i j eqs i' j' :
  path i j eqs i' j' → Forall (λ e, is_equal e = true) eqs →
  i' - i = j' - j ∧
  ∀ e eqs', eqs = e :: eqs' → End1 e - Start1 e ≤ i' - i.
Proof.
  induction 1 as [|e es i' j' He Hpath IH]; intros Hall.
  - split; [lia|]. by intros e eqs'.
  - inversion Hall as [|e0 es0 Heq Hes]; subst. apply is_equal_true in Heq.
    destruct (IH Hes) as [IH1 _]. apply path_le in Hpath.
    destruct He as [(_ & ? & ? & _)|[(Ht & _)|(Ht & _)]]; [|congruence..].
    split; [lia|]. intros e' eqs' [= <- _]. lia.
Qed.

Lemma edit_lines_equal e :
  Typ e = "equal" →
  edit_lines lines1 lines2 e = (λ s, " " +:+ s) <$> slice lines1 (Start1 e) (End1 e).
Proof. unfold edit_lines. by intros ->. Qed.

Lemma edit_lines_delete e :
  Typ e = "delete" →
  edit_lines lines1 lines2 e = (λ s, "-" +:+ s) <$> slice lines1 (Start1 e) (End1 e).
Proof. unfold edit_lines. by intros ->. Qed.

Lemma edit_lines_insert e :
  Typ e = "insert" →
  edit_lines lines1 lines2 e = (λ s, "+" +:+ s) <$> slice lines2 (Start2 e) (End2 e).
Proof. unfold edit_lines. by intros ->. Qed.

(** The lines of a run of operations, counted by side. *)
Lemma path_counts i j l i' j' :
  path i j l i' j' → 0 ≤ i → 0 ≤ j → i' ≤ len lines1 → j' ≤ len lines2 →
  count_lines " " (concat (edit_lines lines1 lines2 <$> l))
  + count_lines "-" (concat (edit_lines lines1 lines2 <$> l)) = i' - i ∧
  count_lines " " (concat (edit_lines lines1 lines2 <$> l))
  + count_lines "+" (concat (edit_lines lines1 lines2 <$> l)) = j' - j.
Proof.
  induction 1 as [|e es i' j' He Hpath IH]; intros Hi Hj Hi' Hj'.
  - simpl. lia.
  - pose proof (path_le _ _ _ _ _ Hpath) as [? ?].
    pose proof (edit_ok_le _ _ _ He) as (? & ? & _).
    destruct IH as [IH1 IH2]; [lia..|].
    rewrite fmap_cons. simpl concat. rewrite !count_lines_app.
    destruct He as [(Ht & ? & ? & _)|[(Ht & ? & ?)|(Ht & ? & ?)]].
    + rewrite (edit_lines_equal e Ht), !count_lines_prefixed. simpl bool_decide.
      cbv iota. rewrite slice_length by lia. lia.
    + rewrite (edit_lines_delete e Ht), !count_lines_prefixed. simpl bool_decide.
      cbv iota. rewrite slice_length by lia. lia.
    + rewrite (edit_lines_insert e Ht), !count_lines_prefixed. simpl bool_decide.
      cbv iota. rewrite slice_length by lia. lia.
Qed.

Variable context : Z.
Hypothesis context_nonneg : 0 ≤ context.
Hypothesis double_fits : 2 * context ≤ int_max.
Hypothesis end1_fits : len lines1 + context ≤ int_max.
Hypothesis end2_fits : len lines2 + context ≤ int_max.

(** The hunk of a group whose margins are the same on both sides: in
    front of it both sides have the same number of lines or at least
    [context] lines, and behind it both sides end or have at least
    [context] lines. *)
Lemma group_hunk_counts s1 s2 g gs e1 e2 :
  path s1 s2 (g :: gs) e1 e2 →
  0 ≤ s1 → 0 ≤ s2 → e1 ≤ len lines1 → e2 ≤ len lines2 →
  s1 = s2 ∨ (context ≤ s1 ∧ context ≤ s2) →
  (e1 = len lines1 ∧ e2 = len lines2) ∨
  (e1 + context ≤ len lines1 ∧ e2 + context ≤ len lines2) →
  ∃ hunk, createSingleHunk lines1 lines2 (g :: gs) context = Ok hunk ∧
          header_counts_body hunk.
Proof.
  intros Hpath Hs1 Hs2 He1 He2 Hlead Htrail.
  destruct (path_head _ _ _ _ _ _ Hpath) as [Hg1 Hg2].
  destruct (path_last _ _ _ _ _ Hpath) as (lst & Hlast & Hl1 & Hl2); [done|].
  pose proof (path_le _ _ _ _ _ Hpath) as [? ?].
  pose proof (path_counts _ _ _ _ _ Hpath Hs1 Hs2 He1 He2) as [Hc1 Hc2].
  rewrite (createSingleHunk_spec lines1 lines2 g gs lst context);
    [|by eapply path_in_range|done].
  rewrite Hg1, Hg2, Hl1, Hl2.
  unfold int_min, int_max in *.
  assert (max 0 (int_sub s1 context) = Z.max 0 (s1 - context)) as ->.
  { rewrite max_is_Zmax. unfold int_sub. rewrite wrap_id; [done|].
    unfold int_min, int_max. lia. }
  assert (max 0 (int_sub s2 context) = Z.max 0 (s2 - context)) as ->.
  { rewrite max_is_Zmax. unfold int_sub. rewrite wrap_id; [done|].
    unfold int_min, int_max. lia. }
  assert (min (len lines1) (int_add e1 context) = Z.min (len lines1) (e1 + context)) as ->.
  { rewrite min_is_Zmin. unfold int_add. rewrite wrap_id; [done|].
    unfold int_min, int_max. lia. }
  assert (min (len lines2) (int_add e2 context) = Z.min (len lines2) (e2 + context)) as ->.
  { rewrite min_is_Zmin. unfold int_add. rewrite wrap_id; [done|].
    unfold int_min, int_max. lia. }
  eexists. split; [done|]. eexists _, _, _, _, _. split; [done|].
  rewrite !count_lines_app, !count_lines_prefixed. simpl bool_decide. cbv iota.
  rewrite !slice_length by lia.
  unfold int_sub. rewrite !wrap_id by (unfold int_min, int_max; lia).
  lia.
Qed.

(** The hunks of the groups of a tiling.  The list [suffix] is what the
    loop has not looked at yet, starting at [(i, j)]: at the first
    iteration [i = j = 0], at a later one [suffix] starts with the Equal
    run that closed the previous hunk. *)
Lemma hunks_counts suffix gss :
  groups context suffix gss → ∀ i j,
  tiles lines1 lines2 i j suffix → 0 ≤ i → 0 ≤ j →
  i = j ∨ stops (absorbed context) suffix →
  ∃ hunks, hunks_of_groups lines1 lines2 context gss = Ok hunks ∧
           Forall header_counts_body hunks.
Proof.
  induction 1 as [eqs Heqs|eqs g gs rest gss Heqs Hg Hgs Hrest Hgroups IH];
    intros i j Htiles Hi Hj Hlead.
  { exists []. split; [done|constructor]. }
  apply tiles_app_inv in Htiles as (s1 & s2 & Hp1 & Htiles).
  apply tiles_app_inv in Htiles as (e1 & e2 & Hp2 & Htiles).
  pose proof (tiles_le _ _ _ _ _ Htiles) as [He1 He2].
  pose proof (path_le _ _ _ _ _ Hp1) as [? ?].
  pose proof (path_le _ _ _ _ _ Hp2) as [? ?].
  destruct (path_equal _ _ _ _ _ Hp1 Heqs) as [Hdiag Hfirst].
  unfold int_max in *.
  assert (s1 = s2 ∨ (context ≤ s1 ∧ context ≤ s2)) as Hlead'.
  { destruct Hlead as [->|Hstop]; [left; lia|]. right.
    destruct eqs as [|e eqs'].
    - specialize (Hstop g eq_refl). apply absorbed_false in Hstop as [Ht _].
      by apply is_equal_false in Hg.
    - specialize (Hstop e eq_refl). apply absorbed_false in Hstop as [Ht Hlen].
      specialize (Hfirst e eqs' eq_refl).
      assert (in_range lines1 lines2 e) as (? & ? & _).
      { assert (Forall (in_range lines1 lines2) (e :: eqs')) as Hall
          by (apply (path_in_range _ _ _ _ _ Hp1); lia).
        by inversion Hall. }
      unfold int_mul, int_sub in Hlen.
      rewrite !wrap_id in Hlen by (unfold int_min, int_max; lia). lia. }
  assert ((e1 = len lines1 ∧ e2 = len lines2) ∨
          (e1 + context ≤ len lines1 ∧ e2 + context ≤ len lines2)) as Htrail.
  { destruct rest as [|r rest'].
    - left. by inversion Htiles.
    - right. specialize (Hrest r eq_refl). apply absorbed_false in Hrest as [Ht Hlen].
      destruct (tiles_head _ _ _ _ _ _ Htiles) as [Hr1 Hr2].
      pose proof (tiles_bounds lines1 lines2 e1 e2 (r :: rest') 0 r Htiles eq_refl)
        as (? & ? & ? & ?).
      destruct (tiles_lookup lines1 lines2 e1 e2 (r :: rest') 0 r Htiles eq_refl)
        as (_ & _ & Hr & _).
      destruct Hr as [(_ & ? & ? & _)|[(Ht' & _)|(Ht' & _)]]; [|congruence..].
      unfold int_mul, int_sub in Hlen.
      rewrite !wrap_id in Hlen by (unfold int_min, int_max; lia). lia. }
  destruct (group_hunk_counts s1 s2 g gs e1 e2) as (hunk & Hhunk & Hgood);
    [done|lia..|done|done|].
  destruct (IH e1 e2 Htiles) as (hunks & Hhunks & Hall); [lia..|by right|].
  exists (hunk :: hunks). simpl. rewrite Hhunk, ret_bind, Hhunks.
  split; [done|by constructor].
Qed.
End hunk_lengths.

(** C4, as stated, fails: with the largest context the addition
    [end1+context] overflows, and the hunk for ["a"] against the empty
    sequence carries the sequence-1 length -9223372036854775808 over a
    body of one deleted line. *)
Lemma C4_length_overflows :
  generateHunks ["a"] [] 9223372036854775807
  = Ok [[hunk_header 1 (-9223372036854775808) 1 0; "-a"]] ∧
  ¬ header_counts_body [hunk_header 1 (-9223372036854775808) 1 0; "-a"].
Proof.
  split; [vm_compute; reflexivity|].
  intros (s1 & l1 & s2 & l2 & body & Heq & Hl1 & _).
  assert (hunk_header 1 (-9223372036854775808) 1 0 = hunk_header s1 l1 s2 l2)
    as Hhead by congruence.
  assert (body = ["-a"]) as -> by congruence.
  apply hunk_header_inj in Hhead as (_ & <- & _). vm_compute in Hl1. discriminate.
Qed.

(** The bound on [context*2] is needed as well: with context 2^62 the
    product wraps to a negative number, every Equal run closes a hunk,
    and the second hunk for ["x";"a";"b"] against ["a";"c"] has the
    sequence-2 length 2 over two context lines and one inserted line. *)
Lemma header_lengths_need_double_context :
  generateHunks ["x"; "a"; "b"] ["a"; "c"] 4611686018427387904
  = Ok [["@@ -1,3 +1,2 @@"; "-x"; " a"; " b"];
        ["@@ -1,3 +1,2 @@"; " x"; " a"; "+c"; "-b"]].
Proof. vm_compute. reflexivity. Qed.

(** C4, amended. For every two sequences and every context that is not
    negative and keeps [context*2], [len(lines1)+context] and
    [len(lines2)+context] within the range of [int], the hunk assembler
    applied to the output of [computeDiff] returns hunks in each of which
    the first length of the header is the number of lines of the body
    that start with a space or a minus, and the second length the number
    of lines that start with a space or a plus. *)
Theorem C4_header_lengths_count_body (lines1 lines2 : list string) (context : Z) :
  0 ≤ context → 2 * context ≤ int_max →
  len lines1 + context ≤ int_max → len lines2 + context ≤ int_max →
  ∃ hunks, generateHunks lines1 lines2 context = Ok hunks ∧
    ∀ hunk, hunk ∈ hunks →
      ∃ s1 l1 s2 l2 body,
        hunk = hunk_header s1 l1 s2 l2 :: body ∧
        l1 = count_lines " " body + count_lines "-" body ∧
        l2 = count_lines " " body + count_lines "+" body.
Proof.
  intros Hctx Hdouble Hfit1 Hfit2.
  destruct (generateHunks_total lines1 lines2 context)
    as (edits & gss & hunks & _ & Htiles & Hgroups & Hhunks & Hgen).
  exists hunks. split; [done|].
  destruct (hunks_counts lines1 lines2 context Hctx Hdouble Hfit1 Hfit2
              edits gss Hgroups 0 0 Htiles) as (hunks' & Hhunks' & Hall);
    [lia..|by left|].
  assert (hunks' = hunks) as -> by congruence.
  intros hunk Hin. rewrite Forall_forall in Hall. by apply Hall.
Qed.

Lemma C4_header_lengths_count_body_witness :
  ∃ hunks, generateHunks ["a"; "b"; "c"] ["a"; "x"; "c"] 1 = Ok hunks ∧
    ∀ hunk, hunk ∈ hunks →
      ∃ s1 l1 s2 l2 body,
        hunk = hunk_header s1 l1 s2 l2 :: body ∧
        l1 = count_lines " " body + count_lines "-" body ∧
        l2 = count_lines " " body + count_lines "+" body.
Proof.
  apply (C4_header_lengths_count_body ["a"; "b"; "c"] ["a"; "x"; "c"] 1);
    unfold int_max, len; simpl; lia.
Defined.

(** * Further properties of the code *)

(** ** Binary detection *)

Lemma has_zero_rune_spec (line : string) :
  has_zero_rune line = true ↔ ∃ s1 s2, line = s1 +:+ String "000" s2.
Proof.
  induction line as [|r line IH]; simpl.
  - split; [done|]. intros (s1 & s2 & Heq). by destruct s1.
  - case_decide as Hr.
    + subst r. split; [|done]. intros _. by exists "", line.
    + rewrite IH. split.
      * intros (s1 & s2 & ->). by exists (String r s1), s2.
      * intros (s1 & s2 & Heq). destruct s1 as [|c s1].
        -- rewrite append_empty in Heq. by injection Heq as -> _.
        -- rewrite append_String in Heq. injection Heq as _ ->. by exists s1, s2.
Qed.

Lemma isBinary_of_zero_byte (lines : list string) (line s1 s2 : string) :
  line ∈ lines → line = s1 +:+ String "000" s2 → isBinary lines = true.
Proof.
  intros Hin ->. induction lines as [|l lines IH]; [by apply elem_of_nil in Hin|].
  simpl. destruct (has_zero_rune l) eqn:Hl; [done|].
  apply elem_of_cons in Hin as [<-|Hin]; [|by apply IH].
  assert (has_zero_rune (s1 +:+ String "000" s2) = true) as Hz.
  { apply has_zero_rune_spec. by exists s1, s2. }
  congruence.
Qed.

(** X1. [isBinary] answers true exactly when some line contains a zero
    byte; in particular it is false for no lines at all and for lines
    that are all empty. *)
Theorem isBinary_iff_zero_byte (lines : list string) :
  isBinary lines = true ↔
  ∃ line s1 s2, line ∈ lines ∧ line = s1 +:+ String "000" s2.
Proof.
  induction lines as [|line lines IH]; simpl.
  - split; [done|]. intros (line & _ & _ & Hin & _). by apply elem_of_nil in Hin.
  - destruct (has_zero_rune line) eqn:Hline.
    + split; [|done]. intros _.
      apply has_zero_rune_spec in Hline as (s1 & s2 & ->).
      eexists _, s1, s2. split; [by left|done].
    + rewrite IH. split.
      * intros (l & s1 & s2 & Hin & ->). eexists _, s1, s2. split; [by right|done].
      * intros (l & s1 & s2 & Hin & ->). apply elem_of_cons in Hin as [<-|Hin].
        -- assert (has_zero_rune (s1 +:+ String "000" s2) = true) as Hz.
           { apply has_zero_rune_spec. by exists s1, s2. }
           congruence.
        -- by eexists _, s1, s2.
Qed.

(** ** The differ with an empty side *)

Lemma len_pos {A} (l : list A) : l ≠ [] → 0 < len l.
Proof.
  destruct l; [done|]. intros _. rewrite len_cons. pose proof (len_nonneg l). lia.
Qed.

Lemma dp_total_of_fill (lines1 lines2 : list string) dp :
  fill_table lines1 lines2 = Ok dp →
  ∀ i j, 0 ≤ i ≤ len lines1 → 0 ≤ j ≤ len lines2 → ∃ v, get2 dp i j = Ok v.
Proof.
  intros Hfill i j Hi Hj.
  destruct (fill_table_spec lines1 lines2) as (dp' & Hfill' & Hspec).
  assert (dp' = dp) as -> by congruence.
  destruct (Hspec i j Hi Hj) as (v & Hv & _). by exists v.
Qed.

(** X2. Against an empty sequence the script is a single operation over the
    whole of the other sequence: one Delete when sequence 2 is empty,
    one Insert when sequence 1 is empty. *)
Theorem computeDiff_empty_side (lines : list string) :
  lines ≠ [] →
  computeDiff lines [] = Ok [mkEdit "delete" 0 (len lines) 0 0] ∧
  computeDiff [] lines = Ok [mkEdit "insert" 0 0 0 (len lines)].
Proof.
  intros Hpos%len_pos. split.
  - unfold computeDiff.
    destruct (fill_table_spec lines []) as (dp & Hfill & _). rewrite Hfill, ret_bind.
    pose proof (dp_total_of_fill _ _ _ Hfill) as Hdp.
    change (len (@nil string)) with 0 in *.
    rewrite (while_true backtrack_cond (backtrack_step lines [] dp) _ _
               (0, 0, [mkEdit "delete" 0 (len lines) 0 0])).
    + destruct (Z.to_nat (len lines + 0)) as [|fuel] eqn:Hfuel; [lia|].
      by rewrite while_false.
    + unfold backtrack_cond. f_equal. apply bool_decide_eq_true. lia.
    + unfold backtrack_step.
      destruct (equal_cond_spec lines [] (len lines) 0) as ([] & -> & He);
        [lia|done| |].
      { destruct He as [He _]. destruct He as (_ & ? & _); [done|lia]. }
      rewrite ret_bind.
      destruct (delete_cond_spec lines [] dp Hdp (len lines) 0) as (c & Hc & Hiff);
        [lia|done|].
      assert (c = true) as -> by (apply Hiff; split; [lia|by left]).
      rewrite Hc, ret_bind.
      destruct (delete_run_spec lines [] dp Hdp (len lines) 0)
        as (i' & -> & Hi' & Hend); [lia|done|done|].
      rewrite ret_bind.
      assert (i' = 0) as ->.
      { destruct (delete_cond_spec lines [] dp Hdp i' 0) as (c' & Hc' & Hiff');
          [lia|done|].
        rewrite Hend in Hc'. injection Hc' as <-.
        destruct (decide (i' = 0)); [done|].
        assert (false = true); [|done]. apply Hiff'. split; [lia|by left]. }
      by replace (len lines - 1 + 1) with (len lines) by lia.
  - unfold computeDiff.
    destruct (fill_table_spec [] lines) as (dp & Hfill & _). rewrite Hfill, ret_bind.
    pose proof (dp_total_of_fill _ _ _ Hfill) as Hdp.
    change (len (@nil string)) with 0 in *.
    rewrite (while_true backtrack_cond (backtrack_step [] lines dp) _ _
               (0, 0, [mkEdit "insert" 0 0 0 (len lines)])).
    + destruct (Z.to_nat (0 + len lines)) as [|fuel] eqn:Hfuel; [lia|].
      by rewrite while_false.
    + unfold backtrack_cond. f_equal. apply bool_decide_eq_true. lia.
    + unfold backtrack_step.
      destruct (equal_cond_spec [] lines 0 (len lines)) as ([] & -> & He);
        [done|lia| |].
      { destruct He as [He _]. destruct He as (? & _); [done|lia]. }
      rewrite ret_bind.
      destruct (delete_cond_spec [] lines dp Hdp 0 (len lines)) as ([] & -> & Hd);
        [done|lia| |].
      { destruct Hd as [Hd _]. destruct Hd as (? & _); [done|lia]. }
      rewrite ret_bind.
      destruct (insert_cond_spec [] lines dp Hdp 0 (len lines)) as (c & Hc & Hiff);
        [done|lia|].
      assert (c = true) as -> by (apply Hiff; split; [lia|by left]).
      destruct (insert_run_spec [] lines dp Hdp 0 (len lines))
        as (j' & -> & Hj' & Hend); [done|lia|done|].
      rewrite ret_bind.
      assert (j' = 0) as ->.
      { destruct (insert_cond_spec [] lines dp Hdp 0 j') as (c' & Hc' & Hiff');
          [done|lia|].
        rewrite Hend in Hc'. injection Hc' as <-.
        destruct (decide (j' = 0)); [done|].
        assert (false = true); [|done]. apply Hiff'. split; [lia|by left]. }
      by replace (len lines - 1 + 1) with (len lines) by lia.
Qed.

Lemma computeDiff_empty_side_witness :
  computeDiff ["a"; "b"] [] = Ok [mkEdit "delete" 0 2 0 0] ∧
  computeDiff [] ["a"; "b"] = Ok [mkEdit "insert" 0 0 0 2].
Proof. apply (computeDiff_empty_side ["a"; "b"]). discriminate. Defined.

(** ** Runs are maximal *)

(** The condition under which the backtracking extends a run of the
    given kind. *)
Definition run_cond (lines1 lines2 : list string) (dp : list (list Z))
    (typ : string) (i j : Z) : res bool :=
  if decide (typ = "equal") then equal_cond lines1 lines2 i j
  else if decide (typ = "delete") then delete_cond dp i j
  else insert_cond dp i j.

Definition kinds_alternate (edits : list Edit) : Prop :=
  ∀ k e e', edits !! k = Some e → edits !! S k = Some e' → Typ e ≠ Typ e'.

(** An iteration of the outer loop emits an operation of a kind whose
    condition holds where the iteration starts and fails where it
    ends. *)
Lemma backtrack_step_kind (lines1 lines2 : list string) dp i j edits :
  (∀ i j, 0 ≤ i ≤ len lines1 → 0 ≤ j ≤ len lines2 → ∃ v, get2 dp i j = Ok v) →
  0 ≤ i ≤ len lines1 → 0 ≤ j ≤ len lines2 → 0 < i ∨ 0 < j →
  ∃ i' j' e,
    backtrack_step lines1 lines2 dp (i, j, edits) = Ok (i', j', e :: edits) ∧
    0 ≤ i' ≤ i ∧ 0 ≤ j' ≤ j ∧ i' + j' < i + j ∧
    run_cond lines1 lines2 dp (Typ e) i j = Ok true ∧
    run_cond lines1 lines2 dp (Typ e) i' j' = Ok false.
Proof.
  intros Hdp Hi Hj Hpos. unfold backtrack_step.
  destruct (equal_cond_spec lines1 lines2 i j) as ([] & Hc & _); [lia..| |];
    rewrite Hc, ret_bind.
  { destruct (equal_run_spec lines1 lines2 i j)
      as (i' & j' & -> & Hi' & Hj' & Hd & Hend & _); [lia..|done|].
    rewrite ret_bind. eexists i', j', _. split; [done|].
    split_and!; try lia; done. }
  destruct (delete_cond_spec lines1 lines2 dp Hdp i j) as ([] & Hc' & _); [lia..| |];
    rewrite Hc', ret_bind.
  { destruct (delete_run_spec lines1 lines2 dp Hdp i j)
      as (i' & -> & Hi' & Hend); [lia..|done|].
    rewrite ret_bind. eexists i', j, _. split; [done|].
    split_and!; try lia; done. }
  assert (insert_cond dp i j = Ok true) as Hins.
  { apply insert_cond_otherwise with lines1 lines2; (done || lia). }
  destruct (insert_run_spec lines1 lines2 dp Hdp i j)
    as (j' & -> & Hj' & Hend); [lia..|done|].
  rewrite ret_bind. eexists i, j', _. split; [done|].
  split_and!; try lia; done.
Qed.

(** X3. No two neighbours in the edit list of [computeDiff] have the same
    kind: every Equal, Delete and Insert operation is a whole run. *)
Theorem computeDiff_kinds_alternate (lines1 lines2 : list string) :
  ∃ edits, computeDiff lines1 lines2 = Ok edits ∧ kinds_alternate edits.
Proof.
  unfold computeDiff.
  destruct (fill_table_spec lines1 lines2) as (dp & Hfill & _).
  rewrite Hfill, ret_bind.
  pose proof (dp_total_of_fill _ _ _ Hfill) as Hdp.
  destruct (while_total
              (λ st : Z * Z * list Edit,
                 0 ≤ st.1.1 ≤ len lines1 ∧ 0 ≤ st.1.2 ≤ len lines2 ∧
                 (∀ e es, st.2 = e :: es →
                    run_cond lines1 lines2 dp (Typ e) st.1.1 st.1.2 = Ok false) ∧
                 kinds_alternate st.2)
              (λ st, Z.to_nat (st.1.1 + st.1.2))
              backtrack_cond (backtrack_step lines1 lines2 dp))
    with (fuel := S (Z.to_nat (len lines1 + len lines2)))
         (s := (len lines1, len lines2, @nil Edit))
    as ([[i j] edits] & -> & (_ & _ & _ & Halt) & _).
  - intros [[i j] edits] (Hi & Hj & Hhead & Halt). simpl in *.
    eexists. split; [done|]. intros Hpos%bool_decide_eq_true.
    destruct (backtrack_step_kind lines1 lines2 dp i j edits)
      as (i' & j' & e & -> & ? & ? & ? & Htrue & Hfalse); [done..|lia|].
    eexists. split; [done|]. simpl. split_and!; try lia.
    + by intros e0 es [= <- _].
    + intros [|k] e1 e2 Hk Hk'; simpl in *.
      * injection Hk as <-. destruct edits as [|e0 es]; [done|].
        injection Hk' as <-. intros Heq.
        specialize (Hhead e0 es eq_refl). congruence.
      * by eapply Halt.
  - simpl. pose proof (len_nonneg lines1). pose proof (len_nonneg lines2).
    split_and!; try lia; [done|]. by intros k e e'.
  - simpl. lia.
  - rewrite ret_bind. by exists edits.
Qed.

(** ** Slices *)

Lemma slice_app {A} (l : list A) a b c :
  0 ≤ a ≤ b → b ≤ c → slice l a b ++ slice l b c = slice l a c.
Proof.
  intros Hab Hbc. unfold slice.
  replace (Z.to_nat b) with (Z.to_nat a + Z.to_nat (b - a))%nat by lia.
  rewrite <-drop_drop, take_take_drop. f_equal. lia.
Qed.

Lemma slice_lookup {A} (l : list A) a b (d : nat) :
  0 ≤ a → slice l a b !! d =
    if decide (Z.of_nat d < b - a) then l !! Z.to_nat (a + Z.of_nat d) else None.
Proof.
  intros Ha. unfold slice. case_decide.
  - rewrite lookup_take_lt by lia. rewrite lookup_drop. f_equal. lia.
  - apply lookup_take_ge. lia.
Qed.

(** Two slices of the same length whose lines agree offset by offset. *)
Lemma slice_ext {A} (l1 l2 : list A) a1 a2 k :
  0 ≤ a1 → 0 ≤ a2 →
  (∀ d, 0 ≤ d < k → l1 !! Z.to_nat (a1 + d) = l2 !! Z.to_nat (a2 + d)) →
  slice l1 a1 (a1 + k) = slice l2 a2 (a2 + k).
Proof.
  intros Ha1 Ha2 Hsame. apply list_eq. intros d.
  rewrite !slice_lookup by done.
  replace (a1 + k - a1) with k by lia. replace (a2 + k - a2) with k by lia.
  case_decide; [|done]. apply Hsame. lia.
Qed.

Lemma slice_all {A} (l : list A) : slice l 0 (len l) = l.
Proof.
  unfold slice, len. rewrite Z.sub_0_r, Nat2Z.id. simpl. apply firstn_all.
Qed.

(** ** What a script keeps, deletes and inserts *)

Definition equal_lines (edits : list Edit) : Z :=
  foldr (λ e acc, if decide (Typ e = "equal") then End1 e - Start1 e + acc else acc)
    0 edits.

(** The lines of the Equal operations, of the Delete operations and of
    the Insert operations, in list order. *)
Definition equal_text (lines1 : list string) (edits : list Edit) : list string :=
  concat ((λ e, if decide (Typ e = "equal")
                then slice lines1 (Start1 e) (End1 e) else []) <$> edits).

Definition deleted_text (lines1 : list string) (edits : list Edit) : list string :=
  concat ((λ e, if decide (Typ e = "delete")
                then slice lines1 (Start1 e) (End1 e) else []) <$> edits).

Definition inserted_text (lines2 : list string) (edits : list Edit) : list string :=
  concat ((λ e, if decide (Typ e = "insert")
                then slice lines2 (Start2 e) (End2 e) else []) <$> edits).

Section scripts.
Variables lines1 lines2 : list string.

Lemma edit_ok_equal_slices e :
  edit_ok lines1 lines2 e → Typ e = "equal" → 0 ≤ Start1 e → 0 ≤ Start2 e →
  slice lines1 (Start1 e) (End1 e) = slice lines2 (Start2 e) (End2 e).
Proof.
  intros [(_ & ? & Hlen & Hsame)|[(Ht & _)|(Ht & _)]] Hequal Hs1 Hs2; [|congruence..].
  replace (End1 e) with (Start1 e + (End1 e - Start1 e)) by lia.
  replace (End2 e) with (Start2 e + (End1 e - Start1 e)) by lia.
  by apply slice_ext.
Qed.

(** A tiling by Equal operations only: from its start on the two
    sequences are the same. *)
Lemma tiles_equal_drop i j edits :
  tiles lines1 lines2 i j edits → Forall (λ e, Typ e = "equal") edits →
  0 ≤ i → 0 ≤ j → drop (Z.to_nat i) lines1 = drop (Z.to_nat j) lines2.
Proof.
  induction 1 as [|e es He Htiles IH]; intros Hall Hi Hj.
  - unfold len. by rewrite !Nat2Z.id, !drop_all.
  - inversion Hall as [|e0 es0 Ht Hes]; subst.
    pose proof (edit_ok_le _ _ _ He) as (? & ? & _).
    rewrite <-(slice_drop lines1 (Start1 e) (End1 e)) by lia.
    rewrite <-(slice_drop lines2 (Start2 e) (End2 e)) by lia.
    rewrite IH by (done || lia). f_equal. by apply edit_ok_equal_slices.
Qed.

(** The counts of a tiling: kept plus deleted lines make up what is
    left of sequence 1, kept plus inserted lines what is left of
    sequence 2. *)
Lemma tiles_line_counts i j edits :
  tiles lines1 lines2 i j edits →
  equal_lines edits + deleted_lines edits = len lines1 - i ∧
  equal_lines edits + inserted_lines edits = len lines2 - j.
Proof.
  induction 1 as [|e es He Htiles [IH1 IH2]]; simpl; [lia|].
  destruct He as [(Ht & ? & ? & _)|[(Ht & ? & ?)|(Ht & ? & ?)]]; rewrite Ht;
    simpl; lia.
Qed.

(** The kept lines form a common subsequence of what is left of the two
    sequences. *)
Lemma tiles_equal_text_sublist i j edits :
  tiles lines1 lines2 i j edits → 0 ≤ i → 0 ≤ j →
  equal_text lines1 edits `sublist_of` drop (Z.to_nat i) lines1 ∧
  equal_text lines1 edits `sublist_of` drop (Z.to_nat j) lines2 ∧
  len (equal_text lines1 edits) = equal_lines edits.
Proof.
  unfold equal_text.
  induction 1 as [|e es He Htiles IH]; intros Hi Hj.
  - simpl. split_and!; [apply sublist_nil_l..|done].
  - pose proof (edit_ok_le _ _ _ He) as (? & ? & _).
    pose proof (tiles_le _ _ _ _ _ Htiles) as [? ?].
    destruct IH as (IH1 & IH2 & IH3); [lia..|].
    rewrite fmap_cons. simpl concat. simpl equal_lines.
    rewrite <-(slice_drop lines1 (Start1 e) (End1 e)) by lia.
    rewrite <-(slice_drop lines2 (Start2 e) (End2 e)) by lia.
    case_decide as Ht.
    + split_and!.
      * by apply sublist_app.
      * rewrite (edit_ok_equal_slices e) by done. by apply sublist_app.
      * rewrite len_app, IH3, slice_length by lia. lia.
    + simpl. split_and!; [by apply sublist_inserts_l..|done].
Qed.
End scripts.

(** X4. The script accounts for every line: the lines it keeps and deletes
    are as many as sequence 1 has, the lines it keeps and inserts as
    many as sequence 2 has. It never keeps more lines than a longest
    common subsequence has, so it deletes and inserts at least as many
    lines as a minimal script. *)
Theorem computeDiff_line_counts (lines1 lines2 : list string) (L : Z) :
  lcs_length lines1 lines2 L →
  ∃ edits, computeDiff lines1 lines2 = Ok edits ∧
    equal_lines edits + deleted_lines edits = len lines1 ∧
    equal_lines edits + inserted_lines edits = len lines2 ∧
    equal_lines edits ≤ L ∧
    len lines1 - L ≤ deleted_lines edits ∧
    len lines2 - L ≤ inserted_lines edits.
Proof.
  intros [_ Hmax].
  destruct (computeDiff_spec lines1 lines2) as (edits & Hrun & Htiles).
  exists edits. split; [done|].
  destruct (tiles_line_counts _ _ _ _ _ Htiles) as [Hc1 Hc2].
  destruct (tiles_equal_text_sublist _ _ _ _ _ Htiles) as (Hs1 & Hs2 & Hlen); [done..|].
  specialize (Hmax _ Hs1 Hs2). lia.
Qed.

Lemma computeDiff_line_counts_witness :
  ∃ edits, computeDiff ["a"; "x"] ["a"] = Ok edits ∧
    equal_lines edits + deleted_lines edits = len ["a"; "x"] ∧
    equal_lines edits + inserted_lines edits = len ["a"] ∧
    equal_lines edits ≤ 1 ∧
    len ["a"; "x"] - 1 ≤ deleted_lines edits ∧
    len ["a"] - 1 ≤ inserted_lines edits.
Proof.
  apply (computeDiff_line_counts ["a"; "x"] ["a"] 1). split.
  - exists ["a"]. split_and!; [|done..].
    apply (sublist_inserts_r ["x"] ["a"] ["a"]). done.
  - intros s _ Hs%sublist_length. unfold len. simpl in Hs. lia.
Defined.

(** ** The lines of the hunks, by their marks *)

(** The text of the lines that start with the character [c]. *)
Definition marked (c : ascii) (lines : list string) : list string :=
  omap (λ line,
    match line with
    | EmptyString => None
    | String c' text => if decide (c' = c) then Some text else None
    end) lines.

Lemma marked_app c lines lines' :
  marked c (lines ++ lines') = marked c lines ++ marked c lines'.
Proof. apply omap_app. Qed.

Lemma marked_prefixed c (p : ascii) (lines : list string) :
  marked c ((λ s, String p "" +:+ s) <$> lines) = if decide (p = c) then lines else [].
Proof.
  unfold marked. induction lines as [|line lines IH]; [by case_decide|].
  rewrite fmap_cons, append_String, append_empty. cbn [omap list_omap].
  rewrite IH. by case_decide.
Qed.

Lemma marked_header c s1 l1 s2 l2 body :
  c ≠ "@"%char →
  marked c (hunk_header s1 l1 s2 l2 :: body) = marked c body.
Proof.
  intros Hc. unfold hunk_header. rewrite append_String. unfold marked. simpl.
  rewrite decide_False; [done|]. by intros <-.
Qed.

Lemma marked_edit_lines (lines1 lines2 : list string) e :
  marked "-" (edit_lines lines1 lines2 e)
  = (if decide (Typ e = "delete") then slice lines1 (Start1 e) (End1 e) else []) ∧
  marked "+" (edit_lines lines1 lines2 e)
  = (if decide (Typ e = "insert") then slice lines2 (Start2 e) (End2 e) else []).
Proof.
  unfold edit_lines.
  destruct (decide (Typ e = "equal")) as [Ht|]; [rewrite Ht, !marked_prefixed; done|].
  destruct (decide (Typ e = "delete")) as [Ht|]; [rewrite Ht, !marked_prefixed; done|].
  destruct (decide (Typ e = "insert")) as [Ht|]; [rewrite !marked_prefixed; done|].
  done.
Qed.

Lemma marked_edits_lines (lines1 lines2 : list string) edits :
  marked "-" (concat (edit_lines lines1 lines2 <$> edits)) = deleted_text lines1 edits ∧
  marked "+" (concat (edit_lines lines1 lines2 <$> edits)) = inserted_text lines2 edits.
Proof.
  unfold deleted_text, inserted_text.
  induction edits as [|e edits [IH1 IH2]]; [done|].
  rewrite !fmap_cons. simpl concat. rewrite !marked_app, IH1, IH2.
  destruct (marked_edit_lines lines1 lines2 e) as [-> ->]. done.
Qed.

Lemma text_of_equal (lines1 lines2 : list string) eqs :
  Forall (λ e, is_equal e = true) eqs →
  deleted_text lines1 eqs = [] ∧ inserted_text lines2 eqs = [].
Proof.
  unfold deleted_text, inserted_text.
  induction 1 as [|e eqs He%is_equal_true _ [IH1 IH2]]; [done|].
  rewrite !fmap_cons. simpl concat. rewrite IH1, IH2, He. done.
Qed.

Lemma deleted_text_app lines1 edits edits' :
  deleted_text lines1 (edits ++ edits')
  = deleted_text lines1 edits ++ deleted_text lines1 edits'.
Proof. unfold deleted_text. by rewrite fmap_app, concat_app. Qed.

Lemma inserted_text_app lines2 edits edits' :
  inserted_text lines2 (edits ++ edits')
  = inserted_text lines2 edits ++ inserted_text lines2 edits'.
Proof. unfold inserted_text. by rewrite fmap_app, concat_app. Qed.

(** The minus and plus lines of the hunks of a list of operations whose
    ranges lie inside the sequences. *)
Lemma hunks_marked (lines1 lines2 : list string) context edits gss :
  groups context edits gss → Forall (in_range lines1 lines2) edits →
  ∃ hunks, hunks_of_groups lines1 lines2 context gss = Ok hunks ∧
    marked "-" (concat hunks) = deleted_text lines1 edits ∧
    marked "+" (concat hunks) = inserted_text lines2 edits.
Proof.
  induction 1 as [eqs Heqs|eqs g gs rest gss Heqs Hg Hgs Hrest _ IH]; intros Hall.
  { exists []. split; [done|]. by destruct (text_of_equal lines1 lines2 eqs Heqs) as [-> ->]. }
  apply Forall_app in Hall as [_ Hall]. apply Forall_app in Hall as [Hgroup Hall].
  destruct (IH Hall) as (hunks & Hhunks & IH1 & IH2).
  destruct (last (g :: gs)) as [lst|] eqn:Hlast; [|by apply last_None in Hlast].
  pose proof (createSingleHunk_spec lines1 lines2 g gs lst context Hgroup Hlast) as Hhunk.
  cbv zeta in Hhunk. eexists. split.
  { simpl. rewrite Hhunk, ret_bind, Hhunks. done. }
  rewrite !deleted_text_app, !inserted_text_app.
  destruct (text_of_equal lines1 lines2 eqs Heqs) as [-> ->].
  destruct (marked_edits_lines lines1 lines2 (g :: gs)) as [Hm1 Hm2].
  cbn [concat]. rewrite !marked_app, !marked_header by done.
  rewrite !marked_app, !marked_prefixed, Hm1, Hm2, IH1, IH2.
  simpl. by rewrite !app_nil_r.
Qed.

(** X6. The hunks lose no change and invent none, whatever the context: the
    lines marked with a minus are, in order, exactly the lines of
    sequence 1 that the script deletes, and the lines marked with a plus
    exactly the lines of sequence 2 that it inserts. *)
Theorem generateHunks_marks_are_the_changes (lines1 lines2 : list string) (context : Z) :
  ∃ edits hunks,
    computeDiff lines1 lines2 = Ok edits ∧
    generateHunks lines1 lines2 context = Ok hunks ∧
    marked "-" (concat hunks) = deleted_text lines1 edits ∧
    marked "+" (concat hunks) = inserted_text lines2 edits.
Proof.
  destruct (generateHunks_total lines1 lines2 context)
    as (edits & gss & hunks & Hdiff & Htiles & Hgroups & Hhunks & Hgen).
  destruct (hunks_marked lines1 lines2 context edits gss Hgroups)
    as (hunks' & Hhunks' & Hm1 & Hm2).
  { by apply tiles_in_range with 0 0. }
  assert (hunks' = hunks) as -> by congruence.
  by exists edits, hunks.
Qed.

(** ** The shape of a hunk *)

Lemma hunks_of_groups_Forall (lines1 lines2 : list string) context
    (P : list string → Prop) gss hunks :
  (∀ group hunk, group ∈ gss →
     createSingleHunk lines1 lines2 group context = Ok hunk → P hunk) →
  hunks_of_groups lines1 lines2 context gss = Ok hunks → Forall P hunks.
Proof.
  revert hunks. induction gss as [|group gss IH]; intros hunks HP; simpl.
  - intros [= <-]. constructor.
  - intros (hunk & Hhunk & Hrest)%bind_Ok.
    apply bind_Ok in Hrest as (hs & Hhs & Heq). injection Heq as <-. constructor.
    + apply (HP group); [by left|done].
    + apply IH; [|done]. intros g h Hin. apply HP. by right.
Qed.

Lemma groups_elem_in_range lines1 lines2 context edits gss group :
  groups context edits gss → Forall (in_range lines1 lines2) edits →
  group ∈ gss → group ≠ [] ∧ Forall (in_range lines1 lines2) group.
Proof.
  intros Hgroups Hall Hin.
  pose proof (groups_nonempty _ _ _ Hgroups) as Hne.
  pose proof (groups_in_range lines1 lines2 _ _ _ Hgroups Hall) as Hr.
  rewrite Forall_forall in Hne, Hr. split; [by apply Hne|by apply Hr].
Qed.

(** A line that starts with a space, a minus or a plus. *)
Definition body_line (line : string) : Prop :=
  ∃ text, line = " " +:+ text ∨ line = "-" +:+ text ∨ line = "+" +:+ text.

Lemma body_lines_prefixed (p : string) (lines : list string) :
  p = " " ∨ p = "-" ∨ p = "+" → Forall body_line ((λ s, p +:+ s) <$> lines).
Proof.
  intros Hp. apply Forall_fmap, Forall_forall. intros text _. exists text.
  destruct Hp as [-> | [-> | ->]]; tauto.
Qed.

Lemma body_lines_edit (lines1 lines2 : list string) e :
  Forall body_line (edit_lines lines1 lines2 e).
Proof.
  unfold edit_lines. repeat case_decide; try (apply body_lines_prefixed; tauto).
  constructor.
Qed.

(** X7. Every hunk, for every context, is a header line "@@ -a,b +c,d @@"
    followed by at least one line, and each of these lines starts with
    a space, a minus or a plus. *)
Theorem generateHunks_hunk_shape (lines1 lines2 : list string) (context : Z) :
  ∃ hunks, generateHunks lines1 lines2 context = Ok hunks ∧
    ∀ hunk, hunk ∈ hunks →
      ∃ s1 l1 s2 l2 body,
        hunk = hunk_header s1 l1 s2 l2 :: body ∧ body ≠ [] ∧ Forall body_line body.
Proof.
  destruct (generateHunks_total lines1 lines2 context)
    as (edits & gss & hunks & Hdiff & Htiles & Hgroups & Hhunks & Hgen).
  exists hunks. split; [done|].
  apply Forall_forall.
  apply (hunks_of_groups_Forall lines1 lines2 context _ gss); [|done].
  intros group hunk Hin Hhunk.
  assert (Forall (edit_ok lines1 lines2) edits) as Hok.
  { apply Forall_lookup. intros k e Hk.
    by destruct (tiles_lookup lines1 lines2 0 0 edits k e Htiles Hk) as (_ & _ & ? & _). }
  assert (group ≠ [] ∧ Forall (in_range lines1 lines2) group ∧
          Forall (edit_ok lines1 lines2) group) as (Hne & Hrange & Hgok).
  { destruct (groups_elem_in_range lines1 lines2 context edits gss group)
      as [? ?]; [done|by apply tiles_in_range with 0 0|done|].
    split_and!; [done..|].
    clear -Hgroups Hin Hok. induction Hgroups as [|eqs g gs rest gss _ _ _ _ _ IH].
    - by apply elem_of_nil in Hin.
    - apply Forall_app in Hok as [_ Hok]. apply Forall_app in Hok as [Hg Hok].
      apply elem_of_cons in Hin as [->|Hin]; [done|by apply IH]. }
  destruct group as [|g gs]; [done|].
  destruct (last (g :: gs)) as [lst|] eqn:Hlast; [|by apply last_None in Hlast].
  rewrite (createSingleHunk_spec lines1 lines2 g gs lst context Hrange Hlast) in Hhunk.
  injection Hhunk as <-. eexists _, _, _, _, _. split; [done|]. split.
  - intros Hnil. apply (f_equal length) in Hnil.
    assert (0 < len (edit_lines lines1 lines2 g)) as Hpos.
    { inversion Hgok as [|g0 gs0 Hg _]; subst. inversion Hrange as [|g0 gs0 Hr _]; subst.
      destruct Hr as (? & ? & ? & ?).
      destruct Hg as [(Ht & ? & ? & _)|[(Ht & ? & ?)|(Ht & ? & ?)]].
      - rewrite (edit_lines_equal _ _ _ Ht). unfold len. rewrite length_fmap.
        fold (len (slice lines1 (Start1 g) (End1 g))). rewrite slice_length by lia. lia.
      - rewrite (edit_lines_delete _ _ _ Ht). unfold len. rewrite length_fmap.
        fold (len (slice lines1 (Start1 g) (End1 g))). rewrite slice_length by lia. lia.
      - rewrite (edit_lines_insert _ _ _ Ht). unfold len. rewrite length_fmap.
        fold (len (slice lines2 (Start2 g) (End2 g))). rewrite slice_length by lia. lia. }
    unfold len in Hpos. rewrite !length_app in Hnil. cbn [length] in Hnil. lia.
  - rewrite !Forall_app.
    split_and!; [apply body_lines_prefixed; tauto|apply body_lines_edit|
                 |apply body_lines_prefixed; tauto].
    apply Forall_concat, Forall_fmap, Forall_forall. intros e _.
    apply body_lines_edit.
Qed.

(** ** No hunks means no difference *)

Lemma generateHunks_none_same (lines1 lines2 : list string) (context : Z) :
  generateHunks lines1 lines2 context = Ok [] → lines1 = lines2.
Proof.
  intros Hnone.
  destruct (generateHunks_total lines1 lines2 context)
    as (edits & gss & hunks & Hdiff & Htiles & _ & _ & Hgen).
  assert (hunks = []) as -> by congruence.
  unfold generateHunks in Hgen. rewrite Hdiff, ret_bind in Hgen.
  destruct (decide (Forall (λ e, Typ e = "equal") edits)) as [Hall|Hsome].
  - by apply (tiles_equal_drop lines1 lines2 0 0 edits Htiles Hall).
  - apply not_Forall_Exists in Hsome; [|intros e; apply _].
    apply Exists_exists in Hsome as (c & Hin & Hc).
    by destruct (createHunksFromEdits_change lines1 lines2 edits context []
                   (ex_intro _ c (conj Hin Hc)) Hgen).
Qed.

(** X9. For every context, also a negative one, the hunk list is empty
    exactly when the two sequences are the same: a difference is never
    passed over in silence. *)
Theorem generateHunks_empty_iff_same (lines1 lines2 : list string) (context : Z) :
  generateHunks lines1 lines2 context = Ok [] ↔ lines1 = lines2.
Proof.
  split; [apply generateHunks_none_same|intros <-; apply generateHunks_same].
Qed.

(** ** The hunks as a patch *)

(** The lines of a hunk body that belong to one side: the text of the
    lines that start with a space or with [c]. *)
Definition side (c : ascii) (body : list string) : list string :=
  omap (λ line,
    match line with
    | EmptyString => None
    | String c' text =>
        if decide (c' = " "%char ∨ c' = c) then Some text else None
    end) body.

(** A hunk by its parts, and the lines [createSingleHunk] makes of them. *)
Record Hunk : Type := mkHunk {
  old_start : Z;
  old_length : Z;
  new_start : Z;
  new_length : Z;
  hunk_body : list string
}.

Definition render (h : Hunk) : list string :=
  hunk_header (old_start h) (old_length h) (new_start h) (new_length h)
  :: hunk_body h.

(** Patching: each window [(a, n, old, new)], taken in order, must lie
    behind the previous one and hold the lines [old] at the 0-based
    index [a]; the lines between the windows are copied and each window
    is replaced by [new]. *)
Fixpoint replace_windows (lines : list string) (pos : Z)
    (windows : list (Z * Z * list string * list string)) : option (list string) :=
  match windows with
  | [] => Some (drop (Z.to_nat pos) lines)
  | (a, n, old, new) :: windows' =>
      if decide (pos ≤ a ∧ 0 ≤ n ∧ a + n ≤ len lines ∧ slice lines a (a + n) = old)
      then
        rest ← replace_windows lines (a + n) windows';
        Some (slice lines pos a ++ new ++ rest)
      else None
  end.

(** A hunk read forwards, as a change of file 1 into file 2, and
    backwards.  The start in the header is the 0-based index plus 1. *)
Definition forward (h : Hunk) : Z * Z * list string * list string :=
  (old_start h - 1, old_length h, side "-" (hunk_body h), side "+" (hunk_body h)).

Definition backward (h : Hunk) : Z * Z * list string * list string :=
  (new_start h - 1, new_length h, side "+" (hunk_body h), side "-" (hunk_body h)).

Lemma side_app c body body' : side c (body ++ body') = side c body ++ side c body'.
Proof. apply omap_app. Qed.

Lemma side_prefixed c (p : ascii) (lines : list string) :
  side c ((λ s, String p "" +:+ s) <$> lines)
  = if decide (p = " "%char ∨ p = c) then lines else [].
Proof.
  unfold side. induction lines as [|line lines IH]; [by case_decide|].
  rewrite fmap_cons, append_String, append_empty. cbn [omap list_omap].
  rewrite IH. by case_decide.
Qed.

Lemma side_context c (lines : list string) :
  side c ((λ s, " " +:+ s) <$> lines) = lines.
Proof. rewrite side_prefixed. rewrite decide_True; [done|by left]. Qed.

Lemma slice_slice {A} (l : list A) i i' a b :
  0 ≤ i → 0 ≤ a → b ≤ i' - i → slice (slice l i i') a b = slice l (i + a) (i + b).
Proof.
  intros Hi Ha Hb. apply list_eq. intros d. rewrite !slice_lookup by lia.
  replace (i + b - (i + a)) with (b - a) by lia.
  case_decide; [|done].
  rewrite decide_True by lia. f_equal. lia.
Qed.

Section patch.
Variables lines1 lines2 : list string.

Lemma side_edit_lines e :
  edit_ok lines1 lines2 e → 0 ≤ Start1 e → 0 ≤ Start2 e →
  side "-" (edit_lines lines1 lines2 e) = slice lines1 (Start1 e) (End1 e) ∧
  side "+" (edit_lines lines1 lines2 e) = slice lines2 (Start2 e) (End2 e).
Proof.
  intros He Hs1 Hs2.
  destruct He as [(Ht & Hlt & Hlen & Hsame)|[(Ht & ? & Hend)|(Ht & Hend & ?)]].
  - rewrite (edit_lines_equal lines1 lines2 e Ht), !side_context.
    split; [done|]. apply edit_ok_equal_slices; [|done..].
    left. by split_and!.
  - rewrite (edit_lines_delete lines1 lines2 e Ht), !side_prefixed.
    rewrite decide_True by (by right).
    rewrite decide_False by (intros [?|?]; discriminate).
    by rewrite Hend, slice_empty.
  - rewrite (edit_lines_insert lines1 lines2 e Ht), !side_prefixed.
    rewrite decide_False by (intros [?|?]; discriminate).
    rewrite decide_True by (by right).
    by rewrite Hend, slice_empty.
Qed.

(** The two sides of the lines of a run of operations are the two
    ranges the run covers. *)
Lemma path_sides i j l i' j' :
  path lines1 lines2 i j l i' j' → 0 ≤ i → 0 ≤ j →
  side "-" (concat (edit_lines lines1 lines2 <$> l)) = slice lines1 i i' ∧
  side "+" (concat (edit_lines lines1 lines2 <$> l)) = slice lines2 j j'.
Proof.
  induction 1 as [|e es i' j' He Hpath IH]; intros Hi Hj.
  - by rewrite !slice_empty.
  - pose proof (path_le _ _ _ _ _ _ _ Hpath) as [? ?].
    pose proof (edit_ok_le _ _ _ He) as (? & ? & _).
    destruct IH as [IH1 IH2]; [lia..|].
    destruct (side_edit_lines e He Hi Hj) as [Hside1 Hside2].
    rewrite fmap_cons. cbn [concat]. rewrite !side_app, Hside1, Hside2, IH1, IH2.
    by rewrite !slice_app by lia.
Qed.

(** Along Equal operations the two sequences agree. *)
Lemma path_equal_slices i j eqs i' j' :
  path lines1 lines2 i j eqs i' j' → Forall (λ e, is_equal e = true) eqs →
  0 ≤ i → 0 ≤ j → slice lines1 i i' = slice lines2 j j'.
Proof.
  induction 1 as [|e es i' j' He Hpath IH]; intros Hall Hi Hj.
  - by rewrite !slice_empty.
  - inversion Hall as [|e0 es0 Heq Hes]; subst. apply is_equal_true in Heq.
    pose proof (path_le _ _ _ _ _ _ _ Hpath) as [? ?].
    pose proof (edit_ok_le _ _ _ He) as (? & ? & _).
    rewrite <-(slice_app lines1 (Start1 e) (End1 e) i') by lia.
    rewrite <-(slice_app lines2 (Start2 e) (End2 e) j') by lia.
    rewrite IH by (done || lia). f_equal. by apply edit_ok_equal_slices.
Qed.

Lemma path_equal_part i j eqs i' j' a b :
  path lines1 lines2 i j eqs i' j' → Forall (λ e, is_equal e = true) eqs →
  0 ≤ i → 0 ≤ j → 0 ≤ a → b ≤ i' - i →
  slice lines1 (i + a) (i + b) = slice lines2 (j + a) (j + b).
Proof.
  intros Hpath Hall Hi Hj Ha Hb.
  destruct (path_equal _ _ _ _ _ _ _ Hpath Hall) as [Hdiag _].
  rewrite <-(slice_slice lines1 i i') by lia.
  rewrite <-(slice_slice lines2 j j') by lia.
  by rewrite (path_equal_slices i j eqs i' j').
Qed.

(** [patches p1 p2 hs]: the hunks lie in order behind [(p1, p2)], the
    two sequences agree between them and behind the last one, and the
    two sides of each body are the windows its header names. *)
Inductive patches : Z → Z → list Hunk → Prop :=
| patches_nil p1 p2 :
    drop (Z.to_nat p1) lines1 = drop (Z.to_nat p2) lines2 → patches p1 p2 []
| patches_cons p1 p2 h hs :
    p1 ≤ old_start h - 1 → 0 ≤ old_length h →
    old_start h - 1 + old_length h ≤ len lines1 →
    p2 ≤ new_start h - 1 → 0 ≤ new_length h →
    new_start h - 1 + new_length h ≤ len lines2 →
    slice lines1 p1 (old_start h - 1) = slice lines2 p2 (new_start h - 1) →
    side "-" (hunk_body h)
    = slice lines1 (old_start h - 1) (old_start h - 1 + old_length h) →
    side "+" (hunk_body h)
    = slice lines2 (new_start h - 1) (new_start h - 1 + new_length h) →
    patches (old_start h - 1 + old_length h) (new_start h - 1 + new_length h) hs →
    patches p1 p2 (h :: hs).

Lemma patches_forward p1 p2 hs :
  patches p1 p2 hs → 0 ≤ p1 → 0 ≤ p2 →
  replace_windows lines1 p1 (forward <$> hs) = Some (drop (Z.to_nat p2) lines2).
Proof.
  induction 1 as [p1 p2 Hsame|p1 p2 h hs ? ? ? ? ? ? Hgap Hold Hnew _ IH];
    intros Hp1 Hp2.
  - simpl. by rewrite Hsame.
  - rewrite fmap_cons. unfold forward at 1. cbn [replace_windows].
    rewrite decide_True by (by split_and!).
    rewrite IH by lia. simpl. f_equal.
    rewrite Hgap, Hnew, slice_drop by lia. by rewrite slice_drop by lia.
Qed.

Lemma patches_backward p1 p2 hs :
  patches p1 p2 hs → 0 ≤ p1 → 0 ≤ p2 →
  replace_windows lines2 p2 (backward <$> hs) = Some (drop (Z.to_nat p1) lines1).
Proof.
  induction 1 as [p1 p2 Hsame|p1 p2 h hs ? ? ? ? ? ? Hgap Hold Hnew _ IH];
    intros Hp1 Hp2.
  - simpl. by rewrite Hsame.
  - rewrite fmap_cons. unfold backward at 1. cbn [replace_windows].
    rewrite decide_True by (by split_and!).
    rewrite IH by lia. simpl. f_equal.
    rewrite <-Hgap, Hold, slice_drop by lia. by rewrite slice_drop by lia.
Qed.

Variable context : Z.
Hypothesis context_nonneg : 0 ≤ context.
Hypothesis double_fits : 2 * context ≤ int_max.
Hypothesis end1_fits : len lines1 + context < int_max.
Hypothesis end2_fits : len lines2 + context < int_max.

(** The hunk of a group with [a] lines of context in front of it and
    [d] lines behind it on both sides. *)
Lemma group_hunk_patch s1 s2 g gs e1 e2 a d :
  path lines1 lines2 s1 s2 (g :: gs) e1 e2 →
  0 ≤ a → a ≤ s1 → a ≤ s2 → 0 ≤ d → e1 + d ≤ len lines1 → e2 + d ≤ len lines2 →
  Z.max 0 (s1 - context) = s1 - a → Z.max 0 (s2 - context) = s2 - a →
  Z.min (len lines1) (e1 + context) = e1 + d →
  Z.min (len lines2) (e2 + context) = e2 + d →
  slice lines1 (s1 - a) s1 = slice lines2 (s2 - a) s2 →
  slice lines1 e1 (e1 + d) = slice lines2 e2 (e2 + d) →
  ∃ h, createSingleHunk lines1 lines2 (g :: gs) context = Ok (render h) ∧
       old_start h - 1 = s1 - a ∧ old_start h - 1 + old_length h = e1 + d ∧
       new_start h - 1 = s2 - a ∧ new_start h - 1 + new_length h = e2 + d ∧
       side "-" (hunk_body h) = slice lines1 (s1 - a) (e1 + d) ∧
       side "+" (hunk_body h) = slice lines2 (s2 - a) (e2 + d).
Proof.
  intros Hpath Ha Has1 Has2 Hd He1 He2 Hcs1 Hcs2 Hce1 Hce2 Hlead Htrail.
  destruct (path_head _ _ _ _ _ _ _ _ Hpath) as [Hg1 Hg2].
  destruct (path_last _ _ _ _ _ _ _ Hpath) as (lst & Hlast & Hl1 & Hl2); [done|].
  pose proof (path_le _ _ _ _ _ _ _ Hpath) as [? ?].
  destruct (path_sides _ _ _ _ _ Hpath) as [Hside1 Hside2]; [lia..|].
  unfold int_max in *.
  exists (mkHunk (s1 - a + 1) (e1 + d - (s1 - a)) (s2 - a + 1) (e2 + d - (s2 - a))
            (((λ s, " " +:+ s) <$> slice lines1 (s1 - a) s1) ++
             concat (edit_lines lines1 lines2 <$> g :: gs) ++
             ((λ s, " " +:+ s) <$> slice lines1 e1 (e1 + d)))).
  cbn [old_start old_length new_start new_length hunk_body].
  split_and!; [|lia..| |].
  - rewrite (createSingleHunk_spec lines1 lines2 g gs lst context);
      [|apply (path_in_range _ _ _ _ _ _ _ Hpath); lia|done].
    rewrite Hg1, Hg2, Hl1, Hl2.
    assert (max 0 (int_sub s1 context) = s1 - a) as ->.
    { rewrite max_is_Zmax. unfold int_sub. rewrite wrap_id; [done|].
      unfold int_min, int_max. lia. }
    assert (max 0 (int_sub s2 context) = s2 - a) as ->.
    { rewrite max_is_Zmax. unfold int_sub. rewrite wrap_id; [done|].
      unfold int_min, int_max. lia. }
    assert (min (len lines1) (int_add e1 context) = e1 + d) as ->.
    { rewrite min_is_Zmin. unfold int_add. rewrite wrap_id; [done|].
      unfold int_min, int_max. lia. }
    assert (min (len lines2) (int_add e2 context) = e2 + d) as ->.
    { rewrite min_is_Zmin. unfold int_add. rewrite wrap_id; [done|].
      unfold int_min, int_max. lia. }
    unfold render, int_add, int_sub. cbn [old_start old_length new_start new_length hunk_body].
    by rewrite !wrap_id by (unfold int_min, int_max; lia).
  - rewrite !side_app, !side_context, Hside1. by rewrite !slice_app by lia.
  - rewrite !side_app, !side_context, Hside2, Hlead, Htrail.
    by rewrite !slice_app by lia.
Qed.

(** The hunks of the groups of a tiling.  The list [suffix] is what the
    loop has not looked at yet, starting at [(i, j)], and [d] is the
    number of its lines that the previous hunk took as its trailing
    context. *)
Lemma hunks_patch suffix gss :
  groups context suffix gss → ∀ i j d,
  tiles lines1 lines2 i j suffix → 0 ≤ i → 0 ≤ j → 0 ≤ d →
  (i = 0 ∧ j = 0 ∧ d = 0) ∨ (stops (absorbed context) suffix ∧ d ≤ context) →
  ∃ hs, hunks_of_groups lines1 lines2 context gss = Ok (render <$> hs) ∧
        patches (i + d) (j + d) hs.
Proof.
  induction 1 as [eqs Heqs|eqs g gs rest gss Heqs Hg Hgs Hrest Hgroups IH];
    intros i j d Htiles Hi Hj Hd Hlead.
  { exists []. split; [done|]. constructor.
    rewrite !Z2Nat.inj_add by lia. rewrite <-!drop_drop.
    f_equal. apply (tiles_equal_drop lines1 lines2 i j eqs Htiles); [|done..].
    eapply Forall_impl; [done|]. intros e He. by apply is_equal_true. }
  apply tiles_app_inv in Htiles as (s1 & s2 & Hp1 & Htiles).
  apply tiles_app_inv in Htiles as (e1 & e2 & Hp2 & Htiles).
  pose proof (tiles_le _ _ _ _ _ Htiles) as [He1 He2].
  pose proof (path_le _ _ _ _ _ _ _ Hp1) as [? ?].
  pose proof (path_le _ _ _ _ _ _ _ Hp2) as [? ?].
  destruct (path_equal _ _ _ _ _ _ _ Hp1 Heqs) as [Hdiag Hfirst].
  unfold int_max in *.
  assert (∃ a, 0 ≤ a ∧ i + d ≤ s1 - a ∧
               Z.max 0 (s1 - context) = s1 - a ∧ Z.max 0 (s2 - context) = s2 - a)
    as (a & Ha & Hgap & Hcs1 & Hcs2).
  { destruct Hlead as [(-> & -> & ->)|[Hstop Hdc]].
    { exists (s1 - Z.max 0 (s1 - context)). lia. }
    exists context. destruct eqs as [|e eqs'].
    - specialize (Hstop g eq_refl). apply absorbed_false in Hstop as [Ht _].
      by apply is_equal_false in Hg.
    - specialize (Hstop e eq_refl). apply absorbed_false in Hstop as [Ht Hlen].
      specialize (Hfirst e eqs' eq_refl).
      assert (in_range lines1 lines2 e) as (? & ? & _).
      { assert (Forall (in_range lines1 lines2) (e :: eqs')) as Hall
          by (apply (path_in_range _ _ _ _ _ _ _ Hp1); lia).
        by inversion Hall. }
      unfold int_mul, int_sub in Hlen.
      rewrite !wrap_id in Hlen by (unfold int_min, int_max; lia). lia. }
  assert (∃ d', 0 ≤ d' ∧ d' ≤ context ∧
                e1 + d' ≤ len lines1 ∧ e2 + d' ≤ len lines2 ∧
                Z.min (len lines1) (e1 + context) = e1 + d' ∧
                Z.min (len lines2) (e2 + context) = e2 + d' ∧
                slice lines1 e1 (e1 + d') = slice lines2 e2 (e2 + d'))
    as (d' & Hd' & Hd'c & Hfit1 & Hfit2 & Hce1 & Hce2 & Htrail).
  { destruct rest as [|r rest'].
    - exists 0. inversion Htiles. rewrite !Z.add_0_r, !slice_empty.
      split_and!; (done || lia).
    - exists context. specialize (Hrest r eq_refl).
      apply absorbed_false in Hrest as [Ht Hlen].
      destruct (tiles_head _ _ _ _ _ _ Htiles) as [Hr1 Hr2].
      pose proof (tiles_bounds lines1 lines2 e1 e2 (r :: rest') 0 r Htiles eq_refl)
        as (? & ? & ? & ?).
      destruct (tiles_lookup lines1 lines2 e1 e2 (r :: rest') 0 r Htiles eq_refl)
        as (_ & _ & Hr & _).
      destruct Hr as [(_ & ? & ? & Hsame)|[(Ht' & _)|(Ht' & _)]]; [|congruence..].
      unfold int_mul, int_sub in Hlen.
      rewrite !wrap_id in Hlen by (unfold int_min, int_max; lia).
      split_and!; [lia..|]. rewrite <-Hr1, <-Hr2.
      apply slice_ext; [lia..|]. intros k Hk. apply Hsame. lia. }
  destruct (group_hunk_patch s1 s2 g gs e1 e2 a d')
    as (h & Hhunk & Ho1 & Ho2 & Hn1 & Hn2 & Hold & Hnew); [done|lia..| | |].
  { pose proof (path_equal_part i j eqs s1 s2 (s1 - a - i) (s1 - i) Hp1 Heqs Hi Hj)
      as Hpart.
    replace (i + (s1 - a - i)) with (s1 - a) in Hpart by lia.
    replace (j + (s1 - a - i)) with (s2 - a) in Hpart by lia.
    replace (i + (s1 - i)) with s1 in Hpart by lia.
    replace (j + (s1 - i)) with s2 in Hpart by lia.
    apply Hpart; lia. }
  { done. }
  destruct (IH e1 e2 d' Htiles) as (hs & Hhunks & Hpatches); [lia..|by right|].
  exists (h :: hs). split.
  { simpl. by rewrite Hhunk, ret_bind, Hhunks. }
  apply patches_cons; rewrite ?Ho2, ?Hn2, ?Ho1, ?Hn1; [lia..| | | |done].
  - pose proof (path_equal_part i j eqs s1 s2 d (s1 - a - i) Hp1 Heqs Hi Hj)
      as Hpart.
    replace (i + (s1 - a - i)) with (s1 - a) in Hpart by lia.
    replace (j + (s1 - a - i)) with (s2 - a) in Hpart by lia.
    apply Hpart; lia.
  - done.
  - done.
Qed.
End patch.

(** X10. The hunks are a patch that turns sequence 1 into sequence 2, and
    read backwards sequence 2 into sequence 1.  For every two sequences
    and every context that is not negative and keeps [context*2],
    [len(lines1)+context+1] and [len(lines2)+context+1] within the range
    of [int], each hunk is a header over a body such that, reading the
    start in the header as a 0-based index plus 1: the windows of
    successive hunks lie in order without overlap inside the sequences,
    the body lines that start with a space or a minus are exactly the
    window of sequence 1, and copying sequence 1 with every window
    replaced by the body lines that start with a space or a plus gives
    sequence 2; likewise from sequence 2 to sequence 1. *)
Theorem generateHunks_is_a_patch (lines1 lines2 : list string) (context : Z) :
  0 ≤ context → 2 * context ≤ int_max →
  len lines1 + context < int_max → len lines2 + context < int_max →
  ∃ hs, generateHunks lines1 lines2 context = Ok (render <$> hs) ∧
        replace_windows lines1 0 (forward <$> hs) = Some lines2 ∧
        replace_windows lines2 0 (backward <$> hs) = Some lines1.
Proof.
  intros Hctx Hdouble Hfit1 Hfit2.
  destruct (generateHunks_total lines1 lines2 context)
    as (edits & gss & hunks & _ & Htiles & Hgroups & Hhunks & Hgen).
  destruct (hunks_patch lines1 lines2 context Hctx Hdouble Hfit1 Hfit2
              edits gss Hgroups 0 0 0 Htiles) as (hs & Hhs & Hpatches);
    [lia..|by left|].
  exists hs. split_and!.
  - congruence.
  - by rewrite (patches_forward lines1 lines2 0 0 hs Hpatches).
  - by rewrite (patches_backward lines1 lines2 0 0 hs Hpatches).
Qed.

Lemma generateHunks_is_a_patch_witness :
  ∃ hs, generateHunks ["a"; "b"; "c"] ["a"; "x"; "c"] 1 = Ok (render <$> hs) ∧
        replace_windows ["a"; "b"; "c"] 0 (forward <$> hs) = Some ["a"; "x"; "c"] ∧
        replace_windows ["a"; "x"; "c"] 0 (backward <$> hs) = Some ["a"; "b"; "c"].
Proof.
  apply (generateHunks_is_a_patch ["a"; "b"; "c"] ["a"; "x"; "c"] 1);
    unfold int_max, len; simpl; lia.
Defined.

(** ** Every hunk shows a change *)

Lemma groups_heads context edits gss group :
  groups context edits gss → group ∈ gss →
  ∃ g gs, group = g :: gs ∧ is_equal g = false.
Proof.
  induction 1 as [|eqs g gs rest gss _ Hg _ _ _ IH]; intros Hin.
  - by apply elem_of_nil in Hin.
  - apply elem_of_cons in Hin as [->|Hin]; [by exists g, gs|by apply IH].
Qed.

Lemma groups_edit_ok lines1 lines2 context edits gss group :
  groups context edits gss → Forall (edit_ok lines1 lines2) edits →
  group ∈ gss → Forall (edit_ok lines1 lines2) group.
Proof.
  induction 1 as [|eqs g gs rest gss _ _ _ _ _ IH]; intros Hok Hin.
  - by apply elem_of_nil in Hin.
  - apply Forall_app in Hok as [_ Hok]. apply Forall_app in Hok as [Hg Hok].
    apply elem_of_cons in Hin as [->|Hin]; [done|by apply IH].
Qed.

(** X8. No hunk is context only: in every hunk, for every context, some
    line behind the header starts with a minus or a plus. *)
Theorem generateHunks_hunk_has_change (lines1 lines2 : list string) (context : Z) :
  ∃ hunks, generateHunks lines1 lines2 context = Ok hunks ∧
    ∀ hunk, hunk ∈ hunks →
      ∃ s1 l1 s2 l2 body text,
        hunk = hunk_header s1 l1 s2 l2 :: body ∧
        ("-" +:+ text ∈ body ∨ "+" +:+ text ∈ body).
Proof.
  destruct (generateHunks_total lines1 lines2 context)
    as (edits & gss & hunks & Hdiff & Htiles & Hgroups & Hhunks & Hgen).
  exists hunks. split; [done|].
  apply Forall_forall.
  apply (hunks_of_groups_Forall lines1 lines2 context _ gss); [|done].
  intros group hunk Hin Hhunk.
  assert (Forall (edit_ok lines1 lines2) edits) as Hok.
  { apply Forall_lookup. intros k e Hk.
    by destruct (tiles_lookup lines1 lines2 0 0 edits k e Htiles Hk) as (_ & _ & ? & _). }
  destruct (groups_heads context edits gss group Hgroups Hin) as (g & gs & -> & Hg).
  pose proof (groups_edit_ok lines1 lines2 context edits gss _ Hgroups Hok Hin) as Hgok.
  destruct (groups_elem_in_range lines1 lines2 context edits gss (g :: gs))
    as [_ Hrange]; [done|by apply tiles_in_range with 0 0|done|].
  destruct (last (g :: gs)) as [lst|] eqn:Hlast; [|by apply last_None in Hlast].
  rewrite (createSingleHunk_spec lines1 lines2 g gs lst context Hrange Hlast) in Hhunk.
  injection Hhunk as <-.
  inversion Hgok as [|g0 gs0 Hgood _]; subst.
  inversion Hrange as [|g0 gs0 (? & ? & ? & ?) _]; subst.
  apply is_equal_false in Hg.
  assert (∃ text, "-" +:+ text ∈ edit_lines lines1 lines2 g ∨
                  "+" +:+ text ∈ edit_lines lines1 lines2 g) as (text & Htext).
  { destruct Hgood as [(Ht & _)|[(Ht & ? & ?)|(Ht & ? & ?)]]; [done| |].
    - rewrite (edit_lines_delete _ _ _ Ht).
      destruct (slice lines1 (Start1 g) (End1 g)) as [|text rest] eqn:Hslice.
      + apply (f_equal (λ l, len l)) in Hslice. rewrite slice_length in Hslice by lia.
        change (len (@nil string)) with 0 in Hslice. lia.
      + exists text. left. rewrite fmap_cons. by left.
    - rewrite (edit_lines_insert _ _ _ Ht).
      destruct (slice lines2 (Start2 g) (End2 g)) as [|text rest] eqn:Hslice.
      + apply (f_equal (λ l, len l)) in Hslice. rewrite slice_length in Hslice by lia.
        change (len (@nil string)) with 0 in Hslice. lia.
      + exists text. right. rewrite fmap_cons. by left. }
  eexists _, _, _, _, _, text. split; [done|].
  rewrite !elem_of_app. tauto.
Qed.

(** ** What the script keeps *)

(** X5. The lines the script keeps are, in order, a subsequence of both
    inputs: an Equal operation never pairs lines that differ, nor lines
    out of order. *)
Theorem computeDiff_keeps_common_subsequence (lines1 lines2 : list string) :
  ∃ edits, computeDiff lines1 lines2 = Ok edits ∧
    equal_text lines1 edits `sublist_of` lines1 ∧
    equal_text lines1 edits `sublist_of` lines2 ∧
    len (equal_text lines1 edits) = equal_lines edits.
Proof.
  destruct (computeDiff_spec lines1 lines2) as (edits & Hdiff & Htiles).
  exists edits. split; [done|].
  by apply (tiles_equal_text_sublist lines1 lines2 0 0 edits Htiles).
Qed.

(** * The renderer and the comparison of two files *)

Lemma append_assoc (s t u : string) : (s +:+ t) +:+ u = s +:+ t +:+ u.
Proof. induction s as [|c s IH]; [done|]. by rewrite !append_String, IH. Qed.

Lemma append_empty_r (s : string) : s +:+ "" = s.
Proof. induction s as [|c s IH]; [done|]. by rewrite append_String, IH. Qed.

Lemma append_eq_empty (s t : string) : s +:+ t = "" → s = "" ∧ t = "".
Proof. destruct s; [done|]. by rewrite append_String. Qed.

Lemma printDiff_from (out : string) (diff : list string) (config : Config) :
  foldl (λ out line, out +:+ printLine config line) out diff
  = out +:+ printDiff diff config.
Proof.
  unfold printDiff. revert out.
  induction diff as [|line diff IH]; intros out; simpl.
  - by rewrite append_empty_r.
  - rewrite (IH (out +:+ _)), (IH ("" +:+ _)), append_empty.
    by rewrite append_assoc.
Qed.

Lemma printDiff_cons line diff config :
  printDiff (line :: diff) config = printLine config line +:+ printDiff diff config.
Proof. unfold printDiff at 1. simpl. apply printDiff_from. Qed.

Lemma printDiff_app diff diff' config :
  printDiff (diff ++ diff') config = printDiff diff config +:+ printDiff diff' config.
Proof.
  induction diff as [|line diff IH]; [done|].
  simpl. by rewrite !printDiff_cons, IH, append_assoc.
Qed.

Lemma printColor_plain config color text :
  showColors config = false → printColor config color text = text.
Proof. unfold printColor. by intros ->. Qed.

Lemma printColor_nonempty config color text :
  text ≠ "" → printColor config color text ≠ "".
Proof.
  intros Htext. unfold printColor. destruct (negb (showColors config)); [done|].
  cbv zeta. case_decide; [|done].
  intros Hout. apply append_eq_empty in Hout as [_ Hout].
  by apply append_eq_empty in Hout as [? _].
Qed.

Lemma printLine_nonempty config line : printLine config line ≠ "".
Proof.
  destruct line as [|c line]; [done|].
  assert (String c line +:+ newline ≠ "") as Htext by by rewrite append_String.
  unfold printLine. repeat case_match; try done; by apply printColor_nonempty.
Qed.

Lemma printDiff_empty diff config : printDiff diff config = "" → diff = [].
Proof.
  destruct diff as [|line diff]; [done|]. rewrite printDiff_cons.
  intros [Hline _]%append_eq_empty. by apply printLine_nonempty in Hline.
Qed.

(** The text of a diff: every line followed by a newline. *)
Definition unlines (diff : list string) : string :=
  foldr (λ line out, line +:+ newline +:+ out) "" diff.

(** X13. With colours off [printDiff] writes the lines as they are, each
    followed by a newline, and nothing else: no escape sequence, whatever
    the first character of a line. *)
Theorem printDiff_without_colors (diff : list string) (config : Config) :
  showColors config = false → printDiff diff config = unlines diff.
Proof.
  intros Hplain. induction diff as [|line diff IH]; [done|].
  rewrite printDiff_cons, IH. simpl.
  assert (printLine config line = line +:+ newline) as ->.
  { destruct line as [|c line]; [done|].
    unfold printLine. repeat case_match; by rewrite ?printColor_plain. }
  by rewrite append_assoc.
Qed.

Lemma printDiff_without_colors_witness :
  printDiff ["--- a"; "+++ b"; "@@ -1,1 +1,1 @@"; "-x"; "+y"]
    (mkConfig false 3 false false false false)
  = unlines ["--- a"; "+++ b"; "@@ -1,1 +1,1 @@"; "-x"; "+y"].
Proof. by apply printDiff_without_colors. Defined.

(** X15. [compareFiles] never panics, whatever the files hold and whatever
    the configuration; it returns an error exactly when one of the two
    files cannot be read, the error names the first file that cannot, and
    nothing has been printed then. *)
Theorem compareFiles_total (readFileLines : string → option (list string))
    (file1 file2 : string) (config : Config) :
  ∃ out err, compareFiles readFileLines file1 file2 config = Ok (out, err) ∧
    (err = None ↔ is_Some (readFileLines file1) ∧ is_Some (readFileLines file2)) ∧
    (readFileLines file1 = None → err = Some file1 ∧ out = "") ∧
    (is_Some (readFileLines file1) → readFileLines file2 = None →
     err = Some file2 ∧ out = "").
Proof.
  unfold compareFiles.
  destruct (readFileLines file1) as [content1|].
  2:{ eexists _, _. split; [done|]. split_and!; [|done|by intros [? ?]].
      split; [done|]. by intros [[? ?] _]. }
  destruct (readFileLines file2) as [content2|].
  2:{ eexists _, _. split; [done|]. split_and!; [|done|done].
      split; [done|]. by intros [_ [? ?]]. }
  assert (∃ out, (if isBinary content1 || isBinary content2
            then if showBinary config
                 then Ok ("Binary files " +:+ file1 +:+ " and " +:+ file2 +:+ " differ"
                          +:+ newline, None)
                 else Ok ("", None)
            else diff ← generateUnifiedDiff file1 file2 content1 content2 config;
                 if decide (len diff > 0) then Ok (printDiff diff config, None)
                 else Ok ("", None)) = Ok (out, @None string)) as [out ->].
  { destruct (isBinary content1 || isBinary content2).
    - destruct (showBinary config); by eexists.
    - destruct (generateHunks_total content1 content2 (showContext config))
        as (edits & gss & hunks & _ & _ & _ & _ & Hhunks).
      unfold generateUnifiedDiff. rewrite Hhunks, !ret_bind.
      case_decide; by eexists. }
  exists out, None. split; [done|]. split_and!; [|done|done].
  split; [|done]. intros _. split; by eexists.
Qed.

(** X16. A file that holds a zero byte is never compared: if some line of
    either file holds one then, whatever else the two files hold, also
    when they are the same file, the outcome is the line
    "Binary files ... differ" if [showBinary] is set and no output
    otherwise, and no error. *)
Theorem compareFiles_binary (readFileLines : string → option (list string))
    (file1 file2 : string) (config : Config) (content1 content2 : list string)
    (line s1 s2 : string) :
  readFileLines file1 = Some content1 → readFileLines file2 = Some content2 →
  line ∈ content1 ++ content2 → line = s1 +:+ String "000" s2 →
  compareFiles readFileLines file1 file2 config
  = Ok (if showBinary config
        then "Binary files " +:+ file1 +:+ " and " +:+ file2 +:+ " differ" +:+ newline
        else "", None).
Proof.
  intros Hread1 Hread2 Hin Hline. unfold compareFiles. rewrite Hread1, Hread2.
  assert (isBinary content1 || isBinary content2 = true) as ->.
  { apply orb_true_iff.
    apply elem_of_app in Hin as [Hin|Hin]; [left|right];
      by apply (isBinary_of_zero_byte _ line s1 s2). }
  by destruct (showBinary config).
Qed.

Lemma compareFiles_binary_witness :
  compareFiles (λ _, Some ["a" +:+ String "000" "b"]) "f" "f"
    (mkConfig true 3 false true false false)
  = Ok ("Binary files f and f differ" +:+ newline, None).
Proof.
  apply (compareFiles_binary (λ _, Some ["a" +:+ String "000" "b"]) "f" "f"
           (mkConfig true 3 false true false false)
           ["a" +:+ String "000" "b"] ["a" +:+ String "000" "b"]
           ("a" +:+ String "000" "b") "a" "b"); [done|done|by left|done].
Defined.

(** X17. For two files that can be read and hold no zero byte, in every
    configuration, the output is the two file header lines alone exactly
    when the files have the same lines.  No option makes a difference
    disappear: [ignoreSpace] and [showStats] are never looked at. *)
Theorem compareFiles_headers_only_iff_same
    (readFileLines : string → option (list string))
    (file1 file2 : string) (config : Config) (content1 content2 : list string) :
  readFileLines file1 = Some content1 → readFileLines file2 = Some content2 →
  isBinary content1 = false → isBinary content2 = false →
  compareFiles readFileLines file1 file2 config
  = Ok (printDiff ["--- " +:+ file1; "+++ " +:+ file2] config, None)
  ↔ content1 = content2.
Proof.
  intros Hread1 Hread2 Hbin1 Hbin2.
  destruct (generateHunks_total content1 content2 (showContext config))
    as (edits & gss & hunks & _ & _ & Hgroups & Hofgroups & Hhunks).
  assert (compareFiles readFileLines file1 file2 config
          = Ok (printDiff (["--- " +:+ file1; "+++ " +:+ file2] ++ concat hunks) config,
                None)) as ->.
  { unfold compareFiles. rewrite Hread1, Hread2, Hbin1, Hbin2. simpl.
    unfold generateUnifiedDiff. rewrite Hhunks, !ret_bind, foldl_append.
    rewrite decide_True; [done|].
    cbn [app]. rewrite !len_cons. pose proof (len_nonneg (concat hunks)). lia. }
  rewrite printDiff_app. split.
  - intros [= Hout].
    rewrite <-(append_empty_r (printDiff ["--- " +:+ file1; "+++ " +:+ file2] config))
      in Hout at 2.
    apply (inj _) in Hout. apply printDiff_empty in Hout.
    apply (generateHunks_none_same content1 content2 (showContext config)).
    rewrite Hhunks. f_equal. destruct hunks as [|hunk hunks']; [done|].
    exfalso.
    assert (Forall (λ hunk, len hunk > 0) (hunk :: hunks')) as Hne.
    { apply (hunks_of_groups_Forall content1 content2 (showContext config) _ gss);
        [|done].
      intros group h Hin. apply createSingleHunk_nonempty.
      pose proof (groups_nonempty _ _ _ Hgroups) as Hall.
      rewrite Forall_forall in Hall. by apply Hall. }
    inversion Hne as [|? ? Hpos _]; subst.
    destruct hunk; [by vm_compute in Hpos|done].
  - intros <-. rewrite generateHunks_same in Hhunks. injection Hhunks as <-.
    by rewrite append_empty_r.
Qed.

Lemma compareFiles_headers_only_iff_same_witness :
  compareFiles (λ _, Some ["a"]) "f" "g" (mkConfig true 3 false false true true)
  = Ok (printDiff ["--- f"; "+++ g"] (mkConfig true 3 false false true true), None)
  ↔ ["a"] = ["a"].
Proof.
  by apply (compareFiles_headers_only_iff_same (λ _, Some ["a"]) "f" "g"
              (mkConfig true 3 false false true true) ["a"] ["a"]).
Defined.

(** ** The colours of the lines of a hunk *)

Lemma prefix_cons c s t : String.prefix (String c s) (String c t) = String.prefix s t.
Proof. simpl. by destruct (ascii_dec c c). Qed.

Lemma printColor_on config color text :
  showColors config = true →
  color = "white" ∨ color = "red" ∨ color = "green" →
  printColor config color text
  = esc +:+ (if decide (color = "white") then "[37m"
             else if decide (color = "red") then "[31m" else "[32m")
    +:+ text +:+ esc +:+ "[0m".
Proof.
  intros Hon Hcolor. unfold printColor. rewrite Hon.
  destruct Hcolor as [-> | [-> | ->]]; reflexivity.
Qed.

(** X14. With colours on, a context line is written without any escape
    sequence; a deleted line is written in red and an inserted line in
    green, except that a deleted line whose text starts with two minus
    signs, and an inserted line whose text starts with two plus signs, is
    taken for a file header and written in white. *)
Theorem printLine_colors (config : Config) (text : string) :
  showColors config = true →
  printLine config (" " +:+ text) = " " +:+ text +:+ newline ∧
  printLine config ("-" +:+ text)
  = esc +:+ (if String.prefix "--" text then "[37m" else "[31m")
    +:+ "-" +:+ text +:+ newline +:+ esc +:+ "[0m" ∧
  printLine config ("+" +:+ text)
  = esc +:+ (if String.prefix "++" text then "[37m" else "[32m")
    +:+ "+" +:+ text +:+ newline +:+ esc +:+ "[0m".
Proof.
  intros Hon. rewrite !append_String, !append_empty. unfold printLine.
  rewrite !(prefix_cons _ _ text).
  split_and!.
  - done.
  - rewrite (decide_True (P := "-"%char = "-"%char)) by done.
    destruct (String.prefix "--" text); rewrite printColor_on by tauto;
      cbn [decide]; by rewrite !append_String, !append_empty, !append_assoc.
  - rewrite (decide_False (P := "+"%char = "-"%char)) by done.
    rewrite (decide_True (P := "+"%char = "+"%char)) by done.
    destruct (String.prefix "++" text); rewrite printColor_on by tauto;
      cbn [decide]; by rewrite !append_String, !append_empty, !append_assoc.
Qed.

Lemma printLine_colors_witness :
  printLine (mkConfig true 3 false false false false) (" " +:+ "-- note")
  = " " +:+ "-- note" +:+ newline ∧
  printLine (mkConfig true 3 false false false false) ("-" +:+ "-- note")
  = esc +:+ (if String.prefix "--" "-- note" then "[37m" else "[31m")
    +:+ "-" +:+ "-- note" +:+ newline +:+ esc +:+ "[0m" ∧
  printLine (mkConfig true 3 false false false false) ("+" +:+ "-- note")
  = esc +:+ (if String.prefix "++" "-- note" then "[37m" else "[32m")
    +:+ "+" +:+ "-- note" +:+ newline +:+ esc +:+ "[0m".
Proof.
  by apply (printLine_colors (mkConfig true 3 false false false false) "-- note").
Defined.

(** ** The hunk assembler on any list of operations *)

(** X12. [createHunksFromEdits] returns hunks, without a panic, for every
    list of operations whose ranges lie inside the two sequences,
    whatever their types and order and whatever the context. *)
Theorem createHunksFromEdits_in_range (lines1 lines2 : list string)
    (edits : list Edit) (context : Z) :
  Forall (in_range lines1 lines2) edits →
  ∃ hunks, createHunksFromEdits lines1 lines2 edits context = Ok hunks.
Proof.
  intros Hall. destruct (groups_total context edits) as [gss Hgroups].
  rewrite (createHunksFromEdits_groups lines1 lines2 context edits gss Hgroups).
  apply hunks_of_groups_total.
  - by apply groups_nonempty with context edits.
  - by apply groups_in_range with context edits.
Qed.

Lemma createHunksFromEdits_in_range_witness :
  ∃ hunks, createHunksFromEdits ["a"; "b"] ["c"]
             [mkEdit "insert" 0 0 0 1; mkEdit "delete" 1 2 0 0] 1 = Ok hunks.
Proof.
  apply createHunksFromEdits_in_range.
  repeat constructor; unfold len; simpl; lia.
Defined.

(** A range outside the sequences makes it panic, as the index
    expression [lines1[i]] does in Go. *)
Lemma createHunksFromEdits_out_of_range :
  createHunksFromEdits [] [] [mkEdit "delete" 0 1 0 0] 0 = Panic.
Proof. vm_compute. reflexivity. Qed.

(** ** The starts in the hunk header *)

(** X11. Context never reaches in front of the first line: for a context
    that is not negative and sequences shorter than the largest [int],
    the two starts in the header of every hunk are at least 1 and at most
    one more than the length of their sequence. *)
Theorem generateHunks_header_starts (lines1 lines2 : list string) (context : Z) :
  0 ≤ context → context ≤ int_max →
  len lines1 < int_max → len lines2 < int_max →
  ∃ hunks, generateHunks lines1 lines2 context = Ok hunks ∧
    ∀ hunk, hunk ∈ hunks →
      ∃ s1 l1 s2 l2 body,
        hunk = hunk_header s1 l1 s2 l2 :: body ∧
        1 ≤ s1 ≤ len lines1 + 1 ∧ 1 ≤ s2 ≤ len lines2 + 1.
Proof.
  intros Hctx Hmax Hlen1 Hlen2.
  destruct (generateHunks_total lines1 lines2 context)
    as (edits & gss & hunks & Hdiff & Htiles & Hgroups & Hhunks & Hgen).
  exists hunks. split; [done|].
  apply Forall_forall.
  apply (hunks_of_groups_Forall lines1 lines2 context _ gss); [|done].
  intros group hunk Hin Hhunk.
  destruct (groups_elem_in_range lines1 lines2 context edits gss group)
    as [Hne Hrange]; [done|by apply tiles_in_range with 0 0|done|].
  destruct group as [|g gs]; [done|].
  destruct (last (g :: gs)) as [lst|] eqn:Hlast; [|by apply last_None in Hlast].
  rewrite (createSingleHunk_spec lines1 lines2 g gs lst context Hrange Hlast) in Hhunk.
  injection Hhunk as <-.
  inversion Hrange as [|g0 gs0 (? & ? & ? & ?) _]; subst.
  eexists _, _, _, _, _. split; [done|].
  rewrite !max_is_Zmax. unfold int_add, int_sub, int_max in *.
  rewrite !(wrap_id (_ - context)) by (unfold int_min, int_max; lia).
  rewrite !wrap_id by (unfold int_min, int_max; lia). lia.
Qed.

Lemma generateHunks_header_starts_witness :
  ∃ hunks, generateHunks ["a"; "b"; "c"; "d"; "e"] ["x"; "b"; "c"; "d"; "e"] 3
           = Ok hunks ∧
    ∀ hunk, hunk ∈ hunks →
      ∃ s1 l1 s2 l2 body,
        hunk = hunk_header s1 l1 s2 l2 :: body ∧
        1 ≤ s1 ≤ len ["a"; "b"; "c"; "d"; "e"] + 1 ∧
        1 ≤ s2 ≤ len ["x"; "b"; "c"; "d"; "e"] + 1.
Proof.
  apply (generateHunks_header_starts ["a"; "b"; "c"; "d"; "e"]
           ["x"; "b"; "c"; "d"; "e"] 3); unfold int_max, len; simpl; lia.
Defined.
